(** * chess_db PGN parser and Polyglot book builder (src/parser/parser.cpp)

    A shallow embedding of the record table, the big-endian writer and
    reader, the book post-processing, the SAN replayer, the PGN state
    machine and the probe, with the properties of the specification
    stated and proved (or refuted) over the embedded code. *)

From Stdlib Require Import Ascii String.
From Stdlib Require Import ZArith List Lia Bool Arith.
From Stdlib Require Import Sorting.Sorted Sorting.Permutation.
Import ListNotations.
Local Open Scope Z_scope.

(** ** Fixed-width integers

    C++ unsigned integers of [w] bits are values of [Z] reduced modulo
    [2 ^ w]; every conversion to such a type is written out with [wrap]. *)

Definition wrap (w : Z) (n : Z) : Z := n mod 2 ^ w.

Definition uint8 (n : Z) : Z := wrap 8 n.
Definition uint16 (n : Z) : Z := wrap 16 n.
Definition uint32 (n : Z) : Z := wrap 32 n.
Definition uint64 (n : Z) : Z := wrap 64 n.

(** ** Polyglot records *)

(** Modelled from the spec: [PolyEntry], with [Key] and [PMove], is
    declared in book.h, which is not part of the sources at hand.  The
    specification fixes the layout: key 8 bytes, move 2, weight 2,
    learn 4. *)
Record PolyEntry : Type := mkPolyEntry {
  key : Z;      (* uint64_t *)
  move : Z;     (* uint16_t *)
  weight : Z;   (* uint16_t *)
  learn : Z     (* uint32_t *)
}.

Definition Keys : Type := list PolyEntry.

(** Modelled from the spec: [SizeOfPolyEntry] (book.h), the sixteen bytes
    of a record. *)
Definition SizeOfPolyEntry : nat := 16.

(** [PolyEntry()] : value initialisation, every field zero. *)
Definition PolyEntry_zero : PolyEntry := mkPolyEntry 0 0 0 0.

Definition wf_entry (e : PolyEntry) : Prop :=
  0 <= key e < 2 ^ 64 /\ 0 <= move e < 2 ^ 16 /\
  0 <= weight e < 2 ^ 16 /\ 0 <= learn e < 2 ^ 32.

(** Modelled from the spec: [operator<] on [PolyEntry] (book.h), the
    lexicographic comparison on (key, move, weight, learn). *)
Definition poly_lt (a b : PolyEntry) : bool :=
  (key a <? key b)
  || ((key a =? key b)
      && ((move a <? move b)
          || ((move a =? move b)
              && ((weight a <? weight b)
                  || ((weight a =? weight b) && (learn a <? learn b)))))).

(** ** Big-endian writer: [write<T>] and [write<PolyEntry>]

    [for (i = 8 * (sizeof(T) - 1); i >= 0; i -= 8, ++data)
       *data = uint8_t(n >> i);]
    The argument [sz] is [sizeof(T)]; the bytes are returned in the order
    they are stored. *)

Fixpoint write (sz : nat) (n : Z) : list Z :=
  match sz with
  | O => []
  | S k => uint8 (Z.shiftr n (8 * Z.of_nat k)) :: write k n
  end.

Definition write_entry (e : PolyEntry) : list Z :=
  write 8 (key e) ++ write 2 (move e) ++ write 2 (weight e) ++ write 4 (learn e).

(** ** Reader: [read_entry<T>] and [read_entry<PolyEntry>]

    An [ifstream] is the list of the bytes still to be read; [get]
    answers [EOF = -1] once the list is exhausted and keeps doing so. *)

Definition ifstream : Type := list Z.

Definition get (ifs : ifstream) : Z * ifstream :=
  match ifs with
  | [] => (-1, [])
  | b :: rest => (b, rest)
  end.

(** [n = T((n << 8) + ifs.get())], [sz] times; [w] is the width of [T]. *)
Fixpoint read_loop (w : Z) (sz : nat) (n : Z) (ifs : ifstream) : Z * ifstream :=
  match sz with
  | O => (n, ifs)
  | S k =>
      let (c, ifs') := get ifs in
      read_loop w k (wrap w (Z.shiftl n 8 + c)) ifs'
  end.

Definition read_int (sz : nat) (ifs : ifstream) : Z * ifstream :=
  read_loop (8 * Z.of_nat sz) sz 0 ifs.

Definition read_entry (ifs : ifstream) : PolyEntry * ifstream :=
  let (k, ifs1) := read_int 8 ifs in
  let (m, ifs2) := read_int 2 ifs1 in
  let (w, ifs3) := read_int 2 ifs2 in
  let (l, ifs4) := read_int 4 ifs3 in
  (mkPolyEntry k m w l, ifs4).

(** ** [write_poly_file]

    The output file is the list of bytes written to it; the function
    returns it together with [ofs.tellp()].  [prev] starts at the
    zero-initialised [dummy] and is moved only when an entry is written. *)

Fixpoint write_poly_loop (full : bool) (prev : PolyEntry) (kTable : Keys)
                         (ofs : list Z) : list Z :=
  match kTable with
  | [] => ofs
  | e :: rest =>
      if negb (key e =? key prev) || negb (move e =? move prev) || full
      then write_poly_loop full e rest (ofs ++ firstn SizeOfPolyEntry (write_entry e))
      else write_poly_loop full prev rest ofs
  end.

Definition write_poly_file (kTable : Keys) (full : bool) : list Z * Z :=
  let ofs := write_poly_loop full PolyEntry_zero kTable [] in
  (ofs, Z.of_nat (length ofs)).

(** The specification's words for the deduplication: consecutive entries
    with identical (key, move) are collapsed, only the first survives. *)

Definition same_key_move (a b : PolyEntry) : bool :=
  (key a =? key b) && (move a =? move b).

(** The entries of [l] that differ in (key, move) from the entry just
    before them, [prev] standing before the first. *)
Fixpoint survivors (prev : PolyEntry) (l : Keys) : Keys :=
  match l with
  | [] => []
  | e :: rest =>
      if same_key_move prev e then survivors e rest else e :: survivors e rest
  end.

Definition collapse (l : Keys) : Keys :=
  match l with
  | [] => []
  | e :: rest => e :: survivors e rest
  end.

Definition serialise (l : Keys) : list Z := concat (List.map write_entry l).

(** ** [std::sort]

    [std::sort] is specified by its contract only: the result is a
    permutation of the range in which no element is less than one standing
    before it.  Its model is an insertion sort; the properties below use
    nothing but that contract ([std_sort_perm], [std_sort_sorted]), so they
    hold for whichever order the library leaves equivalent elements in. *)

Section StdSort.
Context {A : Type} (lt : A -> A -> bool).

Fixpoint sort_insert (x : A) (l : list A) : list A :=
  match l with
  | [] => [x]
  | y :: l' => if lt y x then y :: sort_insert x l' else x :: y :: l'
  end.

Fixpoint std_sort (l : list A) : list A :=
  match l with
  | [] => []
  | x :: l' => sort_insert x (std_sort l')
  end.
End StdSort.

(** ** [sort_by_frequency] *)

(** [int]: the product [moves[...] * 0xFFFF] is formed in 32-bit signed
    arithmetic.  It does not overflow for runs of at most 32768 records;
    beyond that the C++ standard leaves the result undefined and the model
    wraps in two's complement. *)
Definition int32 (n : Z) : Z := (n + 2 ^ 31) mod 2 ^ 32 - 2 ^ 31.

(** [std::map<PMove, int>] read and updated through [operator[]]: a key
    that was never touched reads as 0. *)
Definition move_map : Type := Z -> Z.

Definition move_map_empty : move_map := fun _ => 0.

(** [moves[m]++] *)
Definition move_map_incr (moves : move_map) (m : Z) : move_map :=
  fun x => if x =? m then int32 (moves x + 1) else moves x.

(** The elements with index in [[start, end_)]. *)
Definition slice {A : Type} (start end_ : nat) (l : list A) : list A :=
  firstn (end_ - start) (skipn start l).

(** [moves[kTable[i].move] * 0xFFFF / (end - start)], stored in a
    [uint16_t]: an [int] product, converted to [size_t] for the division. *)
Definition freq_weight (count : Z) (len : nat) : Z :=
  uint16 (uint64 (int32 (count * 0xFFFF)) / Z.of_nat len).

Definition set_weight (e : PolyEntry) (w : Z) : PolyEntry :=
  mkPolyEntry (key e) (move e) w (learn e).

(** The comparison handed to [std::sort] by [sort_by_frequency]. *)
Definition freq_lt (a b : PolyEntry) : bool :=
  (weight a >? weight b)
  || ((weight a =? weight b) && (move a >? move b)).

(** The caller passes [start <= end_ <= kTable.size()]. *)
Definition sort_by_frequency (kTable : Keys) (start end_ : nat) : Keys * nat :=
  let run := slice start end_ kTable in
  let moves := fold_left (fun mv e => move_map_incr mv (move e)) run move_map_empty in
  let run' := List.map (fun e => set_weight e (freq_weight (moves (move e)) (end_ - start))) run in
  (firstn start kTable ++ std_sort freq_lt run' ++ skipn end_ kTable, end_).

(** ** The post-processing of [make_book]

    [std::sort(kTable.begin(), kTable.end())] followed by the loop over
    [idx].  The loop is run on fuel; [None] is an exhausted fuel, which
    [post_process_total] shows never to happen.  The result is the table
    and [uniqueKeys]. *)

Fixpoint reweight_loop (fuel : nat) (kTable : Keys) (idx last uniqueKeys : nat)
  : option (Keys * nat) :=
  match fuel with
  | O => None
  | S fuel' =>
      if (idx <? length kTable)%nat then
        if negb (key (nth idx kTable PolyEntry_zero)
                 =? key (nth (idx - 1) kTable PolyEntry_zero)) then
          let '(kTable', idx') :=
            if (2 <? idx - last)%nat
            then sort_by_frequency kTable last idx
            else (kTable, idx) in
          reweight_loop fuel' kTable' (S idx') idx' (S uniqueKeys)
        else reweight_loop fuel' kTable (S idx) last uniqueKeys
      else Some (kTable, uniqueKeys)
  end.

Definition post_process (kTable : Keys) : option (Keys * nat) :=
  let sorted := std_sort poly_lt kTable in
  reweight_loop (S (length sorted)) sorted 1 0 1.

(** ** The PGN alphabet, the parser states and the actions *)

Inductive Token : Type :=
  | T_NONE | T_SPACES | T_RESULT | T_MINUS | T_DOT | T_QUOTES | T_DOLLAR
  | T_LEFT_BRACKET | T_RIGHT_BRACKET | T_LEFT_BRACE | T_RIGHT_BRACE
  | T_LEFT_PARENTHESIS | T_RIGHT_PARENTHESIS | T_EVENT | T_ZERO | T_DIGIT
  | T_MOVE_HEAD.

Inductive State : Type :=
  | HEADER | TAG | FEN_TAG | BRACE_COMMENT | VARIATION
  | NUMERIC_ANNOTATION_GLYPH | NEXT_MOVE | MOVE_NUMBER | NEXT_SAN | READ_SAN
  | RESULT | SKIP_GAME.

Inductive Step : Type :=
  | FAIL | CONTINUE | GAME_START | OPEN_TAG | OPEN_BRACE_COMMENT | READ_FEN
  | CLOSE_FEN_TAG | OPEN_VARIATION | START_NAG | POP_STATE
  | START_MOVE_NUMBER | START_NEXT_SAN | CASTLE_OR_RESULT | START_READ_SAN
  | READ_MOVE_CHAR | END_MOVE | START_RESULT | END_GAME | TAG_IN_BRACE
  | MISSING_RESULT.

Definition State_eqb (a b : State) : bool :=
  match a, b with
  | HEADER, HEADER | TAG, TAG | FEN_TAG, FEN_TAG
  | BRACE_COMMENT, BRACE_COMMENT | VARIATION, VARIATION
  | NUMERIC_ANNOTATION_GLYPH, NUMERIC_ANNOTATION_GLYPH
  | NEXT_MOVE, NEXT_MOVE | MOVE_NUMBER, MOVE_NUMBER | NEXT_SAN, NEXT_SAN
  | READ_SAN, READ_SAN | RESULT, RESULT | SKIP_GAME, SKIP_GAME => true
  | _, _ => false
  end.

(** Characters that have no printable literal. *)
Definition NUL : ascii := "000"%char.
Definition LF : ascii := "010"%char.
Definition CR : ascii := "013"%char.
Definition TAB : ascii := "009"%char.
Definition DQUOTE : ascii := "034"%char.

(** [ToToken], as [Parser::init] fills it; the array is a global, so the
    bytes [init] does not mention are [T_NONE] (zero). *)
Definition ToToken (c : ascii) : Token :=
  match c with
  | "010" | "013" | " " | "009" => T_SPACES
  | "/" | "*" => T_RESULT
  | "-" => T_MINUS
  | "." => T_DOT
  | "034" => T_QUOTES
  | "$" => T_DOLLAR
  | "[" => T_LEFT_BRACKET
  | "]" => T_RIGHT_BRACKET
  | "{" => T_LEFT_BRACE
  | "}" => T_RIGHT_BRACE
  | "(" => T_LEFT_PARENTHESIS
  | ")" => T_RIGHT_PARENTHESIS
  | "E" => T_EVENT
  | "0" => T_ZERO
  | "1" | "2" | "3" | "4" | "5" | "6" | "7" | "8" | "9" => T_DIGIT
  | "a" | "b" | "c" | "d" | "e" | "f" | "g" | "h"
  | "N" | "B" | "R" | "Q" | "K" | "O" | "o" => T_MOVE_HEAD
  | "!" | "?" | "+" | "#" => T_SPACES
  | _ => T_NONE
  end%char.

(** [ToStep], as [Parser::init] fills it.  The row of [MOVE_NUMBER] has no
    default loop: its other cells keep the zero of the global, [FAIL]. *)
Definition ToStep (s : State) (tk : Token) : Step :=
  match s with
  | HEADER =>
      match tk with
      | T_LEFT_BRACKET => OPEN_TAG
      | T_LEFT_BRACE => OPEN_BRACE_COMMENT
      | T_DIGIT => START_MOVE_NUMBER
      | T_ZERO => START_RESULT
      | T_RESULT => START_RESULT
      | _ => CONTINUE
      end
  | TAG =>
      match tk with
      | T_RIGHT_BRACKET => POP_STATE
      | _ => CONTINUE
      end
  | FEN_TAG =>
      match tk with
      | T_QUOTES => CLOSE_FEN_TAG
      | _ => READ_FEN
      end
  | BRACE_COMMENT =>
      match tk with
      | T_RIGHT_BRACE => POP_STATE
      | T_LEFT_BRACKET => TAG_IN_BRACE
      | _ => CONTINUE
      end
  | VARIATION =>
      match tk with
      | T_RIGHT_PARENTHESIS => POP_STATE
      | T_LEFT_PARENTHESIS => OPEN_VARIATION
      | T_LEFT_BRACE => OPEN_BRACE_COMMENT
      | _ => CONTINUE
      end
  | NUMERIC_ANNOTATION_GLYPH =>
      match tk with
      | T_ZERO => CONTINUE
      | T_DIGIT => CONTINUE
      | _ => POP_STATE
      end
  | NEXT_MOVE =>
      match tk with
      | T_LEFT_PARENTHESIS => OPEN_VARIATION
      | T_LEFT_BRACE => OPEN_BRACE_COMMENT
      | T_LEFT_BRACKET => MISSING_RESULT
      | T_DOLLAR => START_NAG
      | T_RESULT => START_RESULT
      | T_ZERO => START_RESULT
      | T_DOT => FAIL
      | T_MOVE_HEAD => FAIL
      | T_MINUS => FAIL
      | T_DIGIT => START_MOVE_NUMBER
      | _ => CONTINUE
      end
  | MOVE_NUMBER =>
      match tk with
      | T_ZERO => CONTINUE
      | T_DIGIT => CONTINUE
      | T_RESULT => START_RESULT
      | T_MINUS => START_RESULT
      | T_SPACES => START_NEXT_SAN
      | T_DOT => START_NEXT_SAN
      | _ => FAIL
      end
  | NEXT_SAN =>
      match tk with
      | T_LEFT_PARENTHESIS => OPEN_VARIATION
      | T_LEFT_BRACE => OPEN_BRACE_COMMENT
      | T_LEFT_BRACKET => MISSING_RESULT
      | T_DOLLAR => START_NAG
      | T_RESULT => START_RESULT
      | T_ZERO => CASTLE_OR_RESULT
      | T_DOT => CONTINUE
      | T_DIGIT => START_MOVE_NUMBER
      | T_MOVE_HEAD => START_READ_SAN
      | T_MINUS => START_READ_SAN
      | _ => CONTINUE
      end
  | READ_SAN =>
      match tk with
      | T_SPACES => END_MOVE
      | T_LEFT_BRACE => OPEN_BRACE_COMMENT
      | _ => READ_MOVE_CHAR
      end
  | RESULT =>
      match tk with
      | T_SPACES => END_GAME
      | _ => CONTINUE
      end
  | SKIP_GAME =>
      match tk with
      | T_EVENT => GAME_START
      | _ => CONTINUE
      end
  end.

(** ** The mapped file

    [baseAddress] is offset 0 and a pointer into the mapping is its offset,
    in [Z] since the parser steps back from [data].  A byte outside the file
    reads as NUL: the pages of a mapping are zero beyond the end of the
    file. *)

Definition byte_at (pgn : list ascii) (i : Z) : ascii :=
  if i <? 0 then NUL else nth (Z.to_nat i) pgn NUL.

(** [!strncmp(p, lit, n)] for a literal [lit] of [n] characters. *)
Fixpoint match_at (pgn : list ascii) (p : Z) (lit : list ascii) : bool :=
  match lit with
  | [] => true
  | c :: rest => Ascii.eqb (byte_at pgn p) c && match_at pgn (p + 1) rest
  end.

Definition lit (s : string) : list ascii := list_ascii_of_string s.

Definition lit_Event : list ascii := lit "[Event ".
Definition lit_FEN : list ascii := lit "FEN " ++ [DQUOTE].
Definition lit_Variant : list ascii := lit "Variant ".
Definition lit_Standard : list ascii := [DQUOTE] ++ lit "Standard" ++ [DQUOTE].

(** ** [get_result] *)

Definition get_result (pgn : list ascii) (data : Z) : Z :=
  let c := byte_at pgn data in
  if Ascii.eqb c "/" then 2
  else if Ascii.eqb c "0" then 1
  else if Ascii.eqb c "-" then
    if Ascii.eqb (byte_at pgn (data - 1)) "1"
       || (Ascii.eqb (byte_at pgn (data - 1)) " "
           && Ascii.eqb (byte_at pgn (data - 2)) "1")
    then 0
    else if Ascii.eqb (byte_at pgn (data - 1)) "0"
            || (Ascii.eqb (byte_at pgn (data - 1)) " "
                && Ascii.eqb (byte_at pgn (data - 2)) "0")
    then 1
    else 3
  else 3.

(** The specification's table for [get_result]: [c] is the character at
    the cursor, [p1] the one before it and [p2] the one before that. *)
Definition result_of_token (c p1 p2 : ascii) : Z :=
  if Ascii.eqb c "/" then 2
  else if Ascii.eqb c "*" then 3
  else if Ascii.eqb c "0" then 1
  else if Ascii.eqb c "-" then
    if Ascii.eqb p1 "1" then 0
    else if Ascii.eqb p1 " " && Ascii.eqb p2 "1" then 0
    else if Ascii.eqb p1 "0" then 1
    else if Ascii.eqb p1 " " && Ascii.eqb p2 "0" then 1
    else 3
  else 3.

(** ** The chess engine

    [Position], [Move] and their operations (position.h, types.h) are
    consumed by the parser and not part of the sources at hand: they are
    the fields of an interface.  A [Move] is the integer of its enum;
    [san_to_move] reads the token at [cur] (the bytes of the buffer from
    [cur] to [end]) and may increment [fixed]; [StateInfo] slots are undo
    storage and carry no information here. *)

(** Modelled from the spec: [Color] (types.h) has the two sides, and
    [stm ^= 1] passes from one to the other. *)
Inductive Color : Type := WHITE | BLACK.

Class Engine : Type := {
  Position : Type;
  RootPos : Position;
  pos_set : list ascii -> Position;                 (* Position::set(fen, false, st) *)
  san_to_move : Position -> list ascii -> Z -> Z * Z;
  do_move : Position -> Z -> Position;
  do_null_move : Position -> Position;
  pos_key : Position -> Z;                          (* Position::key() *)
  side_to_move : Position -> Color;
  MOVE_NONE : Z;
  MOVE_NULL : Z;
  type_of : Z -> Z;
  PROMOTION : Z;
  promotion_type : Z -> Z
}.

(** What reaches [std::cerr]. *)
Inductive Diag : Type :=
  | WrongState (s : State) (data : Z)              (* error(state, data) *)
  | WrongMove (side : Color) (cur : list ascii).   (* "Wrong move notation" *)

Section Replay.
Context {E : Engine}.

Definition to_polyglot (m : Z) : Z :=
  if type_of m =? PROMOTION
  then uint16 (Z.lor (Z.land m 0xFFF) (Z.shiftl (promotion_type m - 1) 12))
  else uint16 (Z.land m 0x3FFF).

(** [const uint32_t learn = ((uint32_t(result) & 3) << 30)
                            | ((gameOfs >> 3) & 0x3FFFFFFF)] *)
Definition learn_of (gameOfs result : Z) : Z :=
  uint32 (Z.lor (uint32 (Z.shiftl (Z.land (uint32 result) 3) 30))
                (Z.land (Z.shiftr gameOfs 3) 0x3FFFFFFF)).

(** The loop [while ( *cur++ ) {}]: past the first NUL at or after [cur].  A token
    that was not terminated before [end] leaves [cur] beyond [end],
    which is all the caller's loop test looks at: the empty remainder. *)
Fixpoint next_token (cur : list ascii) : list ascii :=
  match cur with
  | [] => []
  | c :: rest => if Ascii.eqb c NUL then rest else next_token rest
  end.

Record GameResult : Type := mkGameResult {
  g_ret : nat;            (* the returned pointer, as an offset from [moves] *)
  g_table : Keys;
  g_fixed : Z;
  g_diag : list Diag
}.

(** The [while (cur < end)] loop of [parse_game].  [cur] is the part of
    the buffer from the cursor to [end] and [len] the length of the whole
    buffer.  The loop runs on fuel; [parse_game_loop_total] shows that the
    length of the buffer is enough. *)
Fixpoint parse_game_loop (fuel : nat) (DryRun : bool) (learn_ : Z) (len : nat)
         (pos : Position) (cur : list ascii) (kTable : Keys) (fixed : Z)
  : option GameResult :=
  match fuel with
  | O => None
  | S fuel' =>
      match cur with
      | [] => Some (mkGameResult len kTable fixed [])
      | _ :: _ =>
          let '(mv, fixed') := san_to_move pos cur fixed in
          if mv =? MOVE_NONE then
            Some (mkGameResult (len - length cur) kTable fixed'
                    (if DryRun then [] else [WrongMove (side_to_move pos) cur]))
          else if mv =? MOVE_NULL then
            parse_game_loop fuel' DryRun learn_ len (do_null_move pos)
                            (next_token cur) kTable fixed'
          else
            parse_game_loop fuel' DryRun learn_ len (do_move pos mv)
              (next_token cur)
              (if DryRun then kTable
               else kTable ++ [mkPolyEntry (pos_key pos) (to_polyglot mv) 1 learn_])
              fixed'
      end
  end.

(** [fen] is the buffer from [fen] to [fenEnd], [moves] the one from
    [moves] to [end].  The loop always ends within the fuel it is given
    here ([parse_game_run]), so the [None] branch of [parse_game] is never
    taken. *)
Definition start_position (fen : list ascii) : Position :=
  match fen with
  | [] => RootPos
  | _ :: _ => pos_set fen
  end.

Definition parse_game (DryRun : bool) (moves : list ascii) (kTable : Keys)
           (fen : list ascii) (fixed gameOfs result : Z) : GameResult :=
  match parse_game_loop (S (length moves)) DryRun (learn_of gameOfs result)
                        (length moves) (start_position fen) moves kTable fixed with
  | Some g => g
  | None => mkGameResult 0 kTable fixed []
  end.
End Replay.

(** ** [parse_pgn]

    The locals of [parse_pgn] are the fields of [PState], under their own
    names; [fen] holds the bytes from [fen] to [fenEnd], [moves] those from
    [moves] to [end], [curMove] is an offset into [moves], [stateStack] is
    the stack from its top ([stateSp]) down, [data] the offset of the cursor
    and [cerr] what was printed so far.  The fixed arrays of the source (16
    states, 256 and 8192 characters) are lists: inputs that overflow them
    are outside the model. *)

Record Stats : Type := mkStats {
  games : Z;
  moves_ : Z;   (* Stats::moves *)
  fixed_ : Z    (* Stats::fixed *)
}.

Record PState : Type := mkPState {
  state : State;
  stateStack : list State;
  fen : list ascii;
  moves : list ascii;
  curMove : nat;
  moveCnt : Z;
  gameCnt : Z;
  fixed : Z;
  gameOfs : Z;
  result : Z;
  data : Z;
  stm : Color;
  kTable : Keys;
  cerr : list Diag
}.

Definition set_state (st : State) (s : PState) : PState :=
  mkPState st (stateStack s) (fen s) (moves s) (curMove s) (moveCnt s)
           (gameCnt s) (fixed s) (gameOfs s) (result s) (data s) (stm s)
           (kTable s) (cerr s).

Definition set_stateStack (stk : list State) (s : PState) : PState :=
  mkPState (state s) stk (fen s) (moves s) (curMove s) (moveCnt s)
           (gameCnt s) (fixed s) (gameOfs s) (result s) (data s) (stm s)
           (kTable s) (cerr s).

Definition set_fen (f : list ascii) (s : PState) : PState :=
  mkPState (state s) (stateStack s) f (moves s) (curMove s) (moveCnt s)
           (gameCnt s) (fixed s) (gameOfs s) (result s) (data s) (stm s)
           (kTable s) (cerr s).

Definition set_moves (m : list ascii) (s : PState) : PState :=
  mkPState (state s) (stateStack s) (fen s) m (curMove s) (moveCnt s)
           (gameCnt s) (fixed s) (gameOfs s) (result s) (data s) (stm s)
           (kTable s) (cerr s).

Definition set_result (r : Z) (s : PState) : PState :=
  mkPState (state s) (stateStack s) (fen s) (moves s) (curMove s) (moveCnt s)
           (gameCnt s) (fixed s) (gameOfs s) r (data s) (stm s)
           (kTable s) (cerr s).

Definition set_data (d : Z) (s : PState) : PState :=
  mkPState (state s) (stateStack s) (fen s) (moves s) (curMove s) (moveCnt s)
           (gameCnt s) (fixed s) (gameOfs s) (result s) d (stm s)
           (kTable s) (cerr s).

Definition set_stm (c : Color) (s : PState) : PState :=
  mkPState (state s) (stateStack s) (fen s) (moves s) (curMove s) (moveCnt s)
           (gameCnt s) (fixed s) (gameOfs s) (result s) (data s) c
           (kTable s) (cerr s).

Definition set_cerr (l : list Diag) (s : PState) : PState :=
  mkPState (state s) (stateStack s) (fen s) (moves s) (curMove s) (moveCnt s)
           (gameCnt s) (fixed s) (gameOfs s) (result s) (data s) (stm s)
           (kTable s) l.

(** [*stateSp++ = state; state = ToStep[st]] *)
Definition push_state (st : State) (s : PState) : PState :=
  set_state st (set_stateStack (state s :: stateStack s) s).

(** [state = *(--stateSp)].  The stack is never empty when a state is
    popped ([stack_ok_step]); on an empty stack the source reads below its
    array and the model leaves the state as it is. *)
Definition pop_state (s : PState) : PState :=
  match stateStack s with
  | [] => s
  | top :: rest => set_state top (set_stateStack rest s)
  end.

(** [strstr(fen, " b ")] on the C string that starts the [fen] buffer. *)
Fixpoint c_str (l : list ascii) : list ascii :=
  match l with
  | [] => []
  | c :: rest => if Ascii.eqb c NUL then [] else c :: c_str rest
  end.

Fixpoint starts_with (pat l : list ascii) : bool :=
  match pat, l with
  | [], _ => true
  | _ :: _, [] => false
  | p :: pat', c :: l' => Ascii.eqb p c && starts_with pat' l'
  end.

Fixpoint strstr (l pat : list ascii) : bool :=
  starts_with pat l
  || match l with
     | [] => false
     | _ :: l' => strstr l' pat
     end.

Section Parser.
Context {E : Engine}.
Variable pgn : list ascii.

Definition eof : Z := Z.of_nat (length pgn).

(** The shared tail of [END_GAME] and [MISSING_RESULT]: replay the game,
    count it and reset the accumulators; [ofs] is the new [gameOfs]. *)
Definition finish_game (ofs : Z) (s : PState) : PState :=
  let g := parse_game false (moves s) (kTable s) (fen s) (fixed s)
                      (gameOfs s) (result s) in
  mkPState HEADER (stateStack s) [] [] 0 (moveCnt s) (gameCnt s + 1)
           (g_fixed g) ofs 3 (data s) WHITE (g_table g)
           (cerr s ++ g_diag g).

Definition do_MISSING_RESULT (s : PState) : PState :=
  push_state TAG (finish_game (data s) s).

Definition do_START_READ_SAN (s : PState) : PState :=
  set_state READ_SAN (set_moves (moves s ++ [byte_at pgn (data s)]) s).

(** The body of the [switch] for one byte.  [assert (result == 3)] holds
    whenever it is reached ([result_unknown_step]) and is not modelled. *)
Definition action (s : PState) : PState :=
  let d := data s in
  match ToStep (state s) (ToToken (byte_at pgn d)) with
  | FAIL => set_cerr (cerr s ++ [WrongState (state s) d]) s
  | CONTINUE => s
  | GAME_START =>
      if match_at pgn (d - 1) lit_Event
      then set_state HEADER (set_data (d - 2) s)
      else s
  | OPEN_TAG =>
      if match_at pgn (d + 1) lit_FEN
      then set_state FEN_TAG (set_data (d + 5) (push_state (state s) s))
      else if match_at pgn (d + 1) lit_Variant
              && negb (match_at pgn (d + 9) lit_Standard)
      then set_state SKIP_GAME (pop_state (push_state (state s) s))
      else push_state TAG s
  | OPEN_BRACE_COMMENT => push_state BRACE_COMMENT s
  | READ_FEN => set_fen (fen s ++ [byte_at pgn d]) s
  | CLOSE_FEN_TAG =>
      let s' := set_state TAG (set_fen (fen s ++ [NUL]) s) in
      if strstr (c_str (fen s')) (lit " b ") then set_stm BLACK s' else s'
  | OPEN_VARIATION => push_state VARIATION s
  | START_NAG => push_state NUMERIC_ANNOTATION_GLYPH s
  | POP_STATE => pop_state s
  | START_MOVE_NUMBER => set_state MOVE_NUMBER s
  | START_NEXT_SAN => set_state NEXT_SAN s
  | CASTLE_OR_RESULT =>
      if negb (Ascii.eqb (byte_at pgn (d + 2)) "0")
      then set_state RESULT (set_result (get_result pgn d) s)
      else do_START_READ_SAN s
  | START_READ_SAN => do_START_READ_SAN s
  | READ_MOVE_CHAR => set_moves (moves s ++ [byte_at pgn d]) s
  | END_MOVE =>
      let m := moves s ++ [NUL] in
      mkPState (match stm s with WHITE => NEXT_SAN | BLACK => NEXT_MOVE end)
               (stateStack s) (fen s) m (length m) (moveCnt s + 1)
               (gameCnt s) (fixed s) (gameOfs s) (result s) (data s)
               (match stm s with WHITE => BLACK | BLACK => WHITE end)
               (kTable s) (cerr s)
  | START_RESULT => set_state RESULT (set_result (get_result pgn d) s)
  | END_GAME =>
      if negb (Ascii.eqb (byte_at pgn d) LF)
      then set_state RESULT s
      else finish_game (d + 1) s
  | TAG_IN_BRACE =>
      if negb (match_at pgn d lit_Event) then s else do_MISSING_RESULT s
  | MISSING_RESULT => do_MISSING_RESULT s
  end.

(** One turn of the [for] loop: the body, then [++data] (which the
    [continue] of [CASTLE_OR_RESULT] runs as well). *)
Definition step (s : PState) : PState :=
  let s' := action s in set_data (data s' + 1) s'.

(** [for ( ; data < eof; ++data)], on fuel; [parse_loop_total] shows
    that the fuel [parse_pgn] gives is enough. *)
Fixpoint parse_loop (fuel : nat) (s : PState) : option PState :=
  match fuel with
  | O => None
  | S fuel' => if data s <? eof then parse_loop fuel' (step s) else Some s
  end.

(** The state at the head of the loop. *)
Definition initial_state (table : Keys) : PState :=
  mkPState HEADER [] [] [] 0 0 0 0 0 3 0 WHITE table [].

(** The code after the loop: account for a game still pending. *)
Definition at_eof (s : PState) : PState :=
  if negb (State_eqb (state s) HEADER) && negb (State_eqb (state s) SKIP_GAME)
     && negb (length (moves s) =? 0)%nat
  then
    let g := parse_game false (moves s) (kTable s) (fen s) (fixed s)
                        (gameOfs s) (result s) in
    mkPState (state s) (stateStack s) (fen s) (moves s) (curMove s)
             (moveCnt s) (gameCnt s + 1) (g_fixed g) (gameOfs s) (result s)
             (data s) (stm s) (g_table g) (cerr s ++ g_diag g)
  else s.

Definition stats_of (s : PState) : Stats :=
  mkStats (gameCnt s) (moveCnt s) (fixed s).

Definition parse_fuel : nat := 3 * length pgn + 3.

(** The result: the statistics, the table and what was printed. *)
Definition parse_pgn (table : Keys) : option (Stats * Keys * list Diag) :=
  match parse_loop parse_fuel (initial_state table) with
  | None => None
  | Some s =>
      let s' := at_eof s in Some (stats_of s', kTable s', cerr s')
  end.
End Parser.

(** ** [map] and [std::vector::reserve]

    [map] hands the file to [mmap], which refuses a length of zero: for
    an empty file the source prints [Could not mmap()] and leaves with
    [exit(1)], here [None].  The file is taken to exist and to be
    readable.  ([map] keeps its name but for the suffix, [List.map] being
    in use.) *)
Definition map_file (file : list ascii) : option (list ascii) :=
  match file with
  | [] => None
  | _ :: _ => Some file
  end.

(** [reserve(n)] on a vector whose elements take [sizeof_T] bytes throws
    [std::length_error] when [n] is above [max_size()], which is
    [PTRDIFF_MAX / sizeof(T)] where pointers have 64 bits.  Memory that
    runs out is outside the model, for this allocation as for every
    other. *)
Definition vector_max_size (sizeof_T : Z) : Z := (2 ^ 63 - 1) / sizeof_T.

Definition reserve_ok (sizeof_T n : Z) : bool := n <=? vector_max_size sizeof_T.

(** ** [make_book]

    The part of [make_book] that computes: map, reserve, parse, sort,
    re-weight, write.  The result is the content of the book file, the
    statistics and [uniqueKeys]; file names, timing and the JSON report
    are left out.  [None]: the command ends before a book is written
    ([map] leaves, or [kTable.reserve(2 * size / sizeof(PolyEntry))]
    throws). *)

Definition make_book {E : Engine} (pgn : list ascii) (full : bool)
  : option (list Z * Stats * nat) :=
  match map_file pgn with
  | None => None
  | Some mapped =>
      let size := Z.of_nat (length mapped) in
      if reserve_ok (Z.of_nat SizeOfPolyEntry)
                    (uint64 (2 * size) / Z.of_nat SizeOfPolyEntry)
      then
        match parse_pgn mapped [] with
        | None => None
        | Some (stats, table, _) =>
            match post_process table with
            | None => None
            | Some (table', uniqueKeys) =>
                Some (fst (write_poly_file table' full), stats, uniqueKeys)
            end
        end
      else None
  end.

(** ** [probe_key]

    The book file is [Some] list of bytes, or [None] when it cannot be
    opened.  Each string pushed on [json_moves] is built from the move, the
    weight, the four counters and the offsets collected for the group; the
    model keeps these values instead of the text ([UCI::move] belongs to the
    engine). *)

Record MoveInfo : Type := mkMoveInfo {
  j_move : Z;
  j_weight : Z;
  j_results : list Z;     (* results[0..3]: wins, losses, draws, unknown *)
  j_pgn_ofs : list Z
}.

(** [results[i]++] *)
Fixpoint incr_at (i : nat) (results : list Z) : list Z :=
  match results, i with
  | [], _ => []
  | r :: rest, O => r + 1 :: rest
  | r :: rest, S j => r :: incr_at j rest
  end.

(** [(e.learn & 0x3FFFFFFF) << 3]: [learn] is a [uint32_t], so the shift is
    made on 32 bits before the value is stored as a [uint64_t]. *)
Definition decode_ofs (l : Z) : Z := uint32 (Z.shiftl (Z.land l 0x3FFFFFFF) 3).

(** The inner [do ... while (e.move == move)]. *)
Fixpoint probe_group (fuel : nat) (limit : nat) (mv : Z) (e : PolyEntry)
         (ifs : ifstream) (skip_counter : nat) (pgn_ofs results : list Z)
  : option (PolyEntry * ifstream * list Z * list Z) :=
  match fuel with
  | O => None
  | S fuel' =>
      let pgn_ofs' :=
        if (skip_counter =? 0)%nat && (length pgn_ofs <? limit)%nat
        then pgn_ofs ++ [decode_ofs (learn e)] else pgn_ofs in
      let skip_counter' := Nat.pred skip_counter in
      let results' :=
        incr_at (Z.to_nat (Z.land (Z.shiftr (learn e) 30) 3)) results in
      let (e', ifs') := read_entry ifs in
      if move e' =? mv
      then probe_group fuel' limit mv e' ifs' skip_counter' pgn_ofs' results'
      else Some (e', ifs', pgn_ofs', results')
  end.

(** The outer [do ... while (key == e.key)]. *)
Fixpoint probe_moves (fuel : nat) (limit skip : nat) (key_ : Z) (e : PolyEntry)
         (ifs : ifstream) (json_moves : list MoveInfo) : option (list MoveInfo) :=
  match fuel with
  | O => None
  | S fuel' =>
      match probe_group fuel' limit (move e) e ifs skip [] [0; 0; 0; 0] with
      | None => None
      | Some (e', ifs', pgn_ofs, results) =>
          let json_moves' :=
            json_moves ++ [mkMoveInfo (move e) (weight e) results pgn_ofs] in
          if key_ =? key e'
          then probe_moves fuel' limit skip key_ e' ifs' json_moves'
          else Some json_moves'
      end
  end.

(** [None]: the call does not return to its caller.  Either
    [pgn_ofs.reserve(limit)] throws, [limit] being above the [max_size()]
    of a vector of [uint64_t], or the fuel is exhausted: the loops of the
    source do not end when the record read at the end of the file ([get]
    answering [EOF]) repeats the move or the key they are waiting to see
    change. *)
Definition probe_key (json_moves : list MoveInfo) (file : option (list Z))
           (ofs limit skip : nat) : option (list MoveInfo) :=
  match file with
  | None => Some json_moves
  | Some bytes =>
      let (e, ifs) := read_entry (skipn ofs bytes) in
      if reserve_ok 8 (Z.of_nat limit)
      then probe_moves (2 + length bytes) limit skip (key e) e ifs json_moves
      else None
  end.

(** What the specification asks of the probe: the records of the run of
    the probed key only, grouped by move. *)

Fixpoint read_entries (n : nat) (ifs : ifstream) : Keys :=
  match n with
  | O => []
  | S k => let (e, ifs') := read_entry ifs in e :: read_entries k ifs'
  end.

(** The records of the file from [ofs] on, as long as their key is the
    key of the first. *)
Fixpoint take_key (k : Z) (l : Keys) : Keys :=
  match l with
  | [] => []
  | e :: rest => if key e =? k then e :: take_key k rest else []
  end.

Definition key_run (bytes : list Z) (ofs : nat) : Keys :=
  match read_entries ((length bytes - ofs) / SizeOfPolyEntry) (skipn ofs bytes) with
  | [] => []
  | e :: rest => e :: take_key (key e) rest
  end.

(** The number of games a group reports: the sum of the four counters. *)
Definition j_games (m : MoveInfo) : Z := fold_right Z.add 0 (j_results m).

(** ** A scripted engine

    A small engine to run the parser on: a position is the list of the
    moves made so far, latest first; a token that starts with [x] is
    refused, one that starts with [-] is the null move, any other token is
    the move numbered by its first two characters. *)

Definition char_code (c : ascii) : Z := Z.of_nat (nat_of_ascii c).

Definition script_san (p : list Z) (cur : list ascii) (fixed : Z) : Z * Z :=
  match cur with
  | [] => (0, fixed)
  | c :: rest =>
      if Ascii.eqb c "x" then (0, fixed)
      else if Ascii.eqb c "-" then (65, fixed)
      else (char_code c * 64 + char_code (hd NUL rest) mod 64, fixed)
  end.

Definition script_key (p : list Z) : Z :=
  uint64 (fold_right (fun m acc => acc * 31 + m + 1) 7 p).

Definition script_engine : Engine := {|
  Position := list Z;
  RootPos := [];
  pos_set := fun fen => [char_code (hd NUL fen)];
  san_to_move := script_san;
  do_move := fun p m => m :: p;
  do_null_move := fun p => 65 :: p;
  pos_key := script_key;
  side_to_move := fun p => if Nat.even (length p) then WHITE else BLACK;
  MOVE_NONE := 0;
  MOVE_NULL := 65;
  type_of := fun m => Z.land m 0xC000;
  PROMOTION := 0x4000;
  promotion_type := fun m => Z.land (Z.shiftr m 12) 3 + 2
|}.

(** ** What the replayer is asked to do

    The specification's reading of a replay, as relations over the engine.
    [replayed p steps]: starting in position [p] the engine decodes, one
    after the other, the moves of [steps], each in the position recorded
    with it, and every position follows from the one before by making the
    move decoded there (null moves in between leave no step). *)

Inductive replayed {E : Engine} : Position -> list (Position * Z) -> Prop :=
  | replayed_stop (p : Position) : replayed p []
  | replayed_null (p : Position) (cur : list ascii) (fx fx' : Z)
                  (steps : list (Position * Z)) :
      san_to_move p cur fx = (MOVE_NULL, fx') ->
      MOVE_NULL <> MOVE_NONE ->
      replayed (do_null_move p) steps ->
      replayed p steps
  | replayed_move (p : Position) (cur : list ascii) (fx fx' m : Z)
                  (steps : list (Position * Z)) :
      san_to_move p cur fx = (m, fx') ->
      m <> MOVE_NONE -> m <> MOVE_NULL ->
      replayed (do_move p m) steps ->
      replayed p ((p, m) :: steps).

(** The record of a step: the key of the position the move was decoded
    in, the move in Polyglot encoding, weight 1. *)
Definition record_of {E : Engine} (learn_ : Z) (pm : Position * Z) : PolyEntry :=
  mkPolyEntry (pos_key (fst pm)) (to_polyglot (snd pm)) 1 learn_.

(** [accepts learn_ pos cur fx recs pos' cur' fx']: from the position
    [pos] with the cursor at [cur], the engine accepts a run of tokens and
    the replayer, having appended the records [recs] for them, stands in
    [pos'] with the cursor at [cur']. *)
Inductive accepts {E : Engine} (learn_ : Z)
  : Position -> list ascii -> Z -> Keys -> Position -> list ascii -> Z -> Prop :=
  | accepts_none (pos : Position) (cur : list ascii) (fx : Z) :
      accepts learn_ pos cur fx [] pos cur fx
  | accepts_null (pos : Position) (cur : list ascii) (fx fx1 : Z) (recs : Keys)
                 (pos' : Position) (cur' : list ascii) (fx' : Z) :
      cur <> [] ->
      san_to_move pos cur fx = (MOVE_NULL, fx1) ->
      MOVE_NULL <> MOVE_NONE ->
      accepts learn_ (do_null_move pos) (next_token cur) fx1 recs pos' cur' fx' ->
      accepts learn_ pos cur fx recs pos' cur' fx'
  | accepts_move (pos : Position) (cur : list ascii) (fx fx1 mv : Z) (recs : Keys)
                 (pos' : Position) (cur' : list ascii) (fx' : Z) :
      cur <> [] ->
      san_to_move pos cur fx = (mv, fx1) ->
      mv <> MOVE_NONE -> mv <> MOVE_NULL ->
      accepts learn_ (do_move pos mv) (next_token cur) fx1 recs pos' cur' fx' ->
      accepts learn_ pos cur fx (record_of learn_ (pos, mv) :: recs) pos' cur' fx'.

(** ** The order of the book

    The specification's words for the order of the records once the
    table is post-processed. *)

(** [a] may stand before [b] within a key: larger weight first, and of
    two equal weights the larger move first. *)
Definition freq_ge (a b : PolyEntry) : Prop :=
  weight a > weight b \/ (weight a = weight b /\ move a >= move b).

(** Key ascending, then weight descending, then move descending. *)
Definition book_le (a b : PolyEntry) : Prop :=
  key a < key b \/ (key a = key b /\ freq_ge a b).

(** The records at [start], ..., [start + len - 1] are a maximal run of
    equal key; [ks] is the list of the keys of the table. *)
Definition is_run (ks : list Z) (start len : nat) : Prop :=
  (1 <= len)%nat /\ (start + len <= length ks)%nat
  /\ (forall i, (start <= i < start + len)%nat -> nth i ks 0 = nth start ks 0)
  /\ (start = O \/ nth (start - 1) ks 0 <> nth start ks 0)
  /\ ((start + len)%nat = length ks \/ nth (start + len) ks 0 <> nth start ks 0).

(** The number of records of [l] that carry the move [m]. *)
Definition count_move (m : Z) (l : Keys) : Z :=
  Z.of_nat (length (filter (fun e => move e =? m) l)).

(** The invariant of the loop of [post_process] at the head of a turn:
    [t0] is the sorted table the loop started from, [t] the table now.
    The keys stand where they stood; the records from [last] up to [idx]
    share a key and the run starts at [last]; the runs that end at or
    before [last] are in their final order; nothing from [last] on was
    touched. *)
Definition reweight_inv (t0 t : Keys) (idx last : nat) : Prop :=
  let ks := List.map key t0 in
  List.map key t = ks
  /\ (last < idx)%nat
  /\ (forall i, (last <= i < idx)%nat -> (i < length ks)%nat ->
                nth i ks 0 = nth last ks 0)
  /\ (last = O \/ nth (last - 1) ks 0 <> nth last ks 0)
  /\ (forall start len, is_run ks start len -> (3 <= len)%nat ->
         (start + len <= last)%nat ->
         StronglySorted freq_ge (slice start (start + len) t))
  /\ (forall start len, is_run ks start len -> (len <= 2)%nat ->
         (start + len <= last)%nat ->
         slice start (start + len) t = slice start (start + len) t0)
  /\ skipn last t = skipn last t0.

(** ** Invariants and measures of the parser loop *)

(** The states that are entered by pushing the state they return to. *)
Definition nested (st : State) : bool :=
  match st with
  | TAG | FEN_TAG | BRACE_COMMENT | VARIATION | NUMERIC_ANNOTATION_GLYPH => true
  | _ => false
  end.

(** Every nested state has the state it returns to on the stack, and so
    on down the stack. *)
Fixpoint stack_ok (st : State) (stk : list State) : Prop :=
  match stk with
  | [] => nested st = false
  | top :: rest => nested st = false \/ stack_ok top rest
  end.

(** A result has been read only while the parser is in [RESULT], and
    [RESULT] is never pushed. *)
Definition result_unknown (s : PState) : Prop :=
  (state s = RESULT \/ result s = 3) /\ ~ In RESULT (stateStack s).

(** The measure that decreases with every turn of the loop: three for
    each byte still ahead, and a correction for the one turn that steps
    back ([GAME_START], from [SKIP_GAME] to the bracket of [[Event ]). *)
Definition parse_measure (pgn : list ascii) (s : PState) : Z :=
  3 * (eof pgn - data s)
  + (if State_eqb (state s) SKIP_GAME then 4
     else if State_eqb (state s) HEADER && match_at pgn (data s) lit_Event then 0
     else 2).

(** No [[Event ] literal starts at any of the [k] offsets from [d] on. *)
Fixpoint no_event (pgn : list ascii) (d : Z) (k : nat) : bool :=
  match k with
  | O => true
  | S k' => negb (match_at pgn d lit_Event) && no_event pgn (d + 1) k'
  end.

(** ** Sample files for the scripted engine *)

Definition tag (name value : string) : list ascii :=
  lit "[" ++ lit name ++ lit " " ++ [DQUOTE] ++ lit value ++ [DQUOTE] ++ lit "]" ++ [LF].

(** One game, the file ending right after the result. *)
Definition pgn_no_newline : list ascii :=
  tag "Event" "t" ++ [LF] ++ lit "1. e4 e5 1-0".

(** A Chess960 game followed by a standard one. *)
Definition pgn_variant : list ascii :=
  tag "Event" "t" ++ tag "Variant" "Chess960" ++ [LF] ++ lit "1. e4 e5 1-0" ++ [LF]
  ++ tag "Event" "u" ++ [LF] ++ lit "1. d4 *" ++ [LF].

(** A Chess960 game whose [Variant] tag stands before its [Event] tag. *)
Definition pgn_variant_first : list ascii :=
  tag "Variant" "Chess960" ++ tag "Event" "t" ++ [LF] ++ lit "1. e4 e5 1-0" ++ [LF].

(** A Chess960 game whose [Event] value holds brackets and digits: the
    [Variant] tag is met in the move text. *)
Definition pgn_variant_in_move_text : list ascii :=
  tag "Event" "Foo [rapid] 2020" ++ tag "Variant" "Chess960" ++ [LF]
  ++ lit "1. e4 e5 1-0" ++ [LF].

(** The end-to-end scenarios of the specification. *)
Definition pgn_one_game : list ascii :=
  tag "Event" "t" ++ [LF] ++ lit "1. e4 e5 2. Nf3 Nc6 1-0" ++ [LF].

Definition pgn_black_to_move : list ascii :=
  tag "Event" "t"
  ++ tag "FEN" "rnbqkbnr/pppppppp/8/8/8/8/PPPPPPPP/RNBQKBNR b KQkq - 0 1"
  ++ [LF] ++ lit "1... e5 2. Nf3 1/2-1/2" ++ [LF].

Definition pgn_unclosed_brace : list ascii :=
  tag "Event" "t" ++ [LF] ++ lit "1. e4 { unclosed comment " ++ [LF]
  ++ tag "Event" "u" ++ [LF] ++ lit "1. d4 *" ++ [LF].

Definition pgn_variation : list ascii :=
  tag "Event" "t" ++ [LF] ++ lit "1. e4 e5 2. Nf3 (2. Nc3 Nc6) Nc6 1-0" ++ [LF].

(** Games, moves, number of records and the results of the records. *)
Definition summary {E : Engine} (pgn : list ascii) : option (Z * Z * nat * list Z) :=
  match parse_pgn pgn [] with
  | None => None
  | Some (st, table, _) =>
      Some (games st, moves_ st, length table,
            List.map (fun e => Z.shiftr (learn e) 30) table)
  end.

(** Three games that open with the same move. *)
Definition pgn_three_games : list ascii :=
  tag "Event" "a" ++ [LF] ++ lit "1. e4 *" ++ [LF]
  ++ tag "Event" "b" ++ [LF] ++ lit "1. e4 *" ++ [LF]
  ++ tag "Event" "c" ++ [LF] ++ lit "1. e4 *" ++ [LF].

(** Two games with the same two moves; in the book the only move of the
    first key is also the first move of the second key. *)
Definition pgn_two_keys : list ascii :=
  tag "Event" "a" ++ [LF] ++ lit "1. e4 e4 1-0" ++ [LF]
  ++ tag "Event" "b" ++ [LF] ++ lit "1. e4 e4 0-1" ++ [LF].

(** The book [make_book] writes for a file. *)
Definition book_of {E : Engine} (pgn : list ascii) (full : bool) : option (list Z) :=
  match make_book pgn full with
  | None => None
  | Some (book, _, _) => Some book
  end.

(** ** Values of byte strings *)

(** The number a string of bytes spells, most significant byte first. *)
Definition be_value (bytes : list Z) : Z :=
  fold_left (fun acc b => acc * 256 + b) bytes 0.

(** A record without its weight, the one field the post-processing
    rewrites. *)
Definition strip_weight (e : PolyEntry) : Z * Z * Z := (key e, move e, learn e).

(** The number of places where a list of keys changes from one element
    to the next. *)
Fixpoint key_changes (ks : list Z) : nat :=
  match ks with
  | [] => O
  | a :: rest =>
      match rest with
      | [] => O
      | b :: _ => (if a =? b then O else 1%nat) + key_changes rest
      end
  end.

(** The number of different keys in a table. *)
Definition distinct_keys (t : Keys) : nat :=
  length (nodup Z.eq_dec (List.map key t)).

(** ** [error]

    [error(state, data)] looks the state up by comparing [state] with the
    rows [ToStep[i]], [i] from 0 to [STATE_NB - 1], and prints
    [stateDesc[i]] with the fifty bytes at [data].  [stateDesc] has eleven
    entries for the twelve states: there is none for [SKIP_GAME], and the
    model answers [None] where the source would index past the vector. *)






(** The move buffer is empty in [HEADER] and [SKIP_GAME], and in every
    state that returns there through the stack. *)
Fixpoint chain_clean (st : State) (stk : list State) (mv : list ascii) : Prop :=
  match stk with
  | [] => (st = HEADER \/ st = SKIP_GAME -> mv = [])
  | top :: rest =>
      (st = HEADER \/ st = SKIP_GAME -> mv = [])
      /\ (nested st = true -> chain_clean top rest mv)
  end.

(** The state at the head of the loop of [parse_pgn] after [n] turns from
    [s], if the loop takes that many. *)
Fixpoint after_turns {E : Engine} (pgn : list ascii) (n : nat) (s : PState)
  : option PState :=
  match n with
  | O => Some s
  | S k => if data s <? eof pgn then after_turns pgn k (step pgn s) else None
  end.


(** A record as [parse_pgn] makes them: the record of a position and a
    move, with a [learn] built from an offset of the file. *)
Definition from_game {E : Engine} (pgn : list ascii) (e : PolyEntry) : Prop :=
  exists g r pm, 0 <= g <= eof pgn /\ e = record_of (learn_of g r) pm.

(** The table grows at its end only, by such records; the cursor and
    [gameOfs] are offsets of the file. *)
Definition table_inv {E : Engine} (pgn : list ascii) (table : Keys) (s : PState)
  : Prop :=
  0 <= data s
  /\ 0 <= gameOfs s <= eof pgn
  /\ exists new, kTable s = table ++ new /\ Forall (from_game pgn) new.

(** The number of tokens the move buffer has closed. *)
Definition nul_count (l : list ascii) : nat := count_occ ascii_dec l NUL.

(** No byte of the file is zero. *)
Definition no_nul (pgn : list ascii) : bool :=
  forallb (fun c => negb (Ascii.eqb c NUL)) pgn.

(** How far the counters are ahead of the table: the moves and games
    counted so far, less the records made and the tokens waiting in the
    buffer. *)
Definition count_slack (s : PState) : Z :=
  moveCnt s + gameCnt s
  - Z.of_nat (length (kTable s)) - Z.of_nat (nul_count (moves s)).

(** ** What the probe is to report for a run

    The records of a run, grouped by move as they stand: a group is a
    maximal stretch of records with one move. *)

Fixpoint group_by_move (l : Keys) : list Keys :=
  match l with
  | [] => []
  | e :: l' =>
      match group_by_move l' with
      | (h :: g) :: gs =>
          if move h =? move e then (e :: h :: g) :: gs
          else [e] :: (h :: g) :: gs
      | _ => [[e]]
      end
  end.

(** [(e.learn >> 30) & 3], the result a record was made with. *)
Definition bucket (e : PolyEntry) : nat :=
  Z.to_nat (Z.land (Z.shiftr (learn e) 30) 3).

Definition bucket_count (i : nat) (g : Keys) : Z :=
  Z.of_nat (length (filter (fun e => (bucket e =? i)%nat) g)).

(** The report on a group: the move and the weight of its first record,
    the number of its records for each result, and the offsets of at most
    [limit] of its records after the first [skip]. *)
Definition group_info (limit skip : nat) (g : Keys) : MoveInfo :=
  mkMoveInfo (move (hd PolyEntry_zero g)) (weight (hd PolyEntry_zero g))
             (List.map (fun i => bucket_count i g) [0; 1; 2; 3]%nat)
             (List.map (fun e => decode_ofs (learn e))
                       (firstn limit (skipn skip g))).

(** The move of the record that follows the groups [gs]. *)
Definition head_move (gs : list Keys) (stop_move : Z) : Z :=
  match gs with
  | (h :: _) :: _ => move h
  | _ => stop_move
  end.

(** Groups as the inner loop of [probe_key] cuts them: none is empty,
    each has one move, and the record after a group has another. *)
Fixpoint groups_ok (gs : list Keys) (stop_move : Z) : Prop :=
  match gs with
  | [] => True
  | g :: gs' =>
      g <> []
      /\ Forall (fun x => move x = move (hd PolyEntry_zero g)) g
      /\ head_move gs' stop_move <> move (hd PolyEntry_zero g)
      /\ groups_ok gs' stop_move
  end.

(** The record [read_entry] makes of a stream at its end, where every
    [get] answers [EOF]. *)
Definition eof_entry : PolyEntry := fst (read_entry []).

(** ** The name of the book file

    [lastdot = bookName.find_last_of(".")]: the index of the last dot,
    [None] for [npos]. *)
Fixpoint find_last_of (c : ascii) (s : list ascii) : option nat :=
  match s with
  | [] => None
  | x :: rest =>
      match find_last_of c rest with
      | Some i => Some (S i)
      | None => if Ascii.eqb x c then Some O else None
      end
  end.

(** [if (lastdot != npos) bookName = bookName.substr(0, lastdot);
     bookName += ".bin";] *)
Definition book_file_name (bookName : list ascii) : list ascii :=
  match find_last_of "." bookName with
  | Some lastdot => firstn lastdot bookName
  | None => bookName
  end ++ lit ".bin".

(** The name has no dot. *)
Definition no_dot (s : list ascii) : bool :=
  negb (existsb (fun x => Ascii.eqb x ".") s).

(** * Properties *)

(** ** Fixed-width integers *)

Lemma wrap_range (w n : Z) : 0 <= w -> 0 <= wrap w n < 2 ^ w.
Proof.
  intros Hw. unfold wrap. apply Z.mod_pos_bound. apply Z.pow_pos_nonneg; lia.
Qed.

Lemma wrap_small (w n : Z) : 0 <= n < 2 ^ w -> wrap w n = n.
Proof. intros H. unfold wrap. apply Z.mod_small. exact H. Qed.

Lemma wrap_absorb (w x c y : Z) :
  wrap w (wrap w x * c + y) = wrap w (x * c + y).
Proof.
  unfold wrap.
  destruct (Z.eq_dec (2 ^ w) 0) as [H0|H0].
  - rewrite H0. rewrite !Z.mod_0_r. reflexivity.
  - rewrite <- (Z.add_mod_idemp_l (x mod 2 ^ w * c)) by exact H0.
    rewrite Z.mul_mod_idemp_l by exact H0.
    rewrite Z.add_mod_idemp_l by exact H0. reflexivity.
Qed.

Lemma write_length (sz : nat) (n : Z) : length (write sz n) = sz.
Proof. induction sz as [|k IH]; simpl; [reflexivity | now rewrite IH]. Qed.

Lemma low_bytes_split (n : Z) (k : nat) :
  uint8 (Z.shiftr n (8 * Z.of_nat k)) * 2 ^ (8 * Z.of_nat k) + n mod 2 ^ (8 * Z.of_nat k)
  = n mod 2 ^ (8 * Z.of_nat (S k)).
Proof.
  unfold uint8, wrap.
  rewrite Z.shiftr_div_pow2 by lia.
  replace (8 * Z.of_nat (S k)) with (8 * Z.of_nat k + 8) by lia.
  rewrite Z.pow_add_r by lia.
  assert (Hp : 0 < 2 ^ (8 * Z.of_nat k)) by (apply Z.pow_pos_nonneg; lia).
  rewrite Z.rem_mul_r by lia. lia.
Qed.

Lemma read_loop_write (w : Z) (k : nat) (n acc : Z) (rest : ifstream) :
  0 <= w -> 0 <= acc < 2 ^ w ->
  read_loop w k acc (write k n ++ rest)
  = (wrap w (acc * 2 ^ (8 * Z.of_nat k) + n mod 2 ^ (8 * Z.of_nat k)), rest).
Proof.
  intros Hw. revert acc. induction k as [|k IH]; intros acc Hacc.
  - simpl. rewrite Z.mod_1_r. f_equal. rewrite wrap_small; lia.
  - cbn [write read_loop app get].
    rewrite IH by (apply wrap_range; exact Hw).
    f_equal. rewrite wrap_absorb. f_equal.
    rewrite <- low_bytes_split.
    rewrite Z.shiftl_mul_pow2 by lia.
    replace (8 * Z.of_nat (S k)) with (8 * Z.of_nat k + 8) by lia.
    rewrite Z.pow_add_r by lia. ring.
Qed.

Lemma read_int_write (sz : nat) (n : Z) (rest : ifstream) :
  read_int sz (write sz n ++ rest) = (wrap (8 * Z.of_nat sz) n, rest).
Proof.
  unfold read_int. rewrite read_loop_write.
  - f_equal. unfold wrap. rewrite Z.mul_0_l, Z.add_0_l. apply Z.mod_mod.
    apply Z.pow_nonzero; lia.
  - lia.
  - split; [lia | apply Z.pow_pos_nonneg; lia].
Qed.

Lemma write_entry_length (e : PolyEntry) : length (write_entry e) = SizeOfPolyEntry.
Proof. unfold write_entry. rewrite !length_app, !write_length. reflexivity. Qed.

Lemma read_write_entry (e : PolyEntry) (rest : ifstream) :
  wf_entry e -> read_entry (write_entry e ++ rest) = (e, rest).
Proof.
  intros (Hk & Hm & Hw & Hl). unfold read_entry, write_entry.
  rewrite <- !app_assoc.
  rewrite read_int_write, read_int_write, read_int_write, read_int_write.
  rewrite !wrap_small by (simpl; lia).
  destruct e; reflexivity.
Qed.

(** ** [write_poly_file] *)

Lemma write_poly_loop_app (full : bool) (t : Keys) (prev : PolyEntry) (ofs : list Z) :
  write_poly_loop full prev t ofs = ofs ++ write_poly_loop full prev t [].
Proof.
  revert prev ofs. induction t as [|e rest IH]; intros prev ofs;
    cbn [write_poly_loop].
  - now rewrite app_nil_r.
  - destruct (negb (key e =? key prev) || negb (move e =? move prev) || full).
    + rewrite (IH e (ofs ++ _)), (IH e ([] ++ _)).
      now rewrite app_assoc.
    + apply IH.
Qed.

Lemma firstn_write_entry (e : PolyEntry) :
  firstn SizeOfPolyEntry (write_entry e) = write_entry e.
Proof. apply firstn_all2. rewrite write_entry_length. apply Nat.le_refl. Qed.

Lemma survivors_ext (p q : PolyEntry) (l : Keys) :
  key p = key q -> move p = move q -> survivors p l = survivors q l.
Proof.
  intros Hk Hm. destruct l as [|e rest]; simpl; [reflexivity|].
  unfold same_key_move. now rewrite Hk, Hm.
Qed.

Lemma serialise_cons (e : PolyEntry) (l : Keys) :
  serialise (e :: l) = write_entry e ++ serialise l.
Proof. reflexivity. Qed.

Lemma write_poly_loop_dedup (t : Keys) (prev : PolyEntry) :
  write_poly_loop false prev t [] = serialise (survivors prev t).
Proof.
  revert prev. induction t as [|e rest IH]; intros prev;
    cbn [write_poly_loop survivors]; [reflexivity|].
  rewrite orb_false_r. unfold same_key_move at 1.
  rewrite (Z.eqb_sym (key prev)), (Z.eqb_sym (move prev)).
  destruct (key e =? key prev) eqn:Hk; destruct (move e =? move prev) eqn:Hm;
    cbn [negb orb andb].
  - rewrite IH. f_equal. apply survivors_ext; symmetry; now apply Z.eqb_eq.
  - now rewrite write_poly_loop_app, IH, firstn_write_entry, serialise_cons.
  - now rewrite write_poly_loop_app, IH, firstn_write_entry, serialise_cons.
  - now rewrite write_poly_loop_app, IH, firstn_write_entry, serialise_cons.
Qed.

Lemma write_poly_loop_full (t : Keys) (prev : PolyEntry) :
  write_poly_loop true prev t [] = serialise t.
Proof.
  revert prev. induction t as [|e rest IH]; intros prev;
    cbn [write_poly_loop]; [reflexivity|].
  rewrite !orb_true_r.
  now rewrite write_poly_loop_app, IH, firstn_write_entry, serialise_cons.
Qed.

Lemma serialise_length (l : Keys) :
  length (serialise l) = (SizeOfPolyEntry * length l)%nat.
Proof.
  induction l as [|e rest IH]; [reflexivity|].
  rewrite serialise_cons, length_app, IH, write_entry_length.
  unfold SizeOfPolyEntry. cbn [length]. lia.
Qed.

(** C4, as the code has it: without [full] an entry is written when its
    (key, move) differs from that of the entry before it, the first entry
    being compared with a zero-initialised dummy; for a table that does
    not start with key 0 and move 0 this collapses every group of
    consecutive entries with identical (key, move) to its first entry.
    With [full] every entry is written.  Each written entry is a block of
    16 bytes, most significant byte first, which [read_entry] reads back. *)
Theorem write_poly_file_dedup (kTable : Keys) :
  fst (write_poly_file kTable false) = serialise (survivors PolyEntry_zero kTable)
  /\ ((forall e, hd_error kTable = Some e -> key e <> 0 \/ move e <> 0) ->
      fst (write_poly_file kTable false) = serialise (collapse kTable))
  /\ fst (write_poly_file kTable true) = serialise kTable
  /\ (forall e rest, length (write_entry e) = 16%nat
        /\ (wf_entry e -> read_entry (write_entry e ++ rest) = (e, rest))).
Proof.
  unfold write_poly_file. cbn [fst]. split; [|split; [|split]].
  - apply write_poly_loop_dedup.
  - intros H. rewrite write_poly_loop_dedup.
    destruct kTable as [|e rest]; [reflexivity|].
    cbn [survivors collapse].
    replace (same_key_move PolyEntry_zero e) with false; [reflexivity|].
    symmetry. unfold same_key_move, PolyEntry_zero. cbn [key move].
    apply andb_false_iff.
    destruct (H e eq_refl) as [Hk|Hm]; [left|right]; apply Z.eqb_neq; lia.
  - apply write_poly_loop_full.
  - intros e rest. split.
    + apply write_entry_length.
    + apply read_write_entry.
Qed.

Lemma write_poly_file_dedup_witness :
  let t := [mkPolyEntry 5 9 1 0; mkPolyEntry 5 9 1 8; mkPolyEntry 6 9 1 0] in
  (forall e, hd_error t = Some e -> key e <> 0 \/ move e <> 0)
  /\ fst (write_poly_file t false)
     = serialise [mkPolyEntry 5 9 1 0; mkPolyEntry 6 9 1 0].
Proof.
  assert (H : forall e,
             hd_error [mkPolyEntry 5 9 1 0; mkPolyEntry 5 9 1 8; mkPolyEntry 6 9 1 0]
             = Some e -> key e <> 0 \/ move e <> 0).
  { intros e He. injection He as <-. left. discriminate. }
  split; [exact H|].
  exact (proj1 (proj2 (write_poly_file_dedup
           [mkPolyEntry 5 9 1 0; mkPolyEntry 5 9 1 8; mkPolyEntry 6 9 1 0])) H).
Defined.

(** C4 as stated fails: a table that starts with key 0 and move 0 loses
    its first group altogether, because that group compares equal to the
    zero-initialised dummy. *)
Lemma write_poly_file_drops_zero_group :
  write_poly_file [mkPolyEntry 0 0 1 8] false = ([], 0)
  /\ fst (write_poly_file [mkPolyEntry 0 0 1 8] false)
     <> serialise (collapse [mkPolyEntry 0 0 1 8]).
Proof. split; [reflexivity | discriminate]. Qed.

(** ** [get_result] *)

(** C7: [get_result] follows the table of the specification: 2 on a
    slash, 3 on an asterisk, 1 on a zero, on a minus 0 after a one and 1
    after a zero (a space may stand in between), 3 otherwise. *)
Theorem get_result_table (pgn : list ascii) (d : Z) :
  get_result pgn d
  = result_of_token (byte_at pgn d) (byte_at pgn (d - 1)) (byte_at pgn (d - 2)).
Proof.
  unfold get_result, result_of_token.
  destruct (Ascii.eqb (byte_at pgn d) "/") eqn:Hs; [reflexivity|].
  destruct (Ascii.eqb (byte_at pgn d) "*") eqn:Ha.
  - apply Ascii.eqb_eq in Ha. rewrite Ha. reflexivity.
  - destruct (Ascii.eqb (byte_at pgn d) "0"); [reflexivity|].
    destruct (Ascii.eqb (byte_at pgn d) "-"); [|reflexivity].
    destruct (Ascii.eqb (byte_at pgn (d - 1)) "1") eqn:H1; [reflexivity|].
    destruct (Ascii.eqb (byte_at pgn (d - 1)) " ") eqn:Hsp;
      destruct (Ascii.eqb (byte_at pgn (d - 1)) "0") eqn:H0;
      destruct (Ascii.eqb (byte_at pgn (d - 2)) "1");
      destruct (Ascii.eqb (byte_at pgn (d - 2)) "0");
      try reflexivity.
Qed.

(** ** [parse_game] *)

Lemma learn_of_eq {E : Engine} (gameOfs result : Z) :
  learn_of gameOfs result
  = Z.lor (Z.shiftl (Z.land result 3) 30) (Z.land (Z.shiftr gameOfs 3) 0x3FFFFFFF)
  /\ 0 <= learn_of gameOfs result < 2 ^ 32.
Proof.
  unfold learn_of, uint32.
  assert (Hr : Z.land (wrap 32 result) 3 = Z.land result 3).
  { change 3 with (Z.ones 2). rewrite !Z.land_ones by lia. unfold wrap.
    apply Z.mod_mod_divide. exists (2 ^ 30). reflexivity. }
  rewrite Hr.
  assert (Ha : 0 <= Z.land result 3 < 4).
  { change 3 with (Z.ones 2). rewrite Z.land_ones by lia. apply Z.mod_pos_bound. lia. }
  assert (Hb : 0 <= Z.land (Z.shiftr gameOfs 3) 0x3FFFFFFF < 2 ^ 30).
  { change 0x3FFFFFFF with (Z.ones 30). rewrite Z.land_ones by lia.
    apply Z.mod_pos_bound. lia. }
  assert (Hs : 0 <= Z.shiftl (Z.land result 3) 30 < 2 ^ 32).
  { rewrite Z.shiftl_mul_pow2 by lia. lia. }
  rewrite (wrap_small 32 (Z.shiftl _ _)) by exact Hs.
  assert (Hl : 0 <= Z.lor (Z.shiftl (Z.land result 3) 30)
                     (Z.land (Z.shiftr gameOfs 3) 0x3FFFFFFF) < 2 ^ 32).
  { split; [apply Z.lor_nonneg; lia|].
    set (a := Z.shiftl _ _) in *. set (b := Z.land (Z.shiftr _ _) _) in *.
    destruct (Z.eq_dec (Z.lor a b) 0) as [H0|H0]; [rewrite H0; lia|].
    apply Z.log2_lt_pow2; [assert (0 <= Z.lor a b) by (apply Z.lor_nonneg; lia); lia|].
    rewrite Z.log2_lor by lia.
    apply Z.max_lub_lt.
    - destruct (Z.eq_dec a 0) as [->|]; [reflexivity|]. apply Z.log2_lt_pow2; lia.
    - destruct (Z.eq_dec b 0) as [->|]; [reflexivity|]. apply Z.log2_lt_pow2; lia. }
  rewrite wrap_small by exact Hl. split; [reflexivity | exact Hl].
Qed.

Section ReplayFacts.
Context {E : Engine}.

Lemma next_token_length (c : ascii) (rest : list ascii) :
  (length (next_token (c :: rest)) <= length rest)%nat.
Proof.
  assert (H : forall l, (length (next_token l) <= Nat.pred (length l))%nat).
  { induction l as [|c' l IH]; [apply Nat.le_refl|].
    cbn [next_token length Nat.pred].
    destruct (Ascii.eqb c' NUL); [apply Nat.le_refl | lia]. }
  apply (H (c :: rest)).
Qed.

(** The loop of [parse_game] ends: fuel beyond the length of what is
    left of the buffer is never used up. *)
Lemma parse_game_loop_total (fuel : nat) (DryRun : bool) (learn_ : Z) (len : nat)
      (pos : Position) (cur : list ascii) (kTable : Keys) (fixed : Z) :
  (length cur < fuel)%nat ->
  exists g, parse_game_loop fuel DryRun learn_ len pos cur kTable fixed = Some g.
Proof.
  revert pos cur kTable fixed.
  induction fuel as [|fuel IH]; intros pos cur kTable fixed Hlen; [lia|].
  cbn [parse_game_loop].
  destruct cur as [|c rest]; [eexists; reflexivity|].
  destruct (san_to_move pos (c :: rest) fixed) as [mv fixed'].
  destruct (mv =? MOVE_NONE); [eexists; reflexivity|].
  pose proof (next_token_length c rest) as Hn. cbn [length] in Hlen.
  destruct (mv =? MOVE_NULL); apply IH; lia.
Qed.

(** What a finished loop has appended: the records of the steps of a
    replay that starts in [pos]; nothing in a dry run. *)
Lemma parse_game_loop_records (fuel : nat) (DryRun : bool) (learn_ : Z) (len : nat)
      (pos : Position) (cur : list ascii) (kTable : Keys) (fixed : Z)
      (g : GameResult) :
  parse_game_loop fuel DryRun learn_ len pos cur kTable fixed = Some g ->
  exists steps,
    replayed pos steps
    /\ g_table g
       = kTable ++ (if DryRun then [] else List.map (record_of learn_) steps).
Proof.
  revert pos cur kTable fixed.
  induction fuel as [|fuel IH]; intros pos cur kTable fixed Hg; [discriminate|].
  cbn [parse_game_loop] in Hg.
  destruct cur as [|c rest].
  { injection Hg as <-. exists []. split; [constructor|].
    cbn [g_table]. destruct DryRun; now rewrite app_nil_r. }
  destruct (san_to_move pos (c :: rest) fixed) as [mv fixed'] eqn:Hsan.
  destruct (mv =? MOVE_NONE) eqn:Hnone.
  { injection Hg as <-. exists []. split; [constructor|].
    cbn [g_table]. destruct DryRun; now rewrite app_nil_r. }
  apply Z.eqb_neq in Hnone.
  destruct (mv =? MOVE_NULL) eqn:Hnull.
  - apply Z.eqb_eq in Hnull. subst mv.
    destruct (IH _ _ _ _ Hg) as (steps & Hrep & Htab).
    exists steps. split; [|exact Htab].
    eapply replayed_null; eauto.
  - apply Z.eqb_neq in Hnull.
    destruct (IH _ _ _ _ Hg) as (steps & Hrep & Htab).
    exists ((pos, mv) :: steps). split.
    + eapply replayed_move; eauto.
    + rewrite Htab. destruct DryRun; [reflexivity|].
      rewrite <- app_assoc. reflexivity.
Qed.

Lemma parse_game_run (DryRun : bool) (moves : list ascii) (kTable : Keys)
      (fen : list ascii) (fixed gameOfs result : Z) :
  parse_game_loop (S (length moves)) DryRun (learn_of gameOfs result)
                  (length moves) (start_position fen) moves kTable fixed
  = Some (parse_game DryRun moves kTable fen fixed gameOfs result).
Proof.
  unfold parse_game.
  destruct (parse_game_loop_total (S (length moves)) DryRun
              (learn_of gameOfs result) (length moves) (start_position fen)
              moves kTable fixed (Nat.lt_succ_diag_r _)) as [g Hg].
  now rewrite Hg.
Qed.

(** C5: the records [parse_game] appends are those of a replay from the
    starting position: each carries the key of the position the engine
    decoded its move in, that is the position before the move is made
    (the next step starts from [do_move] of it), and weight 1. *)
Theorem parse_game_keys (moves : list ascii) (kTable : Keys) (fen : list ascii)
        (fixed gameOfs result : Z) :
  exists steps,
    replayed (start_position fen) steps
    /\ g_table (parse_game false moves kTable fen fixed gameOfs result)
       = kTable ++ List.map (fun pm => mkPolyEntry (pos_key (fst pm))
                                        (to_polyglot (snd pm)) 1
                                        (learn_of gameOfs result)) steps
    /\ Forall (fun e => weight e = 1)
              (skipn (length kTable)
                 (g_table (parse_game false moves kTable fen fixed gameOfs result))).
Proof.
  destruct (parse_game_loop_records _ _ _ _ _ _ _ _ _
              (parse_game_run false moves kTable fen fixed gameOfs result))
    as (steps & Hrep & Htab).
  exists steps. split; [exact Hrep|]. split; [exact Htab|].
  rewrite Htab, skipn_app, skipn_all, Nat.sub_diag. cbn [skipn app].
  apply Forall_forall. intros e He. apply in_map_iff in He.
  destruct He as (pm & <- & _). reflexivity.
Qed.

(** C6: every record [parse_game] appends for a game with result [r] and
    offset [gameOfs] carries the same [learn], the result in the two top
    bits over the offset divided by 8 in the low 30. *)
Theorem parse_game_learn (DryRun : bool) (moves : list ascii) (kTable : Keys)
        (fen : list ascii) (fixed gameOfs r : Z) :
  exists recs,
    g_table (parse_game DryRun moves kTable fen fixed gameOfs r) = kTable ++ recs
    /\ Forall (fun e =>
                 learn e = Z.lor (Z.shiftl (Z.land r 3) 30)
                                 (Z.land (Z.shiftr gameOfs 3) 0x3FFFFFFF)
                 /\ 0 <= Z.shiftr (learn e) 30 <= 3) recs.
Proof.
  destruct (parse_game_loop_records _ _ _ _ _ _ _ _ _
              (parse_game_run DryRun moves kTable fen fixed gameOfs r))
    as (steps & _ & Htab).
  eexists. split; [exact Htab|].
  destruct DryRun; [constructor|].
  apply Forall_forall. intros e He. apply in_map_iff in He.
  destruct He as (pm & <- & _). cbn [record_of learn].
  destruct (learn_of_eq gameOfs r) as [Heq Hrange].
  split; [exact Heq|].
  rewrite Z.shiftr_div_pow2 by lia.
  split; [apply Z.div_pos; lia|].
  assert (learn_of gameOfs r / 2 ^ 30 < 4); [|lia].
  apply Z.div_lt_upper_bound; lia.
Qed.

Lemma parse_game_loop_rejects (learn_ : Z) (len : nat) (pos : Position)
      (cur : list ascii) (fx : Z) (recs : Keys) (pos' : Position)
      (cur' : list ascii) (fx' fx'' : Z) :
  accepts learn_ pos cur fx recs pos' cur' fx' ->
  cur' <> [] ->
  san_to_move pos' cur' fx' = (MOVE_NONE, fx'') ->
  forall (fuel : nat) (kTable : Keys),
    (length cur < fuel)%nat ->
    parse_game_loop fuel false learn_ len pos cur kTable fx
    = Some (mkGameResult (len - length cur') (kTable ++ recs) fx''
                         [WrongMove (side_to_move pos') cur']).
Proof.
  intros Hacc Hne Hrej.
  induction Hacc as [pos cur fx
                    | pos cur fx fx1 recs pos' cur' fx' Hcur Hsan Hnn _ IH
                    | pos cur fx fx1 mv recs pos' cur' fx' Hcur Hsan Hnone Hnull _ IH];
    intros fuel kTable Hfuel.
  - destruct fuel as [|fuel]; [lia|]. cbn [parse_game_loop].
    destruct cur as [|c rest]; [contradiction|].
    rewrite Hrej, Z.eqb_refl, app_nil_r. reflexivity.
  - destruct fuel as [|fuel]; [lia|]. cbn [parse_game_loop].
    destruct cur as [|c rest]; [contradiction|].
    rewrite Hsan.
    replace (MOVE_NULL =? MOVE_NONE) with false by (symmetry; now apply Z.eqb_neq).
    rewrite Z.eqb_refl.
    apply IH; [exact Hne | exact Hrej |].
    pose proof (next_token_length c rest). cbn [length] in Hfuel. lia.
  - destruct fuel as [|fuel]; [lia|]. cbn [parse_game_loop].
    destruct cur as [|c rest]; [contradiction|].
    rewrite Hsan.
    replace (mv =? MOVE_NONE) with false by (symmetry; now apply Z.eqb_neq).
    replace (mv =? MOVE_NULL) with false by (symmetry; now apply Z.eqb_neq).
    rewrite IH; [| exact Hne | exact Hrej |].
    + rewrite <- app_assoc. reflexivity.
    + pose proof (next_token_length c rest). cbn [length] in Hfuel. lia.
Qed.

(** C10: when the engine refuses a token after having accepted the ones
    before it, [parse_game] returns at that token with every record it
    appended for the accepted moves still in the table. *)
Theorem san_rejection_keeps_records (moves : list ascii) (kTable : Keys)
        (fen : list ascii) (fixed gameOfs result : Z) (recs : Keys)
        (pos' : Position) (cur' : list ascii) (fx' fx'' : Z) :
  accepts (learn_of gameOfs result) (start_position fen) moves fixed
          recs pos' cur' fx' ->
  cur' <> [] ->
  san_to_move pos' cur' fx' = (MOVE_NONE, fx'') ->
  parse_game false moves kTable fen fixed gameOfs result
  = mkGameResult (length moves - length cur') (kTable ++ recs) fx''
                 [WrongMove (side_to_move pos') cur'].
Proof.
  intros Hacc Hne Hrej.
  pose proof (parse_game_run false moves kTable fen fixed gameOfs result) as Hrun.
  rewrite (parse_game_loop_rejects _ _ _ _ _ _ _ _ _ _ Hacc Hne Hrej) in Hrun
    by apply Nat.lt_succ_diag_r.
  now injection Hrun.
Qed.
End ReplayFacts.

(** A game of the scripted engine whose third token is refused: the two
    records of the moves before it stay in the table. *)
Lemma san_rejection_keeps_records_witness :
  let moves := lit "e4" ++ [NUL] ++ lit "e5" ++ [NUL] ++ lit "xx" ++ [NUL]
               ++ lit "Kf3" ++ [NUL] in
  let cur' := lit "xx" ++ [NUL] ++ lit "Kf3" ++ [NUL] in
  let recs := [record_of (E := script_engine) 0 ([], 6516);
               record_of (E := script_engine) 0 ([6516], 6517)] in
  accepts (E := script_engine) 0 [] moves 0 recs [6517; 6516] cur' 0
  /\ parse_game (E := script_engine) false moves [mkPolyEntry 1 2 3 4] [] 0 0 0
     = mkGameResult 6 (mkPolyEntry 1 2 3 4 :: recs) 0 [WrongMove WHITE cur'].
Proof.
  cbv zeta.
  assert (Hacc : accepts (E := script_engine) 0 [] 
            (lit "e4" ++ [NUL] ++ lit "e5" ++ [NUL] ++ lit "xx" ++ [NUL]
               ++ lit "Kf3" ++ [NUL]) 0
            [record_of (E := script_engine) 0 ([], 6516);
             record_of (E := script_engine) 0 ([6516], 6517)]
            [6517; 6516] (lit "xx" ++ [NUL] ++ lit "Kf3" ++ [NUL]) 0).
  { eapply (accepts_move (E := script_engine) 0 [] _ 0 0 6516);
      [discriminate | reflexivity | discriminate | discriminate |].
    eapply (accepts_move (E := script_engine) 0 [6516] _ 0 0 6517);
      [discriminate | reflexivity | discriminate | discriminate |].
    apply accepts_none. }
  split; [exact Hacc|].
  exact (san_rejection_keeps_records (E := script_engine) _ [mkPolyEntry 1 2 3 4]
           [] 0 0 0 _ _ _ 0 0 Hacc ltac:(discriminate) eq_refl).
Defined.

(** ** [std::sort]: the contract *)

Section StdSortFacts.
Context {A : Type} (lt : A -> A -> bool).

Lemma sort_insert_perm (x : A) (l : list A) :
  Permutation (x :: l) (sort_insert lt x l).
Proof.
  induction l as [|y l IH]; cbn [sort_insert]; [apply Permutation_refl|].
  destruct (lt y x); [|apply Permutation_refl].
  eapply Permutation_trans; [apply perm_swap|]. now apply perm_skip.
Qed.

Lemma std_sort_perm (l : list A) : Permutation l (std_sort lt l).
Proof.
  induction l as [|x l IH]; cbn [std_sort]; [apply Permutation_refl|].
  eapply Permutation_trans; [apply perm_skip, IH | apply sort_insert_perm].
Qed.

Lemma std_sort_length (l : list A) : length (std_sort lt l) = length l.
Proof. symmetry. apply Permutation_length, std_sort_perm. Qed.

(** The comparison is a strict weak ordering, as [std::sort] requires. *)
Hypothesis lt_asym : forall a b, lt a b = true -> lt b a = false.
Hypothesis lt_negtrans :
  forall a b c, lt b a = false -> lt c b = false -> lt c a = false.

Lemma sort_insert_sorted (x : A) (l : list A) :
  StronglySorted (fun a b => lt b a = false) l ->
  StronglySorted (fun a b => lt b a = false) (sort_insert lt x l).
Proof.
  induction l as [|y l IH]; intros Hs; cbn [sort_insert].
  - repeat constructor.
  - inversion Hs as [|? ? Hl Hy]; subst.
    destruct (lt y x) eqn:Hyx.
    + constructor; [now apply IH|].
      eapply Permutation_Forall; [apply sort_insert_perm|].
      constructor; [now apply lt_asym | exact Hy].
    + constructor; [exact Hs|].
      constructor; [exact Hyx|].
      eapply Forall_impl; [|exact Hy].
      intros z Hz. cbn beta in Hz. now apply (lt_negtrans x y z).
Qed.

Lemma std_sort_sorted (l : list A) :
  StronglySorted (fun a b => lt b a = false) (std_sort lt l).
Proof.
  induction l as [|x l IH]; cbn [std_sort]; [constructor|].
  now apply sort_insert_sorted.
Qed.
End StdSortFacts.

Ltac bool_to_Z :=
  repeat match goal with
         | H : _ |- _ =>
             first [ rewrite orb_true_iff in H | rewrite andb_true_iff in H
                   | rewrite orb_false_iff in H | rewrite andb_false_iff in H
                   | rewrite Z.ltb_lt in H | rewrite Z.ltb_ge in H
                   | rewrite Z.eqb_eq in H | rewrite Z.eqb_neq in H ]
         end;
  rewrite ?orb_true_iff, ?andb_true_iff, ?orb_false_iff, ?andb_false_iff,
          ?Z.ltb_lt, ?Z.ltb_ge, ?Z.eqb_eq, ?Z.eqb_neq.

Lemma poly_lt_asym (a b : PolyEntry) : poly_lt a b = true -> poly_lt b a = false.
Proof. unfold poly_lt. intros H. bool_to_Z. lia. Qed.

Lemma poly_lt_negtrans (a b c : PolyEntry) :
  poly_lt b a = false -> poly_lt c b = false -> poly_lt c a = false.
Proof. unfold poly_lt. intros H1 H2. bool_to_Z. lia. Qed.

Lemma freq_lt_asym (a b : PolyEntry) : freq_lt a b = true -> freq_lt b a = false.
Proof. unfold freq_lt. rewrite !Z.gtb_ltb. intros H. bool_to_Z. lia. Qed.

Lemma freq_lt_negtrans (a b c : PolyEntry) :
  freq_lt b a = false -> freq_lt c b = false -> freq_lt c a = false.
Proof. unfold freq_lt. rewrite !Z.gtb_ltb. intros H1 H2. bool_to_Z. lia. Qed.

(** ** The post-processing of [make_book] on small tables *)

(** C1 as stated fails: a run of two records is left as the global sort
    put it, the smaller move first although the weights are equal. *)
Lemma post_process_short_run_ascending :
  post_process [mkPolyEntry 2 9 1 0; mkPolyEntry 1 7 1 0; mkPolyEntry 1 4 1 0]
  = Some ([mkPolyEntry 1 4 1 0; mkPolyEntry 1 7 1 0; mkPolyEntry 2 9 1 0], 2%nat)
  /\ ~ StronglySorted book_le
         [mkPolyEntry 1 4 1 0; mkPolyEntry 1 7 1 0; mkPolyEntry 2 9 1 0].
Proof.
  split; [reflexivity|].
  intros H. inversion H as [|? ? _ Hf]. inversion Hf as [|? ? Hab _].
  unfold book_le, freq_ge in Hab. cbn [key move weight] in Hab. lia.
Qed.

(** C2, the defect: the run that ends the table is never handed to
    [sort_by_frequency], since the loop acts on a change of key only.
    Three records of one key keep weight 1 where the claim asks for
    [2 * 0xFFFF / 3] and [1 * 0xFFFF / 3]. *)
Theorem post_process_skips_last_run :
  post_process [mkPolyEntry 1 7 1 0; mkPolyEntry 1 4 1 8; mkPolyEntry 1 7 1 16]
  = Some ([mkPolyEntry 1 4 1 8; mkPolyEntry 1 7 1 0; mkPolyEntry 1 7 1 16], 1%nat).
Proof. reflexivity. Qed.

(** The same run followed by a record of another key is re-weighted. *)
Lemma post_process_reweights_inner_run :
  post_process [mkPolyEntry 1 7 1 0; mkPolyEntry 1 4 1 8; mkPolyEntry 1 7 1 16;
                mkPolyEntry 2 9 1 0]
  = Some ([mkPolyEntry 1 7 43690 0; mkPolyEntry 1 7 43690 16;
           mkPolyEntry 1 4 21845 8; mkPolyEntry 2 9 1 0], 2%nat).
Proof. reflexivity. Qed.

(** ** [probe_key] on a small book *)

(** C3, the defect: the inner loop of [probe_key] compares moves only.
    The book holds one record of key 1 and one of key 2, both with move 5;
    probing key 1 counts the record of key 2 in the group of move 5 (two
    games, two offsets) although the run of key 1 is a single record. *)
Theorem probe_key_crosses_key_boundary :
  let book := serialise [mkPolyEntry 1 5 1 0; mkPolyEntry 2 5 1 0x40000001] in
  probe_key [] (Some book) 0 10 0 = Some [mkMoveInfo 5 1 [1; 1; 0; 0] [0; 8]]
  /\ option_map (List.map j_games) (probe_key [] (Some book) 0 10 0) = Some [2]
  /\ key_run book 0 = [mkPolyEntry 1 5 1 0].
Proof. repeat split; vm_compute; reflexivity. Qed.

(** ** Slices of a table *)

Section SliceFacts.
Context {A : Type}.

Lemma slice_length (s e : nat) (l : list A) :
  (s <= e <= length l)%nat -> length (slice s e l) = (e - s)%nat.
Proof.
  intros H. unfold slice. rewrite length_firstn, length_skipn. lia.
Qed.

Lemma slice_split (s e : nat) (l : list A) :
  (s <= e)%nat -> l = firstn s l ++ slice s e l ++ skipn e l.
Proof.
  intros H. unfold slice.
  replace (skipn e l) with (skipn (e - s) (skipn s l))
    by (rewrite skipn_skipn; f_equal; lia).
  now rewrite firstn_skipn, firstn_skipn.
Qed.

Lemma slice_splice (s e : nat) (l b : list A) :
  (s <= e <= length l)%nat -> length b = (e - s)%nat ->
  slice s e (firstn s l ++ b ++ skipn e l) = b.
Proof.
  intros H Hb. unfold slice.
  rewrite skipn_app, length_firstn.
  replace (s - Nat.min s (length l))%nat with O by lia.
  rewrite skipn_all2 by (rewrite length_firstn; lia).
  cbn [skipn app]. rewrite firstn_app, Hb, Nat.sub_diag.
  cbn [firstn]. rewrite app_nil_r. apply firstn_all2. lia.
Qed.

Lemma slice_splice_before (s s' e' : nat) (l x : list A) :
  (e' <= s <= length l)%nat ->
  slice s' e' (firstn s l ++ x) = slice s' e' l.
Proof.
  intros H. unfold slice.
  destruct (Nat.le_gt_cases s' e') as [Hle|Hgt].
  - rewrite skipn_app, firstn_app.
    rewrite length_skipn, length_firstn.
    replace (e' - s' - (Nat.min s (length l) - s'))%nat with O by lia.
    cbn [firstn]. rewrite app_nil_r.
    rewrite skipn_firstn_comm, firstn_firstn.
    f_equal. lia.
  - replace (e' - s')%nat with O by lia. reflexivity.
Qed.

Lemma skipn_splice (s e : nat) (l b : list A) :
  (s <= e <= length l)%nat -> length b = (e - s)%nat ->
  skipn e (firstn s l ++ b ++ skipn e l) = skipn e l.
Proof.
  intros H Hb.
  rewrite skipn_app, length_firstn.
  rewrite skipn_all2 by (rewrite length_firstn; lia).
  cbn [app]. rewrite skipn_app, Hb.
  rewrite skipn_all2 by lia. cbn [app].
  replace (e - Nat.min s (length l) - (e - s))%nat with O by lia.
  reflexivity.
Qed.

Lemma slice_skipn (k s e : nat) (l : list A) :
  (k <= s)%nat -> slice s e l = slice (s - k) (e - k) (skipn k l).
Proof.
  intros H. unfold slice. rewrite skipn_skipn.
  replace (s - k + k)%nat with s by lia. f_equal. lia.
Qed.

Lemma slice_nth (s e : nat) (l : list A) (j : nat) (d : A) :
  (j < e - s)%nat -> nth j (slice s e l) d = nth (s + j) l d.
Proof.
  intros H. unfold slice. rewrite nth_firstn.
  destruct (Nat.ltb_spec j (e - s)); [|lia]. apply nth_skipn.
Qed.
End SliceFacts.

Lemma StronglySorted_weaken {A : Type} (R R' : A -> A -> Prop) (l : list A) :
  (forall a b, R a b -> R' a b) -> StronglySorted R l -> StronglySorted R' l.
Proof.
  intros HR. induction 1 as [|a l _ IH Hf]; constructor; [exact IH|].
  eapply Forall_impl; [|exact Hf]. intros b. apply HR.
Qed.

Lemma StronglySorted_map_key (l : Keys) :
  StronglySorted (fun a b => poly_lt b a = false) l ->
  StronglySorted Z.le (List.map key l).
Proof.
  induction 1 as [|a l _ IH Hf]; cbn [List.map]; constructor; [exact IH|].
  apply Forall_map. eapply Forall_impl; [|exact Hf].
  intros b Hb. cbn beta in Hb. unfold poly_lt in Hb. bool_to_Z. lia.
Qed.

Lemma freq_lt_false_ge (a b : PolyEntry) : freq_lt b a = false -> freq_ge a b.
Proof.
  unfold freq_lt, freq_ge. rewrite !Z.gtb_ltb. intros H. bool_to_Z. lia.
Qed.

Lemma map_key_const (k : Z) (l : Keys) :
  Forall (fun e => key e = k) l -> List.map key l = repeat k (length l).
Proof.
  induction 1 as [|e l He _ IH]; cbn [List.map length repeat]; [reflexivity|].
  now rewrite He, IH.
Qed.

Lemma nth_key (i : nat) (t : Keys) :
  key (nth i t PolyEntry_zero) = nth i (List.map key t) 0.
Proof. symmetry. apply (map_nth key t PolyEntry_zero i). Qed.

(** ** [sort_by_frequency] *)

Lemma slice_keys (t : Keys) (s e : nat) (k : Z) :
  (s <= e <= length t)%nat ->
  (forall i, (s <= i < e)%nat -> nth i (List.map key t) 0 = k) ->
  Forall (fun x => key x = k) (slice s e t).
Proof.
  intros Hb Hk. apply Forall_forall. intros x Hx.
  destruct (In_nth _ _ PolyEntry_zero Hx) as (j & Hj & <-).
  rewrite slice_length in Hj by exact Hb.
  rewrite slice_nth by exact Hj. rewrite nth_key. apply Hk. lia.
Qed.

Lemma sort_by_frequency_keys (t : Keys) (s e : nat) (k : Z) :
  (s <= e <= length t)%nat ->
  (forall i, (s <= i < e)%nat -> nth i (List.map key t) 0 = k) ->
  List.map key (fst (sort_by_frequency t s e)) = List.map key t.
Proof.
  intros Hb Hk. unfold sort_by_frequency. cbn [fst].
  set (f := fun x : PolyEntry => set_weight x _).
  pose proof (slice_keys t s e k Hb Hk) as Hrun.
  rewrite (slice_split s e t) at 4 by lia.
  rewrite !map_app. f_equal. f_equal.
  rewrite (map_key_const k (slice s e t)) by exact Hrun.
  rewrite (map_key_const k).
  - now rewrite std_sort_length, length_map.
  - eapply Permutation_Forall; [apply std_sort_perm|].
    apply Forall_map. eapply Forall_impl; [|exact Hrun].
    intros x Hx. exact Hx.
Qed.

Lemma sort_by_frequency_run_length (t : Keys) (s e : nat) :
  (s <= e <= length t)%nat ->
  length (std_sort freq_lt
            (List.map (fun x => set_weight x
               (freq_weight (fold_left (fun mv y => move_map_incr mv (move y))
                                       (slice s e t) move_map_empty (move x))
                            (e - s)))
               (slice s e t))) = (e - s)%nat.
Proof.
  intros Hb. now rewrite std_sort_length, length_map, slice_length.
Qed.

Lemma sort_by_frequency_sorted (t : Keys) (s e : nat) :
  (s <= e <= length t)%nat ->
  StronglySorted freq_ge (slice s e (fst (sort_by_frequency t s e))).
Proof.
  intros Hb. unfold sort_by_frequency. cbn [fst].
  rewrite slice_splice; [| exact Hb | now apply sort_by_frequency_run_length].
  eapply StronglySorted_weaken; [|apply std_sort_sorted].
  - intros a b. apply freq_lt_false_ge.
  - apply freq_lt_asym.
  - apply freq_lt_negtrans.
Qed.

Lemma sort_by_frequency_before (t : Keys) (s e s' e' : nat) :
  (s <= e <= length t)%nat -> (e' <= s)%nat ->
  slice s' e' (fst (sort_by_frequency t s e)) = slice s' e' t.
Proof.
  intros Hb He. unfold sort_by_frequency. cbn [fst].
  apply slice_splice_before. lia.
Qed.

Lemma sort_by_frequency_after (t : Keys) (s e : nat) :
  (s <= e <= length t)%nat ->
  skipn e (fst (sort_by_frequency t s e)) = skipn e t.
Proof.
  intros Hb. unfold sort_by_frequency. cbn [fst].
  apply skipn_splice; [exact Hb | now apply sort_by_frequency_run_length].
Qed.

(** ** The loop of [post_process] *)

(** A maximal run that ends inside the current stretch of equal keys is
    that stretch. *)
Lemma run_is_current (ks : list Z) (idx last start len : nat) :
  (last < idx)%nat -> (idx < length ks)%nat ->
  (forall i, (last <= i < idx)%nat -> (i < length ks)%nat ->
             nth i ks 0 = nth last ks 0) ->
  (last = O \/ nth (last - 1) ks 0 <> nth last ks 0) ->
  is_run ks start len ->
  (last < start + len <= idx)%nat ->
  start = last /\ (start + len)%nat = idx.
Proof.
  intros Hli Hidx Hcur Hleft (Hlen & Hbound & Hsame & Hl & Hr) Hend.
  assert (Hstart : start = last).
  { destruct (Nat.lt_trichotomy start last) as [Hlt|[Heq|Hgt]]; [|exact Heq|].
    - exfalso. destruct Hleft as [->|Hne]; [lia|]. apply Hne.
      rewrite (Hsame (last - 1)%nat) by lia. now rewrite (Hsame last) by lia.
    - exfalso. destruct Hl as [->|Hne]; [lia|]. apply Hne.
      rewrite (Hcur (start - 1)%nat) by lia. now rewrite (Hcur start) by lia. }
  split; [exact Hstart|]. subst start.
  destruct (Nat.eq_dec (last + len) idx) as [Heq|Hne]; [exact Heq|].
  exfalso. destruct Hr as [Hn|Hne']; [lia|]. apply Hne'.
  apply Hcur; lia.
Qed.

Lemma reweight_inv_length (t0 t : Keys) (idx last : nat) :
  reweight_inv t0 t idx last -> length t = length t0.
Proof.
  intros (Hk & _). apply (f_equal (@length Z)) in Hk.
  now rewrite !length_map in Hk.
Qed.

Lemma reweight_inv_same (t0 t : Keys) (idx last : nat) :
  reweight_inv t0 t idx last ->
  nth idx (List.map key t0) 0 = nth (idx - 1) (List.map key t0) 0 ->
  reweight_inv t0 t (S idx) last.
Proof.
  intros (Hk & Hli & Hcur & Hleft & Hbig & Hsmall & Hrest) Heq.
  unfold reweight_inv. cbv zeta. repeat split; try assumption; [lia|].
  intros i Hi Hn.
  destruct (Nat.eq_dec i idx) as [->|Hne]; [|apply Hcur; lia].
  rewrite Heq. apply Hcur; lia.
Qed.

Lemma reweight_inv_keep (t0 t : Keys) (idx last : nat) :
  reweight_inv t0 t idx last -> (idx < length t0)%nat ->
  nth idx (List.map key t0) 0 <> nth (idx - 1) (List.map key t0) 0 ->
  (idx - last <= 2)%nat ->
  reweight_inv t0 t (S idx) idx.
Proof.
  intros (Hk & Hli & Hcur & Hleft & Hbig & Hsmall & Hrest) Hidx Hne Hshort.
  unfold reweight_inv. cbv zeta.
  assert (Hlen : (idx < length (List.map key t0))%nat)
    by (rewrite length_map; exact Hidx).
  split; [exact Hk|]. split; [lia|].
  split; [intros i Hi _; f_equal; lia|].
  split; [right; congruence|].
  split; [|split].
  - intros start len Hrun Hl3 Hend.
    destruct (Nat.le_gt_cases (start + len) last) as [Hle|Hgt];
      [now apply Hbig|].
    destruct (run_is_current _ idx last start len Hli Hlen Hcur Hleft Hrun
                (conj Hgt Hend)) as [-> Hidx']. lia.
  - intros start len Hrun Hl2 Hend.
    destruct (Nat.le_gt_cases (start + len) last) as [Hle|Hgt];
      [now apply Hsmall|].
    destruct (run_is_current _ idx last start len Hli Hlen Hcur Hleft Hrun
                (conj Hgt Hend)) as [-> Hidx'].
    unfold slice. now rewrite Hrest.
  - replace idx with ((idx - last) + last)%nat by lia.
    rewrite <- !skipn_skipn. now rewrite Hrest.
Qed.

Lemma reweight_inv_sort (t0 t : Keys) (idx last : nat) :
  reweight_inv t0 t idx last -> (idx < length t0)%nat ->
  nth idx (List.map key t0) 0 <> nth (idx - 1) (List.map key t0) 0 ->
  (2 < idx - last)%nat ->
  reweight_inv t0 (fst (sort_by_frequency t last idx)) (S idx) idx.
Proof.
  intros Hinv Hidx Hne Hlong.
  pose proof (reweight_inv_length _ _ _ _ Hinv) as Hlt.
  destruct Hinv as (Hk & Hli & Hcur & Hleft & Hbig & Hsmall & Hrest).
  unfold reweight_inv. cbv zeta.
  assert (Hlen : (idx < length (List.map key t0))%nat)
    by (rewrite length_map; exact Hidx).
  assert (Hb : (last <= idx <= length t)%nat) by lia.
  split.
  { rewrite <- Hk.
    apply (sort_by_frequency_keys t last idx (nth last (List.map key t0) 0) Hb).
    intros i Hi. rewrite Hk. apply Hcur; lia. }
  split; [lia|].
  split; [intros i Hi _; f_equal; lia|].
  split; [right; congruence|].
  split; [|split].
  - intros start len Hrun Hl3 Hend.
    destruct (Nat.le_gt_cases (start + len) last) as [Hle|Hgt].
    + rewrite sort_by_frequency_before by lia. now apply Hbig.
    + destruct (run_is_current _ idx last start len Hli Hlen Hcur Hleft Hrun
                  (conj Hgt Hend)) as [-> Hidx'].
      rewrite Hidx'. now apply sort_by_frequency_sorted.
  - intros start len Hrun Hl2 Hend.
    destruct (Nat.le_gt_cases (start + len) last) as [Hle|Hgt].
    + rewrite sort_by_frequency_before by lia. now apply Hsmall.
    + destruct (run_is_current _ idx last start len Hli Hlen Hcur Hleft Hrun
                  (conj Hgt Hend)) as [-> Hidx']. lia.
  - rewrite sort_by_frequency_after by exact Hb.
    replace idx with ((idx - last) + last)%nat by lia.
    rewrite <- !skipn_skipn. now rewrite Hrest.
Qed.

Lemma reweight_loop_runs (t0 : Keys) (fuel : nat) :
  forall (t : Keys) (idx last u : nat),
    reweight_inv t0 t idx last ->
    (length t0 - idx < fuel)%nat ->
    exists t' u' idx' last',
      reweight_loop fuel t idx last u = Some (t', u')
      /\ reweight_inv t0 t' idx' last' /\ (length t0 <= idx')%nat.
Proof.
  induction fuel as [|fuel IH]; intros t idx last u Hinv Hfuel; [lia|].
  pose proof (reweight_inv_length _ _ _ _ Hinv) as Hlen.
  cbn [reweight_loop]. rewrite Hlen.
  destruct (Nat.ltb_spec idx (length t0)) as [Hlt|Hge].
  2:{ exists t, u, idx, last. split; [reflexivity|]. split; [exact Hinv | exact Hge]. }
  rewrite !nth_key.
  replace (List.map key t) with (List.map key t0) by (symmetry; apply Hinv).
  destruct (Z.eqb_spec (nth idx (List.map key t0) 0)
                       (nth (idx - 1) (List.map key t0) 0)) as [Heq|Hne];
    cbn [negb].
  - apply IH; [apply reweight_inv_same; assumption | lia].
  - destruct (Nat.ltb_spec 2 (idx - last)) as [Hlong|Hshort].
    + change (sort_by_frequency t last idx)
        with (fst (sort_by_frequency t last idx), idx).
      cbv beta iota.
      apply IH; [apply reweight_inv_sort; assumption | lia].
    + apply IH; [apply (reweight_inv_keep t0 t idx last); assumption | lia].
Qed.

Lemma reweight_inv_init (t0 : Keys) : reweight_inv t0 t0 1 0.
Proof.
  unfold reweight_inv. cbv zeta. repeat split; try reflexivity.
  - lia.
  - intros i Hi _. f_equal. lia.
  - now left.
  - intros start len (Hlen & _) _ Hend. lia.
Qed.


(** C1, as the code has it: after the post-processing the keys are in
    non-decreasing order; every maximal run of equal key that has at
    least three records and is followed by a record of another key is in
    non-increasing weight order, equal weights in non-increasing move
    order; every maximal run of one or two records stands as the global
    sort left it. *)
Theorem post_process_order (kTable : Keys) :
  exists t u,
    post_process kTable = Some (t, u)
    /\ length t = length kTable
    /\ StronglySorted Z.le (List.map key t)
    /\ (forall start len,
          is_run (List.map key t) start len -> (3 <= len)%nat ->
          (start + len < length t)%nat ->
          StronglySorted freq_ge (slice start (start + len) t))
    /\ (forall start len,
          is_run (List.map key t) start len -> (len <= 2)%nat ->
          slice start (start + len) t
          = slice start (start + len) (std_sort poly_lt kTable)).
Proof.
  unfold post_process. set (t0 := std_sort poly_lt kTable).
  destruct (reweight_loop_runs t0 (S (length t0)) t0 1 0 1
              (reweight_inv_init _) ltac:(lia))
    as (t & u & idx & last & Heq & Hinv & Hexit).
  exists t, u. split; [exact Heq|].
  pose proof (reweight_inv_length _ _ _ _ Hinv) as Hlen.
  destruct Hinv as (Hk & Hli & Hcur & Hleft & Hbig & Hsmall & Hrest).
  split; [rewrite Hlen; apply std_sort_length|].
  rewrite Hk, Hlen.
  assert (Hn : length (List.map key t0) = length t0) by apply length_map.
  split.
  { apply StronglySorted_map_key. apply std_sort_sorted.
    - apply poly_lt_asym.
    - apply poly_lt_negtrans. }
  split.
  - intros start len Hrun Hl3 Hend. apply Hbig; [exact Hrun | exact Hl3 |].
    destruct (Nat.le_gt_cases (start + len) last) as [Hle|Hgt]; [exact Hle|].
    exfalso. destruct Hrun as (Hlen1 & Hbound & Hsame & Hl & Hr).
    destruct Hr as [Hr|Hr]; [lia|]. apply Hr.
    rewrite (Hcur (start + len)%nat) by lia.
    rewrite <- (Hsame (start + len - 1)%nat) by lia.
    symmetry. apply Hcur; lia.
  - intros start len Hrun Hl2.
    destruct (Nat.le_gt_cases (start + len) last) as [Hle|Hgt];
      [now apply Hsmall|].
    assert (Hge : (last <= start)%nat).
    { destruct (Nat.le_gt_cases last start) as [H|Hlt]; [exact H|].
      exfalso. destruct Hrun as (Hlen1 & Hbound & Hsame & Hl & Hr).
      destruct Hleft as [->|Hne]; [lia|]. apply Hne.
      rewrite (Hsame (last - 1)%nat) by lia. now rewrite (Hsame last) by lia. }
    rewrite (slice_skipn last start _ t) by exact Hge.
    rewrite (slice_skipn last start _ t0) by exact Hge.
    now rewrite Hrest.
Qed.

Lemma post_process_order_witness :
  is_run (List.map key [mkPolyEntry 1 7 43690 0; mkPolyEntry 1 7 43690 16;
                        mkPolyEntry 1 4 21845 8; mkPolyEntry 2 9 1 0]) 0 3
  /\ StronglySorted freq_ge
       [mkPolyEntry 1 7 43690 0; mkPolyEntry 1 7 43690 16; mkPolyEntry 1 4 21845 8].
Proof.
  assert (Hrun : is_run (List.map key [mkPolyEntry 1 7 43690 0;
                    mkPolyEntry 1 7 43690 16; mkPolyEntry 1 4 21845 8;
                    mkPolyEntry 2 9 1 0]) 0 3).
  { unfold is_run. cbn [List.map key length]. repeat split.
    - lia.
    - lia.
    - intros i Hi. destruct i as [|[|[|i]]]; [reflexivity | reflexivity | reflexivity | lia].
    - now left.
    - right. cbn. discriminate. }
  split; [exact Hrun|].
  destruct (post_process_order
              [mkPolyEntry 1 7 1 0; mkPolyEntry 1 4 1 8; mkPolyEntry 1 7 1 16;
               mkPolyEntry 2 9 1 0]) as (t & u & Heq & _ & _ & Hbig & _).
  rewrite post_process_reweights_inner_run in Heq.
  injection Heq as <- _.
  exact (Hbig 0%nat 3%nat Hrun (Nat.le_refl 3) (Nat.lt_succ_diag_r 3)).
Defined.

(** ** The weights [sort_by_frequency] stores *)

Lemma int32_small (n : Z) : - 2 ^ 31 <= n < 2 ^ 31 -> int32 n = n.
Proof. intros H. unfold int32. rewrite Z.mod_small; lia. Qed.

Lemma count_move_cons (m : Z) (e : PolyEntry) (l : Keys) :
  count_move m (e :: l) = (if move e =? m then 1 else 0) + count_move m l.
Proof.
  unfold count_move. cbn [filter]. destruct (move e =? m); cbn [length]; lia.
Qed.

Lemma count_move_bounds (m : Z) (l : Keys) :
  0 <= count_move m l <= Z.of_nat (length l).
Proof.
  unfold count_move. pose proof (filter_length_le (fun e => move e =? m) l). lia.
Qed.

(** The map built by the first loop holds the number of records of each
    move, as long as the counters stay within [int]. *)
Lemma move_map_counts (run : Keys) (acc : move_map) (m : Z) :
  0 <= acc m -> acc m + Z.of_nat (length run) < 2 ^ 31 ->
  fold_left (fun mv e => move_map_incr mv (move e)) run acc m
  = acc m + count_move m run.
Proof.
  revert acc. induction run as [|e run IH]; intros acc H0 Hmax.
  - cbn [fold_left]. unfold count_move. cbn. lia.
  - cbn [fold_left]. cbn [length] in Hmax.
    rewrite IH; unfold move_map_incr.
    + rewrite count_move_cons, (Z.eqb_sym (move e) m).
      destruct (m =? move e); [rewrite int32_small|]; lia.
    + destruct (m =? move e); [rewrite int32_small|]; lia.
    + destruct (m =? move e); [rewrite int32_small|]; lia.
Qed.

Lemma freq_weight_small (c : Z) (len : nat) :
  0 <= c <= Z.of_nat len -> 0 < Z.of_nat len <= 32768 ->
  freq_weight c len = c * 0xFFFF / Z.of_nat len.
Proof.
  intros Hc Hlen. unfold freq_weight, uint16, uint64.
  rewrite int32_small by lia.
  rewrite (wrap_small 64) by lia.
  apply wrap_small. split.
  - apply Z.div_pos; lia.
  - apply Z.div_lt_upper_bound; lia.
Qed.

(** A run handed to [sort_by_frequency] comes back with every weight
    replaced by the share of its move in the run, scaled to [0xFFFF]. *)
Lemma sort_by_frequency_weights (t : Keys) (s e : nat) :
  (s < e <= length t)%nat -> Z.of_nat (e - s) <= 32768 ->
  Forall (fun x => weight x
                   = count_move (move x) (slice s e t) * 0xFFFF / Z.of_nat (e - s))
         (slice s e (fst (sort_by_frequency t s e))).
Proof.
  intros Hb Hlen. unfold sort_by_frequency. cbn [fst].
  rewrite slice_splice;
    [| lia | apply sort_by_frequency_run_length; lia].
  eapply Permutation_Forall; [apply std_sort_perm|].
  apply Forall_map. apply Forall_forall. intros x _.
  cbn [set_weight weight move].
  pose proof (count_move_bounds (move x) (slice s e t)) as Hc.
  rewrite slice_length in Hc by lia.
  rewrite move_map_counts; unfold move_map_empty.
  - rewrite Z.add_0_l. apply freq_weight_small; lia.
  - lia.
  - rewrite slice_length by lia. lia.
Qed.

(** ** The parser loop *)

Section ParserFacts.
Context {E : Engine}.
Variable pgn : list ascii.

Lemma State_eqb_eq (a b : State) : State_eqb a b = true <-> a = b.
Proof. destruct a, b; cbn; split; (reflexivity || discriminate). Qed.

Lemma byte_at_range (i : Z) : byte_at pgn i <> NUL -> 0 <= i < eof pgn.
Proof.
  unfold byte_at, eof. destruct (Z.ltb_spec i 0) as [Hneg|Hpos]; [congruence|].
  intros H. split; [exact Hpos|].
  destruct (Z.lt_ge_cases i (Z.of_nat (length pgn))) as [Hlt|Hge]; [exact Hlt|].
  exfalso. apply H. apply nth_overflow. lia.
Qed.

Lemma match_at_head (p : Z) (c : ascii) (rest : list ascii) :
  match_at pgn p (c :: rest) = true -> byte_at pgn p = c.
Proof.
  cbn [match_at]. intros H. apply andb_true_iff in H. now apply Ascii.eqb_eq.
Qed.

Lemma match_at_second (p : Z) (c c' : ascii) (rest : list ascii) :
  match_at pgn p (c :: c' :: rest) = true -> byte_at pgn (p + 1) = c'.
Proof.
  cbn [match_at]. intros H. apply andb_true_iff in H. destruct H as [_ H].
  apply andb_true_iff in H. now apply Ascii.eqb_eq.
Qed.

(** *** The stack is never popped empty *)

Lemma stack_ok_flat (st : State) (stk : list State) :
  nested st = false -> stack_ok st stk.
Proof. intros H. destruct stk; cbn; auto. Qed.

Lemma stack_ok_nested (st : State) (stk : list State) :
  nested st = true -> stack_ok st stk ->
  exists top rest, stk = top :: rest /\ stack_ok top rest.
Proof.
  intros Hn H. destruct stk as [|top rest]; cbn in H.
  - congruence.
  - destruct H as [H|H]; [congruence|]. now exists top, rest.
Qed.

Lemma stack_ok_finish_game (ofs : Z) (s : PState) :
  stack_ok (state (finish_game ofs s)) (stateStack (finish_game ofs s)).
Proof. apply stack_ok_flat. reflexivity. Qed.

Lemma stack_ok_step (s : PState) :
  stack_ok (state s) (stateStack s) ->
  stack_ok (state (step pgn s)) (stateStack (step pgn s)).
Proof.
  intros Hok. unfold step. cbn [state stateStack set_data].
  unfold action.
  destruct (state s) eqn:Hst; destruct (ToToken (byte_at pgn (data s)));
    cbn [ToStep];
    repeat match goal with
           | |- context [if ?b then _ else _] => destruct b
           | |- context [match stm s with _ => _ end] => destruct (stm s)
           end;
    unfold do_MISSING_RESULT, do_START_READ_SAN, push_state, pop_state;
    cbn [state stateStack set_state set_stateStack set_data set_fen set_moves
         set_result set_stm set_cerr finish_game];
    rewrite ?Hst;
    try (apply stack_ok_flat; reflexivity);
    try exact Hok;
    try (cbn [stack_ok]; right; exact Hok);
    try (cbn [stack_ok]; right; apply stack_ok_flat; reflexivity);
    try (match type of Hok with
         | stack_ok ?st _ =>
             destruct (stack_ok_nested st _ eq_refl Hok) as (top & rest & Heq & Htop)
         end;
         rewrite Heq; cbn [state stateStack set_state set_stateStack];
         first [exact Htop | cbn [stack_ok]; right; exact Htop]).
Qed.

(** *** [assert (result == 3)] never fails *)

Lemma result_unknown_step (s : PState) :
  result_unknown s -> result_unknown (step pgn s).
Proof.
  unfold result_unknown. intros [Hres Hstk].
  unfold step. cbn [state stateStack result set_data].
  unfold action.
  destruct (state s) eqn:Hst; destruct (ToToken (byte_at pgn (data s)));
    cbn [ToStep];
    repeat match goal with
           | |- context [if ?b then _ else _] => destruct b
           | |- context [match stm s with _ => _ end] => destruct (stm s)
           end;
    unfold do_MISSING_RESULT, do_START_READ_SAN, push_state, pop_state;
    try match goal with
        | |- context [match stateStack s with _ => _ end] =>
            destruct (stateStack s) as [|top rest] eqn:Hstack
        end;
    cbn [state stateStack result set_state set_stateStack set_data set_fen
         set_moves set_result set_stm set_cerr finish_game In] in *;
    rewrite ?Hst, ?Hstack;
    cbn [In] in *;
    (split; [try (left; reflexivity); try (right; reflexivity);
             try (destruct Hres as [Hres|Hres]; [discriminate | right; exact Hres])
            | try exact Hstk; intuition (try discriminate)]).
Qed.

(** The state the loop starts in satisfies both invariants. *)
Lemma initial_state_ok (table : Keys) :
  stack_ok (state (initial_state table)) (stateStack (initial_state table))
  /\ result_unknown (initial_state table).
Proof.
  unfold result_unknown. cbn. split; [reflexivity|]. split; [now right | tauto].
Qed.

(** *** The loop ends *)

(** A turn moves the cursor forward, except the one that finds the
    next game from [SKIP_GAME] and steps back to its bracket. *)
Lemma step_data (s : PState) :
  (state s = SKIP_GAME /\ state (step pgn s) = HEADER
   /\ data (step pgn s) = data s - 1
   /\ match_at pgn (data s - 1) lit_Event = true)
  \/ data s + 1 <= data (step pgn s).
Proof.
  unfold step. cbn [state data set_data].
  unfold action.
  destruct (state s) eqn:Hst; destruct (ToToken (byte_at pgn (data s)));
    cbn [ToStep];
    repeat match goal with
           | |- context [if ?b then _ else _] => destruct b eqn:?
           | |- context [match stm s with _ => _ end] => destruct (stm s)
           end;
    unfold do_MISSING_RESULT, do_START_READ_SAN, push_state, pop_state;
    try match goal with
        | |- context [match stateStack s with _ => _ end] =>
            destruct (stateStack s) as [|top rest] eqn:Hstack
        end;
    cbn [state data stateStack set_state set_stateStack set_data set_fen
         set_moves set_result set_stm set_cerr finish_game];
    first [right; lia | left; repeat split; first [assumption | lia]].
Qed.

Lemma step_at_event (s : PState) :
  state s = HEADER -> match_at pgn (data s) lit_Event = true ->
  step pgn s = set_data (data s + 1) (push_state TAG s).
Proof.
  intros Hst Hev.
  pose proof (match_at_head _ _ _ Hev) as H0.
  pose proof (match_at_second _ _ _ _ Hev) as H1.
  unfold step, action. rewrite Hst, H0. cbn [ToToken ToStep].
  change (ToStep HEADER (ToToken "[")) with OPEN_TAG. cbv beta iota.
  unfold lit_FEN, lit_Variant. cbn [lit list_ascii_of_string app match_at].
  rewrite H1. cbn [Ascii.eqb Bool.eqb andb].
  reflexivity.
Qed.

Lemma parse_measure_step (s : PState) :
  parse_measure pgn (step pgn s) < parse_measure pgn s.
Proof.
  destruct (State_eqb (state s) HEADER && match_at pgn (data s) lit_Event)
    eqn:Hev.
  - apply andb_true_iff in Hev. destruct Hev as [Hst Hev].
    apply State_eqb_eq in Hst.
    rewrite (step_at_event s Hst Hev).
    unfold parse_measure, push_state.
    cbn [state data set_data set_state set_stateStack].
    rewrite Hst, Hev. cbn [State_eqb andb]. lia.
  - assert (Hc : forall s', 0 <= (if State_eqb (state s') SKIP_GAME then 4
                   else if State_eqb (state s') HEADER
                           && match_at pgn (data s') lit_Event then 0 else 2) <= 4).
    { intros s'. destruct (State_eqb (state s') SKIP_GAME); [lia|].
      destruct (State_eqb (state s') HEADER && match_at pgn (data s') lit_Event); lia. }
    unfold parse_measure. rewrite Hev.
    destruct (step_data s) as [(Hskip & Hhdr & Hdata & Hmatch)|Hfwd].
    + rewrite Hskip, Hhdr, Hdata, Hmatch. cbn [State_eqb andb]. lia.
    + pose proof (Hc (step pgn s)) as Hc'.
      destruct (State_eqb (state s) SKIP_GAME); lia.
Qed.

Lemma parse_measure_bounds (s : PState) :
  data s < eof pgn -> 3 <= parse_measure pgn s.
Proof.
  intros H. unfold parse_measure.
  destruct (State_eqb (state s) SKIP_GAME); [lia|].
  destruct (State_eqb (state s) HEADER && match_at pgn (data s) lit_Event); lia.
Qed.

Lemma parse_loop_runs (fuel : nat) (s : PState) :
  (0 < fuel)%nat -> parse_measure pgn s < Z.of_nat fuel ->
  exists s', parse_loop pgn fuel s = Some s'.
Proof.
  revert s. induction fuel as [|fuel IH]; intros s Hpos Hm; [lia|].
  cbn [parse_loop].
  destruct (Z.ltb_spec (data s) (eof pgn)) as [Hlt|Hge]; [|now exists s].
  pose proof (parse_measure_bounds s Hlt).
  pose proof (parse_measure_step s).
  apply IH; lia.
Qed.

(** The fuel [parse_pgn] gives its loop is enough. *)
Lemma parse_loop_total (table : Keys) :
  exists s, parse_loop pgn (parse_fuel pgn) (initial_state table) = Some s.
Proof.
  apply parse_loop_runs; unfold parse_fuel; [lia|].
  unfold parse_measure, eof. cbn [state data initial_state State_eqb].
  destruct (true && match_at pgn 0 lit_Event); lia.
Qed.

Lemma parse_pgn_total (table : Keys) :
  exists r, parse_pgn pgn table = Some r.
Proof.
  unfold parse_pgn. destruct (parse_loop_total table) as [s ->].
  eexists. reflexivity.
Qed.
End ParserFacts.

(** ** End of file *)

Section EndOfFile.
Context {E : Engine}.
Variable pgn : list ascii.

(** *** A line feed appended to the file *)

Lemma byte_at_app_LF (i : Z) :
  byte_at (pgn ++ [LF]) i
  = if i =? eof pgn then LF else byte_at pgn i.
Proof.
  unfold byte_at, eof.
  destruct (Z.ltb_spec i 0) as [Hneg|Hpos].
  - destruct (Z.eqb_spec i (Z.of_nat (length pgn))); [lia | reflexivity].
  - destruct (Z.eqb_spec i (Z.of_nat (length pgn))) as [Heq|Hne].
    + rewrite app_nth2 by lia.
      replace (Z.to_nat i - length pgn)%nat with O by lia. reflexivity.
    + destruct (Z.lt_ge_cases i (Z.of_nat (length pgn))) as [Hlt|Hge].
      * apply app_nth1. lia.
      * rewrite !nth_overflow; [reflexivity | lia |].
        rewrite length_app. cbn [length]. lia.
Qed.

Lemma byte_at_app_before (i : Z) :
  i < eof pgn -> byte_at (pgn ++ [LF]) i = byte_at pgn i.
Proof.
  intros H. rewrite byte_at_app_LF.
  destruct (Z.eqb_spec i (eof pgn)); [lia | reflexivity].
Qed.

(** Past the end both files show a character that no literal of the
    parser contains. *)
Lemma eqb_byte_at_app (i : Z) (c : ascii) :
  c <> LF -> c <> NUL ->
  Ascii.eqb (byte_at (pgn ++ [LF]) i) c = Ascii.eqb (byte_at pgn i) c.
Proof.
  intros Hlf Hnul. rewrite byte_at_app_LF.
  destruct (Z.eqb_spec i (eof pgn)) as [Heq|Hne]; [|reflexivity].
  replace (byte_at pgn i) with NUL.
  - destruct (Ascii.eqb_spec LF c); destruct (Ascii.eqb_spec NUL c); congruence.
  - unfold byte_at, eof in *. destruct (i <? 0); [reflexivity|].
    symmetry. apply nth_overflow. lia.
Qed.

Lemma match_at_app (p : Z) (l : list ascii) :
  forallb (fun c => negb (Ascii.eqb c LF) && negb (Ascii.eqb c NUL)) l = true ->
  match_at (pgn ++ [LF]) p l = match_at pgn p l.
Proof.
  revert p. induction l as [|c l IH]; intros p Hl; [reflexivity|].
  cbn [forallb] in Hl. apply andb_true_iff in Hl. destruct Hl as [Hc Hl].
  apply andb_true_iff in Hc. destruct Hc as [Hlf Hnul].
  cbn [match_at]. rewrite IH by exact Hl. f_equal.
  apply eqb_byte_at_app.
  - intros ->. discriminate.
  - intros ->. discriminate.
Qed.

Lemma get_result_app (d : Z) :
  d < eof pgn -> get_result (pgn ++ [LF]) d = get_result pgn d.
Proof.
  intros H. unfold get_result.
  now rewrite !byte_at_app_before by lia.
Qed.

Lemma step_app (s : PState) :
  data s < eof pgn -> step (pgn ++ [LF]) s = step pgn s.
Proof.
  intros H. unfold step, action, do_MISSING_RESULT, do_START_READ_SAN.
  rewrite !(byte_at_app_before (data s)) by exact H.
  rewrite get_result_app by exact H.
  rewrite !match_at_app by reflexivity.
  rewrite (eqb_byte_at_app (data s + 2) "0") by discriminate.
  reflexivity.
Qed.

Lemma parse_loop_app (fuel : nat) (s r : PState) :
  parse_loop pgn fuel s = Some r ->
  exists m, (0 < m)%nat
            /\ forall k, parse_loop (pgn ++ [LF]) (fuel + k) s
                         = parse_loop (pgn ++ [LF]) (m + k) r.
Proof.
  revert s. induction fuel as [|fuel IH]; intros s Hr; [discriminate|].
  cbn [parse_loop] in Hr.
  destruct (Z.ltb_spec (data s) (eof pgn)) as [Hlt|Hge].
  - destruct (IH _ Hr) as (m & Hm & Hk). exists m. split; [exact Hm|].
    intros k. cbn [parse_loop Nat.add].
    replace (data s <? eof (pgn ++ [LF])) with true.
    + rewrite step_app by exact Hlt. apply Hk.
    + symmetry. apply Z.ltb_lt. unfold eof in *. rewrite length_app. cbn [length]. lia.
  - injection Hr as <-. exists (S fuel). split; [lia | reflexivity].
Qed.

(** *** Where the cursor stands when the loop is left *)

Lemma step_data_upper (s : PState) :
  data (step pgn s) <= data s + 1 \/ state (step pgn s) = FEN_TAG.
Proof.
  unfold step. cbn [state data set_data].
  unfold action.
  destruct (state s) eqn:Hst; destruct (ToToken (byte_at pgn (data s)));
    cbn [ToStep];
    repeat match goal with
           | |- context [if ?b then _ else _] => destruct b eqn:?
           | |- context [match stm s with _ => _ end] => destruct (stm s)
           end;
    unfold do_MISSING_RESULT, do_START_READ_SAN, push_state, pop_state;
    try match goal with
        | |- context [match stateStack s with _ => _ end] =>
            destruct (stateStack s) as [|top rest] eqn:Hstack
        end;
    cbn [state data stateStack set_state set_stateStack set_data set_fen
         set_moves set_result set_stm set_cerr finish_game];
    first [left; lia | right; reflexivity].
Qed.

Lemma parse_loop_exit (fuel : nat) (s r : PState) :
  parse_loop pgn fuel s = Some r ->
  data s <= eof pgn \/ state s = FEN_TAG ->
  data r = eof pgn \/ state r = FEN_TAG.
Proof.
  revert s. induction fuel as [|fuel IH]; intros s Hr Hs; [discriminate|].
  cbn [parse_loop] in Hr.
  destruct (Z.ltb_spec (data s) (eof pgn)) as [Hlt|Hge].
  - apply (IH _ Hr). destruct (step_data_upper s) as [H|H]; [left; lia | now right].
  - injection Hr as <-. destruct Hs as [Hs|Hs]; [left; lia | now right].
Qed.

(** The turn [END_GAME] takes on a line feed read in [RESULT]. *)
Lemma step_result_LF (s : PState) :
  state s = RESULT -> data s = eof pgn ->
  step (pgn ++ [LF]) s
  = set_data (data s + 1) (finish_game (data s + 1) s).
Proof.
  intros Hst Hd.
  assert (Hb : byte_at (pgn ++ [LF]) (data s) = LF)
    by now rewrite byte_at_app_LF, Hd, Z.eqb_refl.
  unfold step, action. rewrite Hst, Hb.
  reflexivity.
Qed.

Lemma at_eof_pending (s : PState) :
  state s <> HEADER -> state s <> SKIP_GAME -> moves s <> [] ->
  at_eof s
  = let g := parse_game false (moves s) (kTable s) (fen s) (fixed s)
                        (gameOfs s) (result s) in
    mkPState (state s) (stateStack s) (fen s) (moves s) (curMove s)
             (moveCnt s) (gameCnt s + 1) (g_fixed g) (gameOfs s) (result s)
             (data s) (stm s) (g_table g) (cerr s ++ g_diag g).
Proof.
  intros Hh Hs Hm. unfold at_eof.
  replace (State_eqb (state s) HEADER) with false
    by (destruct (state s) eqn:Hst; cbn; congruence).
  replace (State_eqb (state s) SKIP_GAME) with false
    by (destruct (state s) eqn:Hst; cbn; congruence).
  destruct (moves s); [congruence | reflexivity].
Qed.

Lemma at_eof_nothing (s : PState) :
  state s = HEADER \/ state s = SKIP_GAME \/ moves s = [] -> at_eof s = s.
Proof.
  unfold at_eof. intros [H|[H|H]]; rewrite H; cbn [State_eqb negb andb length Nat.eqb].
  - reflexivity.
  - reflexivity.
  - now rewrite andb_false_r.
Qed.

(** C9: when the loop is left with a game pending (the state is
    neither [HEADER] nor [SKIP_GAME]), the game is replayed and counted
    exactly when the move buffer is not empty; a file that ends right
    after the result, with moves collected, gives what the same file
    with a final line feed gives. *)
Theorem eof_finalises_pending_game (table : Keys) (s : PState) :
  parse_loop pgn (parse_fuel pgn) (initial_state table) = Some s ->
  let g := parse_game false (moves s) (kTable s) (fen s) (fixed s)
                      (gameOfs s) (result s) in
  (state s <> HEADER -> state s <> SKIP_GAME -> moves s <> [] ->
     parse_pgn pgn table
     = Some (mkStats (gameCnt s + 1) (moveCnt s) (g_fixed g),
             g_table g, cerr s ++ g_diag g))
  /\ (state s <> HEADER -> state s <> SKIP_GAME -> moves s = [] ->
        parse_pgn pgn table = Some (stats_of s, kTable s, cerr s))
  /\ (state s = RESULT -> moves s <> [] ->
        parse_pgn (pgn ++ [LF]) table = parse_pgn pgn table).
Proof.
  intros Hloop g.
  assert (Hpending : state s <> HEADER -> state s <> SKIP_GAME -> moves s <> [] ->
            parse_pgn pgn table
            = Some (mkStats (gameCnt s + 1) (moveCnt s) (g_fixed g),
                    g_table g, cerr s ++ g_diag g)).
  { intros Hh Hs Hm. unfold parse_pgn. rewrite Hloop.
    rewrite (at_eof_pending s Hh Hs Hm). reflexivity. }
  split; [exact Hpending|]. split.
  - intros Hh Hs Hm. unfold parse_pgn. rewrite Hloop.
    rewrite at_eof_nothing by (right; right; exact Hm). reflexivity.
  - intros Hres Hm.
    rewrite Hpending by (rewrite ?Hres; congruence).
    destruct (parse_loop_app _ _ _ Hloop) as (m & Hpos & Hk).
    destruct (parse_loop_exit _ _ _ Hloop) as [Hd|Hfen];
      [left; cbn [data initial_state]; unfold eof; lia | | congruence].
    unfold parse_pgn.
    replace (parse_fuel (pgn ++ [LF])) with (parse_fuel pgn + 3)%nat
      by (unfold parse_fuel; rewrite length_app; cbn [length]; lia).
    rewrite Hk.
    assert (Heof' : eof (pgn ++ [LF]) = eof pgn + 1)
      by (unfold eof; rewrite length_app; cbn [length]; lia).
    destruct m as [|m]; [lia|]. cbn [Nat.add parse_loop].
    replace (data s <? eof (pgn ++ [LF])) with true
      by (symmetry; apply Z.ltb_lt; lia).
    rewrite (step_result_LF s Hres Hd).
    replace (m + 3)%nat with (S (m + 2)) by lia. cbn [parse_loop].
    replace (data (set_data (data s + 1) (finish_game (data s + 1) s))
             <? eof (pgn ++ [LF])) with false
      by (symmetry; apply Z.ltb_ge; cbn [data set_data]; lia).
    rewrite at_eof_nothing by (left; reflexivity).
    reflexivity.
Qed.
End EndOfFile.

(** The file of [pgn_no_newline]: the loop is left in [RESULT] with two
    moves collected; the game is counted and its two records emitted, as
    with a final line feed. *)
Lemma eof_finalises_pending_game_witness :
  exists s,
    parse_loop (E := script_engine) pgn_no_newline (parse_fuel pgn_no_newline)
               (initial_state []) = Some s
    /\ state s = RESULT /\ moves s <> []
    /\ parse_pgn (E := script_engine) pgn_no_newline []
       = Some (mkStats 1 2 0,
               [mkPolyEntry 7 6516 1 0; mkPolyEntry 6734 6517 1 0], [])
    /\ parse_pgn (E := script_engine) (pgn_no_newline ++ [LF]) []
       = parse_pgn (E := script_engine) pgn_no_newline [].
Proof.
  pose (r := parse_loop (E := script_engine) pgn_no_newline
               (parse_fuel pgn_no_newline) (initial_state [])).
  assert (Hr : parse_loop (E := script_engine) pgn_no_newline
                 (parse_fuel pgn_no_newline) (initial_state []) = r)
    by reflexivity.
  vm_compute in r.
  match eval unfold r in r with
  | Some ?s => exists s
  end.
  split; [exact Hr|].
  split; [reflexivity|]. split; [discriminate|].
  destruct (eof_finalises_pending_game (E := script_engine) pgn_no_newline [] _ Hr)
    as (Hpending & _ & Hsame).
  split.
  - rewrite Hpending; [vm_compute; reflexivity | discriminate | discriminate | discriminate].
  - apply Hsame; [reflexivity | discriminate].
Defined.

(** ** Skipping a game of another variant *)

Section SkipGame.
Context {E : Engine}.
Variable pgn : list ascii.

Ltac pstate_eq s :=
  destruct s as [st stk fn mv cm mc gc fx go rs dt sm kt ce];
  cbv [set_state set_data state stateStack fen moves curMove moveCnt gameCnt
       fixed gameOfs result data stm kTable cerr] in *;
  subst; f_equal; lia.

Lemma step_open_variant (s : PState) :
  state s = HEADER ->
  byte_at pgn (data s) = "["%char ->
  match_at pgn (data s + 1) lit_Variant = true ->
  match_at pgn (data s + 9) lit_Standard = false ->
  step pgn s = set_state SKIP_GAME (set_data (data s + 1) s).
Proof.
  intros Hst Hb Hvar Hstd.
  pose proof (match_at_head _ _ _ _ Hvar) as HV.
  unfold step, action. rewrite Hst, Hb.
  change (ToStep HEADER (ToToken "[")) with OPEN_TAG. cbv beta iota.
  replace (match_at pgn (data s + 1) lit_FEN) with false
    by (unfold lit_FEN; cbn [lit list_ascii_of_string app match_at];
        rewrite HV; reflexivity).
  rewrite Hvar, Hstd. cbn [negb andb].
  pstate_eq s.
Qed.

Lemma step_skip (s : PState) :
  state s = SKIP_GAME ->
  match_at pgn (data s - 1) lit_Event = false ->
  step pgn s = set_data (data s + 1) s.
Proof.
  intros Hst Hev. unfold step, action. rewrite Hst.
  destruct (ToToken (byte_at pgn (data s))); cbn [ToStep]; rewrite ?Hev;
    reflexivity.
Qed.

Lemma step_skip_event (s : PState) :
  state s = SKIP_GAME ->
  match_at pgn (data s - 1) lit_Event = true ->
  step pgn s = set_state HEADER (set_data (data s - 1) s).
Proof.
  intros Hst Hev.
  pose proof (match_at_second _ _ _ _ _ Hev) as HE.
  replace (data s - 1 + 1) with (data s) in HE by lia.
  unfold step, action. rewrite Hst, HE.
  change (ToStep SKIP_GAME (ToToken "E")) with GAME_START. cbv beta iota.
  rewrite Hev. pstate_eq s.
Qed.

Lemma no_event_spec (d : Z) (k i : nat) :
  no_event pgn d k = true -> (i < k)%nat ->
  match_at pgn (d + Z.of_nat i) lit_Event = false.
Proof.
  revert d i. induction k as [|k IH]; intros d i Hno Hi; [lia|].
  cbn [no_event] in Hno. apply andb_true_iff in Hno. destruct Hno as [H0 Hk].
  destruct i as [|i].
  - rewrite Z.add_0_r. now apply negb_true_iff.
  - replace (d + Z.of_nat (S i)) with (d + 1 + Z.of_nat i) by lia.
    apply IH; [exact Hk | lia].
Qed.

(** The loop takes [n] turns when the cursor stays inside the file. *)
Lemma parse_loop_iter (n fuel : nat) (s : PState) :
  (forall j, (j < n)%nat -> data (Nat.iter j (step pgn) s) < eof pgn) ->
  parse_loop pgn (n + fuel) s = parse_loop pgn fuel (Nat.iter n (step pgn) s).
Proof.
  revert s. induction n as [|n IH]; intros s Hin; [reflexivity|].
  cbn [Nat.add parse_loop].
  replace (data s <? eof pgn) with true
    by (symmetry; apply Z.ltb_lt; apply (Hin O); lia).
  rewrite IH.
  - now rewrite <- Nat.iter_succ_r.
  - intros j Hj. rewrite <- Nat.iter_succ_r. apply Hin. lia.
Qed.

(** C8: when the parser, in [HEADER], opens a [Variant] tag whose value
    is not ["Standard"], it goes to [SKIP_GAME] and passes over the text
    up to the next [[Event ] without touching the table, the counters,
    the buffers or the diagnostics; the loop resumes in [HEADER] at the
    bracket of that tag, and when the file ends first nothing is
    accounted for at the end. *)
Theorem variant_game_skipped (s : PState) (k : nat) :
  state s = HEADER ->
  byte_at pgn (data s) = "["%char ->
  match_at pgn (data s + 1) lit_Variant = true ->
  match_at pgn (data s + 9) lit_Standard = false ->
  no_event pgn (data s) k = true ->
  (forall j, (j <= k)%nat ->
     Nat.iter (S j) (step pgn) s
     = set_state SKIP_GAME (set_data (data s + 1 + Z.of_nat j) s))
  /\ (match_at pgn (data s + Z.of_nat k) lit_Event = true ->
      forall fuel,
        parse_loop pgn (k + 2 + fuel) s
        = parse_loop pgn fuel (set_data (data s + Z.of_nat k) s))
  /\ (data s + 1 + Z.of_nat k = eof pgn ->
      forall fuel,
        parse_loop pgn (k + 1 + S fuel) s
        = Some (set_state SKIP_GAME (set_data (eof pgn) s))
        /\ at_eof (set_state SKIP_GAME (set_data (eof pgn) s))
           = set_state SKIP_GAME (set_data (eof pgn) s)).
Proof.
  intros Hst Hb Hvar Hstd Hno.
  assert (Hskip : forall j, (j <= k)%nat ->
            Nat.iter (S j) (step pgn) s
            = set_state SKIP_GAME (set_data (data s + 1 + Z.of_nat j) s)).
  { induction j as [|j IH]; intros Hj.
    - cbn [Nat.iter nat_rect]. rewrite Z.add_0_r.
      now apply step_open_variant.
    - rewrite Nat.iter_succ, IH by lia.
      rewrite step_skip.
      + clear - s. pstate_eq s.
      + reflexivity.
      + cbn [data set_state set_data].
        replace (data s + 1 + Z.of_nat j - 1) with (data s + Z.of_nat j) by lia.
        apply (no_event_spec _ k); [exact Hno | lia]. }
  assert (Hstart : 0 <= data s < eof pgn).
  { apply byte_at_range. rewrite Hb. discriminate. }
  assert (Hdata : forall j, (j <= S k)%nat ->
            data (Nat.iter j (step pgn) s) = data s + Z.of_nat j).
  { intros [|j] Hj; [cbn; lia|]. rewrite Hskip by lia.
    cbn [data set_state set_data]. lia. }
  split; [exact Hskip|]. split.
  - intros Hev fuel.
    assert (HE : 0 <= data s + Z.of_nat k + 1 < eof pgn).
    { apply byte_at_range.
      rewrite (match_at_second _ _ _ _ _ Hev). discriminate. }
    replace (k + 2 + fuel)%nat with (S (S k) + fuel)%nat by lia.
    rewrite parse_loop_iter.
    + f_equal. rewrite Nat.iter_succ, Hskip by lia.
      rewrite step_skip_event.
      * clear - Hst. pstate_eq s.
      * reflexivity.
      * cbn [data set_state set_data].
        replace (data s + 1 + Z.of_nat k - 1) with (data s + Z.of_nat k) by lia.
        exact Hev.
    + intros j Hj. rewrite Hdata by lia. lia.
  - intros Hend fuel. split.
    + replace (k + 1 + S fuel)%nat with (S k + S fuel)%nat by lia.
      rewrite parse_loop_iter.
      * rewrite Hskip by lia. cbn [parse_loop].
        cbn [data set_state set_data].
        replace (data s + 1 + Z.of_nat k <? eof pgn) with false
          by (symmetry; apply Z.ltb_ge; lia).
        now rewrite Hend.
      * intros j Hj. rewrite Hdata by lia. lia.
    + apply at_eof_nothing. right. left. reflexivity.
Qed.
End SkipGame.

(** The Chess960 game of [pgn_variant]: its tag opens at offset 12 and
    the next [[Event ] stands 35 bytes further; only the second game is
    counted and no diagnostic is printed. *)
Lemma variant_game_skipped_witness :
  let s := set_data 12 (initial_state []) in
  Nat.iter 12 (step (E := script_engine) pgn_variant) (initial_state []) = s
  /\ (forall fuel,
        parse_loop (E := script_engine) pgn_variant (35 + 2 + fuel) s
        = parse_loop (E := script_engine) pgn_variant fuel (set_data 47 s))
  /\ parse_pgn (E := script_engine) pgn_variant []
     = Some (mkStats 1 1 0, [mkPolyEntry 7 6452 1 0xC0000000], []).
Proof.
  cbv zeta. split; [vm_compute; reflexivity|]. split.
  - exact (proj1 (proj2 (variant_game_skipped (E := script_engine) pgn_variant
             (set_data 12 (initial_state [])) 35
             eq_refl eq_refl eq_refl eq_refl eq_refl)) eq_refl).
  - vm_compute. reflexivity.
Defined.

(** C8, where the claim as it is written fails: two Chess960 games that
    are replayed and counted.  In [pgn_variant_first] the [Variant] tag
    stands before the [Event] tag of its game: the parser goes to
    [SKIP_GAME] at the tag and resumes at the [[Event ] of the same game,
    whose two moves are recorded.  In [pgn_variant_in_move_text] the
    brackets and the digits of the [Event] value take the parser out of
    [HEADER]; the [Variant] tag is then met by [MISSING_RESULT], which
    enters it as any tag, and the two moves are recorded as well. *)
Theorem variant_game_recorded :
  state (step (E := script_engine) pgn_variant_first (initial_state []))
  = SKIP_GAME
  /\ summary (E := script_engine) pgn_variant_first
     = Some (1, 2, 2%nat, [0; 0])
  /\ summary (E := script_engine) pgn_variant_in_move_text
     = Some (2, 2, 2%nat, [0; 0]).
Proof. repeat split; vm_compute; reflexivity. Qed.

(** ** The scenarios of the specification, on the scripted engine *)

Example scenario_empty :
  summary (E := script_engine) [] = Some (0, 0, 0%nat, []).
Proof. vm_compute. reflexivity. Qed.

Example scenario_one_game :
  summary (E := script_engine) pgn_one_game = Some (1, 4, 4%nat, [0; 0; 0; 0]).
Proof. vm_compute. reflexivity. Qed.

Example scenario_black_to_move :
  summary (E := script_engine) pgn_black_to_move = Some (1, 2, 2%nat, [2; 2]).
Proof. vm_compute. reflexivity. Qed.

Example scenario_unclosed_brace :
  summary (E := script_engine) pgn_unclosed_brace = Some (2, 2, 2%nat, [3; 3]).
Proof. vm_compute. reflexivity. Qed.

Example scenario_variant :
  summary (E := script_engine) pgn_variant = Some (1, 1, 1%nat, [3]).
Proof. vm_compute. reflexivity. Qed.

Example scenario_variation :
  summary (E := script_engine) pgn_variation = Some (1, 4, 4%nat, [0; 0; 0; 0]).
Proof. vm_compute. reflexivity. Qed.

(** ** A table of a single key *)

Lemma reweight_loop_single_key (fuel : nat) (t : Keys) (idx last u : nat) :
  (forall i j, (i < length t)%nat -> (j < length t)%nat ->
               key (nth i t PolyEntry_zero) = key (nth j t PolyEntry_zero)) ->
  (length t - idx < fuel)%nat ->
  reweight_loop fuel t idx last u = Some (t, u).
Proof.
  intros Hkeys. revert idx.
  induction fuel as [|fuel IH]; intros idx Hfuel; [lia|].
  cbn [reweight_loop].
  destruct (Nat.ltb_spec idx (length t)) as [Hlt|Hge]; [|reflexivity].
  rewrite (Hkeys idx (idx - 1)%nat) by lia. rewrite Z.eqb_refl. cbn [negb].
  apply IH. lia.
Qed.

(** Whatever its length, a table whose records share one key leaves the
    post-processing as the global sort made it: the loop never reaches
    [sort_by_frequency]. *)
Lemma post_process_single_key (kTable : Keys) (k : Z) :
  Forall (fun e => key e = k) kTable ->
  post_process kTable = Some (std_sort poly_lt kTable, 1%nat).
Proof.
  intros Hk. unfold post_process.
  apply reweight_loop_single_key; [|lia].
  assert (Hs : Forall (fun e => key e = k) (std_sort poly_lt kTable))
    by (eapply Permutation_Forall; [apply std_sort_perm | exact Hk]).
  rewrite Forall_forall in Hs.
  intros i j Hi Hj.
  rewrite (Hs _ (nth_In _ _ Hi)), (Hs _ (nth_In _ _ Hj)). reflexivity.
Qed.

(** ** The invariants along the loop *)

Section LoopInvariants.
Context {E : Engine}.
Variable pgn : list ascii.

Lemma parse_loop_invariants (fuel : nat) (s r : PState) :
  parse_loop pgn fuel s = Some r ->
  stack_ok (state s) (stateStack s) -> result_unknown s ->
  stack_ok (state r) (stateStack r) /\ result_unknown r.
Proof.
  revert s. induction fuel as [|fuel IH]; intros s Hr Hok Hres; [discriminate|].
  cbn [parse_loop] in Hr.
  destruct (data s <? eof pgn).
  - apply (IH _ Hr); [now apply stack_ok_step | now apply result_unknown_step].
  - injection Hr as <-. now split.
Qed.

(** [POP_STATE] finds a state on the stack. *)
Lemma pop_state_defined (s : PState) :
  stack_ok (state s) (stateStack s) ->
  ToStep (state s) (ToToken (byte_at pgn (data s))) = POP_STATE ->
  stateStack s <> [].
Proof.
  intros Hok Hpop.
  assert (Hn : nested (state s) = true).
  { destruct (state s); destruct (ToToken (byte_at pgn (data s)));
      cbn in Hpop; (discriminate || reflexivity). }
  destruct (stack_ok_nested _ _ Hn Hok) as (top & rest & -> & _). discriminate.
Qed.

(** [assert (result == 3)] holds where the source states it. *)
Lemma result_assertion_holds (s : PState) :
  result_unknown s ->
  ToStep (state s) (ToToken (byte_at pgn (data s))) = START_RESULT
  \/ ToStep (state s) (ToToken (byte_at pgn (data s))) = CASTLE_OR_RESULT ->
  result s = 3.
Proof.
  intros [[Hst|Hres] _] Hact; [|exact Hres].
  rewrite Hst in Hact.
  destruct (ToToken (byte_at pgn (data s))); cbn in Hact;
    destruct Hact; discriminate.
Qed.
End LoopInvariants.

(** ** The two defects, end to end on the scripted engine *)

(** Three games that open with the same move give one run of three
    records; it ends the table, so the weights stay 1 where the share of
    the move is [3 * 0xFFFF / 3 = 0xFFFF]. *)
Example three_games_keep_weight_one :
  match parse_pgn (E := script_engine) pgn_three_games [] with
  | Some (_, table, _) => post_process table
  | None => None
  end
  = Some ([mkPolyEntry 7 6516 1 0xC0000000; mkPolyEntry 7 6516 1 0xC0000002;
           mkPolyEntry 7 6516 1 0xC0000005], 1%nat).
Proof. vm_compute. reflexivity. Qed.

(** In the full book of [pgn_two_keys] the run of the first key has two
    records; the probe at offset 0 reports four games for its move, two
    of them read from the run of the next key. *)
Example probe_built_book :
  probe_key [] (book_of (E := script_engine) pgn_two_keys true) 0 10 0
  = Some [mkMoveInfo 6516 1 [2; 2; 0; 0] [0; 24; 0; 24]]
  /\ option_map (fun book => length (key_run book 0))
                (book_of (E := script_engine) pgn_two_keys true)
     = Some 2%nat.
Proof. split; vm_compute; reflexivity. Qed.

(** * Further properties of the code *)

(** ** The writer and the reader *)

Lemma write_fold (k : nat) (n acc : Z) :
  fold_left (fun a b => a * 256 + b) (write k n) acc
  = acc * 2 ^ (8 * Z.of_nat k) + n mod 2 ^ (8 * Z.of_nat k).
Proof.
  revert acc. induction k as [|k IH]; intros acc.
  - cbn [write fold_left]. rewrite Z.mod_1_r. cbn. lia.
  - cbn [write fold_left]. rewrite IH, <- low_bytes_split.
    replace (8 * Z.of_nat (S k)) with (8 * Z.of_nat k + 8) by lia.
    rewrite Z.pow_add_r by lia. ring.
Qed.

(** X1: [write<T>] stores [sizeof(T)] bytes, each in 0..255, that spell
    the value reduced to the width of [T], most significant byte first. *)
Theorem write_big_endian (sz : nat) (n : Z) :
  length (write sz n) = sz
  /\ Forall (fun b => 0 <= b < 256) (write sz n)
  /\ be_value (write sz n) = n mod 2 ^ (8 * Z.of_nat sz).
Proof.
  split; [apply write_length|]. split.
  - induction sz as [|k IH]; cbn [write]; constructor; [|exact IH].
    unfold uint8, wrap. apply Z.mod_pos_bound. lia.
  - unfold be_value. rewrite write_fold. lia.
Qed.

Lemma read_entries_serialise (t : Keys) (rest : ifstream) :
  Forall wf_entry t -> read_entries (length t) (serialise t ++ rest) = t.
Proof.
  induction 1 as [|e t He _ IH]; [reflexivity|].
  cbn [length read_entries]. rewrite serialise_cons, <- app_assoc.
  rewrite read_write_entry by exact He. now rewrite IH.
Qed.

(** X2: a table of records whose fields fit their widths is read back,
    record by record, from the bytes it was serialised to; two such
    tables with the same bytes are the same table. *)
Theorem serialise_round_trip (t : Keys) (rest : ifstream) :
  Forall wf_entry t ->
  read_entries (length t) (serialise t ++ rest) = t
  /\ (forall t', Forall wf_entry t' -> serialise t' = serialise t -> t' = t).
Proof.
  intros Ht. split; [now apply read_entries_serialise|].
  intros t' Ht' Heq.
  assert (Hlen : length t' = length t).
  { apply (f_equal (@length Z)) in Heq. rewrite !serialise_length in Heq.
    unfold SizeOfPolyEntry in Heq. lia. }
  rewrite <- (read_entries_serialise t' [] Ht'), <- (read_entries_serialise t [] Ht).
  now rewrite Heq, Hlen.
Qed.

Lemma serialise_round_trip_witness :
  let t := [mkPolyEntry 0x0123456789ABCDEF 0x1A2B 0xFFFF 0xC0000001;
            mkPolyEntry 7 796 1 0] in
  Forall wf_entry t
  /\ read_entries 2 (serialise t ++ [9; 9]) = t.
Proof.
  assert (H : Forall wf_entry
                [mkPolyEntry 0x0123456789ABCDEF 0x1A2B 0xFFFF 0xC0000001;
                 mkPolyEntry 7 796 1 0]).
  { repeat constructor; cbn; lia. }
  split; [exact H|].
  exact (proj1 (serialise_round_trip _ [9; 9] H)).
Defined.

(** ** [write_poly_file]: what is written *)

Lemma survivors_length (prev : PolyEntry) (l : Keys) :
  (length (survivors prev l) <= length l)%nat.
Proof.
  revert prev. induction l as [|e l IH]; intros prev; cbn [survivors length].
  - apply Nat.le_refl.
  - specialize (IH e). destruct (same_key_move prev e); cbn [length]; lia.
Qed.

Lemma survivors_incl (prev : PolyEntry) (l : Keys) : incl (survivors prev l) l.
Proof.
  revert prev. induction l as [|e l IH]; intros prev; cbn [survivors].
  - apply incl_nil_l.
  - destruct (same_key_move prev e).
    + apply incl_tl, IH.
    + apply incl_cons; [now left | apply incl_tl, IH].
Qed.

Lemma same_key_move_eq (p q : PolyEntry) :
  same_key_move p q = true -> key p = key q /\ move p = move q.
Proof.
  unfold same_key_move. intros H. apply andb_true_iff in H.
  destruct H as [Hk Hm]. now apply Z.eqb_eq in Hk, Hm.
Qed.

Lemma survivors_idem (prev : PolyEntry) (l : Keys) :
  survivors prev (survivors prev l) = survivors prev l.
Proof.
  revert prev. induction l as [|e l IH]; intros prev; cbn [survivors]; [reflexivity|].
  destruct (same_key_move prev e) eqn:He.
  - destruct (same_key_move_eq _ _ He) as [Hk Hm].
    rewrite (survivors_ext prev e (survivors e l) Hk Hm). apply IH.
  - cbn [survivors]. rewrite He. now rewrite IH.
Qed.

(** X3: [write_poly_file] returns sixteen times the number of entries it
    wrote: all of them with [full], and without it never more, each one
    an entry of the table; writing the surviving entries once more
    without [full] gives the same file. *)
Theorem write_poly_file_size (kTable : Keys) :
  snd (write_poly_file kTable true) = 16 * Z.of_nat (length kTable)
  /\ snd (write_poly_file kTable false)
     = 16 * Z.of_nat (length (survivors PolyEntry_zero kTable))
  /\ snd (write_poly_file kTable false) <= snd (write_poly_file kTable true)
  /\ incl (survivors PolyEntry_zero kTable) kTable
  /\ write_poly_file (survivors PolyEntry_zero kTable) false
     = write_poly_file kTable false.
Proof.
  assert (Hf : snd (write_poly_file kTable true) = 16 * Z.of_nat (length kTable)).
  { unfold write_poly_file. cbn [snd].
    rewrite write_poly_loop_full, serialise_length. unfold SizeOfPolyEntry. lia. }
  assert (Hd : snd (write_poly_file kTable false)
               = 16 * Z.of_nat (length (survivors PolyEntry_zero kTable))).
  { unfold write_poly_file. cbn [snd].
    rewrite write_poly_loop_dedup, serialise_length. unfold SizeOfPolyEntry. lia. }
  split; [exact Hf|]. split; [exact Hd|]. split; [|split].
  - rewrite Hf, Hd. pose proof (survivors_length PolyEntry_zero kTable). lia.
  - apply survivors_incl.
  - unfold write_poly_file. now rewrite !write_poly_loop_dedup, survivors_idem.
Qed.

(** ** [sort_by_frequency]: what it changes and what it keeps *)

Lemma firstn_splice {A : Type} (s e : nat) (l b : list A) :
  (s <= length l)%nat -> firstn s (firstn s l ++ b ++ skipn e l) = firstn s l.
Proof.
  intros H. rewrite firstn_app, length_firstn.
  replace (s - Nat.min s (length l))%nat with O by lia.
  cbn [firstn]. rewrite app_nil_r. rewrite firstn_firstn. f_equal. lia.
Qed.

Lemma strip_set_weight (e : PolyEntry) (w : Z) :
  strip_weight (set_weight e w) = strip_weight e.
Proof. reflexivity. Qed.

(** X4: [sort_by_frequency] returns [end]; it leaves the table outside
    the run as it was and keeps its length, and the run it hands back
    holds the records it was given, in some order, with nothing but their
    weights rewritten. *)
Theorem sort_by_frequency_keeps_records (t : Keys) (s e : nat) :
  (s <= e <= length t)%nat ->
  snd (sort_by_frequency t s e) = e
  /\ length (fst (sort_by_frequency t s e)) = length t
  /\ firstn s (fst (sort_by_frequency t s e)) = firstn s t
  /\ skipn e (fst (sort_by_frequency t s e)) = skipn e t
  /\ Permutation (List.map strip_weight (slice s e (fst (sort_by_frequency t s e))))
                 (List.map strip_weight (slice s e t)).
Proof.
  intros Hb. split; [reflexivity|].
  pose proof (sort_by_frequency_run_length t s e Hb) as Hrun.
  split; [|split; [|split]].
  - unfold sort_by_frequency. cbn [fst].
    rewrite !length_app, Hrun, length_firstn, length_skipn. lia.
  - unfold sort_by_frequency. cbn [fst]. apply firstn_splice. lia.
  - now apply sort_by_frequency_after.
  - unfold sort_by_frequency. cbn [fst].
    rewrite slice_splice; [| exact Hb | exact Hrun].
    eapply Permutation_trans.
    + apply Permutation_map, Permutation_sym, std_sort_perm.
    + rewrite map_map. erewrite map_ext; [apply Permutation_refl|].
      intros a. apply strip_set_weight.
Qed.

Lemma sort_by_frequency_keeps_records_witness :
  let t := [mkPolyEntry 1 7 1 0; mkPolyEntry 2 4 1 8; mkPolyEntry 2 9 1 16;
            mkPolyEntry 2 9 1 24; mkPolyEntry 3 1 1 32] in
  (1 <= 4 <= length t)%nat
  /\ fst (sort_by_frequency t 1 4)
     = [mkPolyEntry 1 7 1 0; mkPolyEntry 2 9 43690 16; mkPolyEntry 2 9 43690 24;
        mkPolyEntry 2 4 21845 8; mkPolyEntry 3 1 1 32]
  /\ Permutation
       (List.map strip_weight (slice 1 4 (fst (sort_by_frequency t 1 4))))
       (List.map strip_weight (slice 1 4 t)).
Proof.
  cbv zeta.
  assert (H : (1 <= 4 <= length [mkPolyEntry 1 7 1 0; mkPolyEntry 2 4 1 8;
                 mkPolyEntry 2 9 1 16; mkPolyEntry 2 9 1 24; mkPolyEntry 3 1 1 32])%nat)
    by (cbn; lia).
  split; [exact H|]. split; [reflexivity|].
  exact (proj2 (proj2 (proj2 (proj2 (sort_by_frequency_keeps_records _ 1 4 H))))).
Defined.

Lemma count_move_in (x : PolyEntry) (l : Keys) : In x l -> 1 <= count_move (move x) l.
Proof.
  intros Hin. unfold count_move.
  assert (Hf : In x (filter (fun e => move e =? move x) l)).
  { apply filter_In. split; [exact Hin | apply Z.eqb_refl]. }
  destruct (filter (fun e => move e =? move x) l); [contradiction|].
  cbn [length]. lia.
Qed.

(** X5: in a run of at most 32768 records handed to [sort_by_frequency]
    every record comes back with the share of its move among the records
    of the run, scaled to [0xFFFF]: a weight between 1 and [0xFFFF], so
    no move of the run is switched off; a run of one move gets [0xFFFF]. *)
Theorem sort_by_frequency_shares (t : Keys) (s e : nat) :
  (s < e <= length t)%nat -> Z.of_nat (e - s) <= 32768 ->
  Forall (fun x =>
            weight x = count_move (move x) (slice s e t) * 0xFFFF / Z.of_nat (e - s)
            /\ 1 <= weight x <= 0xFFFF
            /\ (count_move (move x) (slice s e t) = Z.of_nat (e - s) ->
                weight x = 0xFFFF))
         (slice s e (fst (sort_by_frequency t s e))).
Proof.
  intros Hb Hlen.
  pose proof (sort_by_frequency_weights t s e Hb Hlen) as Hw.
  assert (Hin : Forall (fun x => exists y, In y (slice s e t) /\ move y = move x)
                       (slice s e (fst (sort_by_frequency t s e)))).
  { unfold sort_by_frequency. cbn [fst].
    rewrite slice_splice; [| lia | apply sort_by_frequency_run_length; lia].
    eapply Permutation_Forall; [apply std_sort_perm|].
    apply Forall_map. apply Forall_forall. intros y Hy. now exists y. }
  rewrite Forall_forall in Hw, Hin |- *. intros x Hx.
  destruct (Hin x Hx) as (y & Hy & Hmove).
  pose proof (count_move_in y _ Hy) as H1. rewrite Hmove in H1.
  pose proof (count_move_bounds (move x) (slice s e t)) as H2.
  rewrite slice_length in H2 by lia.
  rewrite (Hw x Hx).
  split; [reflexivity|]. split; [split|].
  - apply Z.div_le_lower_bound; lia.
  - apply Z.div_le_upper_bound; [lia|]. nia.
  - intros ->. rewrite Z.mul_comm. apply Z.div_mul. lia.
Qed.

Lemma sort_by_frequency_shares_witness :
  let t := [mkPolyEntry 2 4 1 8; mkPolyEntry 2 9 1 16; mkPolyEntry 2 9 1 24] in
  (0 < 3 <= length t)%nat /\ Z.of_nat (3 - 0) <= 32768
  /\ Forall (fun x => 1 <= weight x <= 0xFFFF)
            (slice 0 3 (fst (sort_by_frequency t 0 3))).
Proof.
  cbv zeta.
  assert (H : (0 < 3 <= length [mkPolyEntry 2 4 1 8; mkPolyEntry 2 9 1 16;
                                mkPolyEntry 2 9 1 24])%nat) by (cbn; lia).
  assert (H' : Z.of_nat (3 - 0) <= 32768) by (cbn; lia).
  split; [exact H|]. split; [exact H'|].
  eapply Forall_impl; [|exact (sort_by_frequency_shares _ 0 3 H H')].
  intros x Hx. exact (proj1 (proj2 Hx)).
Defined.

(** ** The post-processing: records and [uniqueKeys] *)

Lemma sort_by_frequency_perm (t : Keys) (s e : nat) :
  (s <= e <= length t)%nat ->
  Permutation (List.map strip_weight t)
              (List.map strip_weight (fst (sort_by_frequency t s e))).
Proof.
  intros Hb. unfold sort_by_frequency. cbn [fst].
  rewrite (slice_split s e t) at 1 by lia.
  rewrite !map_app. apply Permutation_app_head, Permutation_app_tail.
  eapply Permutation_trans; [|apply Permutation_map, std_sort_perm].
  rewrite map_map. erewrite map_ext; [apply Permutation_refl|].
  intros a. symmetry. apply strip_set_weight.
Qed.

Lemma reweight_loop_perm (fuel : nat) :
  forall (t : Keys) (idx last u : nat) (t' : Keys) (u' : nat),
    (last <= idx)%nat ->
    reweight_loop fuel t idx last u = Some (t', u') ->
    Permutation (List.map strip_weight t) (List.map strip_weight t').
Proof.
  induction fuel as [|fuel IH]; intros t idx last u t' u' Hle Hloop; [discriminate|].
  cbn [reweight_loop] in Hloop.
  destruct (Nat.ltb_spec idx (length t)) as [Hlt|Hge].
  2:{ injection Hloop as <- _. apply Permutation_refl. }
  destruct (negb _).
  - destruct (Nat.ltb_spec 2 (idx - last)) as [Hlong|Hshort].
    + change (sort_by_frequency t last idx)
        with (fst (sort_by_frequency t last idx), idx) in Hloop.
      cbv beta iota in Hloop.
      eapply Permutation_trans; [apply (sort_by_frequency_perm t last idx); lia|].
      eapply IH; [|exact Hloop]. lia.
    + eapply IH; [|exact Hloop]. lia.
  - eapply IH; [|exact Hloop]. lia.
Qed.

(** X6: the post-processing of [make_book] neither drops nor invents a
    record: the table it leaves holds the records it was given, in
    another order, with nothing but weights rewritten. *)
Theorem post_process_keeps_records (kTable t : Keys) (u : nat) :
  post_process kTable = Some (t, u) ->
  Permutation (List.map strip_weight kTable) (List.map strip_weight t).
Proof.
  unfold post_process. intros H.
  eapply Permutation_trans; [apply Permutation_map, (std_sort_perm poly_lt)|].
  eapply reweight_loop_perm; [|exact H]. lia.
Qed.

Lemma post_process_keeps_records_witness :
  Permutation
    (List.map strip_weight
       [mkPolyEntry 1 7 1 0; mkPolyEntry 1 4 1 8; mkPolyEntry 1 7 1 16;
        mkPolyEntry 2 9 1 0])
    (List.map strip_weight
       [mkPolyEntry 1 7 43690 0; mkPolyEntry 1 7 43690 16;
        mkPolyEntry 1 4 21845 8; mkPolyEntry 2 9 1 0]).
Proof.
  exact (post_process_keeps_records _ _ _ post_process_reweights_inner_run).
Defined.

Lemma skipn_nth_cons {A : Type} (i : nat) (l : list A) (d : A) :
  (i < length l)%nat -> skipn i l = nth i l d :: skipn (S i) l.
Proof.
  revert i. induction l as [|a l IH]; intros i Hi; [cbn in Hi; lia|].
  destruct i as [|i]; [reflexivity|].
  cbn [skipn nth]. apply IH. cbn [length] in Hi. lia.
Qed.

Lemma key_changes_step (ks : list Z) (idx : nat) :
  (1 <= idx < length ks)%nat ->
  key_changes (skipn (idx - 1) ks)
  = Nat.add (if Z.eqb (nth (idx - 1) ks 0) (nth idx ks 0) then O else 1%nat)
            (key_changes (skipn idx ks)).
Proof.
  intros H.
  rewrite (skipn_nth_cons (idx - 1) ks 0) by lia.
  replace (S (idx - 1)) with idx by lia.
  rewrite (skipn_nth_cons idx ks 0) by lia.
  reflexivity.
Qed.

Lemma key_changes_end (ks : list Z) (idx : nat) :
  (length ks <= idx)%nat -> key_changes (skipn (idx - 1) ks) = O.
Proof.
  intros H.
  destruct (Nat.le_gt_cases (length ks) (idx - 1)) as [Hle|Hgt].
  - now rewrite skipn_all2.
  - rewrite (skipn_nth_cons (idx - 1) ks 0) by lia.
    rewrite skipn_all2 by lia. reflexivity.
Qed.

Lemma reweight_loop_unique (t0 : Keys) (fuel : nat) :
  forall (t : Keys) (idx last u : nat),
    reweight_inv t0 t idx last ->
    (length t0 - idx < fuel)%nat ->
    exists t' u',
      reweight_loop fuel t idx last u = Some (t', u')
      /\ u' = (u + key_changes (skipn (idx - 1) (List.map key t0)))%nat.
Proof.
  induction fuel as [|fuel IH]; intros t idx last u Hinv Hfuel; [lia|].
  pose proof (reweight_inv_length _ _ _ _ Hinv) as Hlen.
  assert (Hidx : (1 <= idx)%nat) by (destruct Hinv as (_ & H & _); lia).
  cbn [reweight_loop]. rewrite Hlen.
  destruct (Nat.ltb_spec idx (length t0)) as [Hlt|Hge].
  2:{ exists t, u. split; [reflexivity|].
      rewrite key_changes_end by (rewrite length_map; lia). lia. }
  rewrite !nth_key.
  replace (List.map key t) with (List.map key t0) by (symmetry; apply Hinv).
  rewrite key_changes_step by (rewrite length_map; lia).
  rewrite (Z.eqb_sym (nth (idx - 1) _ 0)).
  destruct (Z.eqb_spec (nth idx (List.map key t0) 0)
                       (nth (idx - 1) (List.map key t0) 0)) as [Heq|Hne];
    cbn [negb].
  - destruct (IH t (S idx) last u) as (t' & u' & Hl & Hu);
      [apply reweight_inv_same; assumption | lia |].
    exists t', u'. split; [exact Hl|].
    rewrite Hu. replace (S idx - 1)%nat with idx by lia. lia.
  - destruct (Nat.ltb_spec 2 (idx - last)) as [Hlong|Hshort].
    + change (sort_by_frequency t last idx)
        with (fst (sort_by_frequency t last idx), idx).
      cbv beta iota.
      destruct (IH (fst (sort_by_frequency t last idx)) (S idx) idx (S u))
        as (t' & u' & Hl & Hu);
        [apply reweight_inv_sort; assumption | lia |].
      exists t', u'. split; [exact Hl|].
      rewrite Hu. replace (S idx - 1)%nat with idx by lia. lia.
    + destruct (IH t (S idx) idx (S u)) as (t' & u' & Hl & Hu);
        [apply (reweight_inv_keep t0 t idx last); assumption | lia |].
      exists t', u'. split; [exact Hl|].
      rewrite Hu. replace (S idx - 1)%nat with idx by lia. lia.
Qed.

Lemma sorted_not_in (a b : Z) (l : list Z) :
  StronglySorted Z.le (a :: b :: l) -> a <> b -> ~ In a (b :: l).
Proof.
  intros Hs Hne Hin.
  inversion Hs as [|? ? Hs' Ha]; subst.
  inversion Hs' as [|? ? _ Hb]; subst.
  inversion Ha as [|? ? Hab Hal]; subst.
  destruct Hin as [Heq|Hin]; [congruence|].
  rewrite Forall_forall in Hb. specialize (Hb a Hin). lia.
Qed.

Lemma distinct_sorted (ks : list Z) :
  StronglySorted Z.le ks -> ks <> [] ->
  length (nodup Z.eq_dec ks) = S (key_changes ks).
Proof.
  induction ks as [|a ks IH]; intros Hs Hne; [congruence|].
  destruct ks as [|b ks]; [reflexivity|].
  assert (Hs' : StronglySorted Z.le (b :: ks)) by (inversion Hs; assumption).
  specialize (IH Hs' ltac:(discriminate)).
  change (key_changes (a :: b :: ks))
    with (Nat.add (if a =? b then O else 1%nat) (key_changes (b :: ks))).
  change (nodup Z.eq_dec (a :: b :: ks))
    with (if in_dec Z.eq_dec a (b :: ks) then nodup Z.eq_dec (b :: ks)
          else a :: nodup Z.eq_dec (b :: ks)).
  destruct (in_dec Z.eq_dec a (b :: ks)) as [Hin|Hnin].
  - destruct (Z.eqb_spec a b) as [Heq|Hneq].
    + rewrite IH. reflexivity.
    + exfalso. now apply (sorted_not_in a b ks).
  - destruct (Z.eqb_spec a b) as [Heq|Hneq].
    + exfalso. apply Hnin. left. congruence.
    + cbn [length]. rewrite IH. lia.
Qed.

Lemma nodup_length_perm (l l' : list Z) :
  Permutation l l' -> length (nodup Z.eq_dec l) = length (nodup Z.eq_dec l').
Proof.
  intros Hp. apply Permutation_length.
  apply NoDup_Permutation; try apply NoDup_nodup.
  intros x. rewrite !nodup_In. split; apply Permutation_in;
    [exact Hp | now apply Permutation_sym].
Qed.

(** X7: the [uniqueKeys] that [make_book] reports is the number of
    different keys in the table; for an empty table it is 1, not 0,
    since the count starts at 1 before the loop. *)
Theorem post_process_unique_keys (kTable : Keys) :
  exists t, post_process kTable = Some (t, Nat.max 1 (distinct_keys kTable)).
Proof.
  unfold post_process. set (t0 := std_sort poly_lt kTable).
  destruct (reweight_loop_unique t0 (S (length t0)) t0 1 0 1
              (reweight_inv_init _) ltac:(lia)) as (t & u & Hl & Hu).
  exists t. rewrite Hl. do 2 f_equal. rewrite Hu. cbn [Nat.sub skipn].
  unfold distinct_keys.
  rewrite (nodup_length_perm (List.map key kTable) (List.map key t0))
    by (apply Permutation_map, std_sort_perm).
  destruct t0 as [|e t0'] eqn:Ht0; [reflexivity|].
  rewrite distinct_sorted.
  - lia.
  - rewrite <- Ht0. apply StronglySorted_map_key. apply std_sort_sorted.
    + apply poly_lt_asym.
    + apply poly_lt_negtrans.
  - discriminate.
Qed.

(** ** The [learn] field, written by [parse_game] and read by [probe_key] *)

Lemma lor_disjoint (k x y : Z) :
  0 <= k -> 0 <= y < 2 ^ k -> Z.lor (Z.shiftl x k) y = x * 2 ^ k + y.
Proof.
  intros Hk [Hy0 Hy1].
  assert (Hland : Z.land (Z.shiftl x k) y = 0).
  { destruct (Z.eq_dec y 0) as [->|Hne]; [apply Z.land_0_r|].
    apply Z.bits_inj'. intros n Hn.
    rewrite Z.land_spec, Z.bits_0.
    destruct (Z.lt_ge_cases n k) as [Hlt|Hge].
    - rewrite Z.shiftl_spec_low by exact Hlt. reflexivity.
    - rewrite (Z.bits_above_log2 y n); [apply andb_false_r | exact Hy0 |].
      apply Z.lt_le_trans with k; [|exact Hge].
      apply Z.log2_lt_pow2; [lia | exact Hy1]. }
  rewrite <- Z.lxor_lor by exact Hland.
  rewrite <- Z.add_nocarry_lxor by exact Hland.
  now rewrite Z.shiftl_mul_pow2 by lia.
Qed.

Lemma learn_of_sum (gameOfs r : Z) :
  learn_of gameOfs r = (r mod 4) * 2 ^ 30 + (gameOfs / 8) mod 2 ^ 30.
Proof.
  assert (E0 : Engine) by exact script_engine.
  rewrite (proj1 (learn_of_eq gameOfs r)).
  rewrite Z.shiftr_div_pow2 by lia. change (2 ^ 3) with 8.
  change (Z.land r 3) with (Z.land r (Z.ones 2)).
  change 0x3FFFFFFF with (Z.ones 30).
  rewrite !Z.land_ones by lia.
  change (2 ^ 2) with 4.
  apply lor_disjoint; [lia|].
  apply Z.mod_pos_bound. lia.
Qed.

(** X8: what [probe_key] decodes from the [learn] that [parse_game]
    stores: the result bucket is the result modulo 4, and the offset is
    the game offset with its three low bits cleared, as long as the
    offset is below 4 GiB; beyond that the 32-bit shift of the probe
    drops the top bit that [learn] still holds. *)
Theorem learn_round_trip (gameOfs r : Z) :
  Z.land (Z.shiftr (learn_of gameOfs r) 30) 3 = r mod 4
  /\ decode_ofs (learn_of gameOfs r) = 8 * ((gameOfs / 8) mod 2 ^ 29)
  /\ (0 <= gameOfs < 2 ^ 32 ->
      decode_ofs (learn_of gameOfs r) = gameOfs - gameOfs mod 8).
Proof.
  assert (Hr : 0 <= r mod 4 < 4) by (apply Z.mod_pos_bound; lia).
  assert (Hg : 0 <= (gameOfs / 8) mod 2 ^ 30 < 2 ^ 30)
    by (apply Z.mod_pos_bound; lia).
  assert (Hdec : decode_ofs (learn_of gameOfs r) = 8 * ((gameOfs / 8) mod 2 ^ 29)).
  { unfold decode_ofs, uint32, wrap. rewrite learn_of_sum.
    change 0x3FFFFFFF with (Z.ones 30). rewrite Z.land_ones by lia.
    rewrite Z.add_comm, Z.mod_add by lia. rewrite Z.mod_mod by lia.
    rewrite Z.shiftl_mul_pow2 by lia.
    change (2 ^ 32) with (2 ^ 3 * 2 ^ 29). change (2 ^ 30) with (2 * 2 ^ 29).
    rewrite (Z.mul_comm _ (2 ^ 3)).
    rewrite Z.mul_mod_distr_l by lia.
    rewrite Z.mod_mod_divide by (exists 2; reflexivity).
    reflexivity. }
  split; [|split; [exact Hdec|]].
  - rewrite learn_of_sum. rewrite Z.shiftr_div_pow2 by lia.
    rewrite Z.div_add_l by lia. rewrite (Z.div_small _ (2 ^ 30)) by exact Hg.
    change 3 with (Z.ones 2). rewrite Z.land_ones by lia.
    rewrite Z.add_0_r. apply Z.mod_mod. lia.
  - intros Hofs. rewrite Hdec.
    rewrite Z.mod_small.
    + pose proof (Z.div_mod gameOfs 8 ltac:(lia)). lia.
    + split; [apply Z.div_pos; lia|]. apply Z.div_lt_upper_bound; lia.
Qed.

Lemma learn_round_trip_witness :
  0 <= 1003 < 2 ^ 32 /\ decode_ofs (learn_of 1003 2) = 1000.
Proof.
  split; [lia|].
  exact (proj2 (proj2 (learn_round_trip 1003 2)) ltac:(lia)).
Defined.

(** ** [parse_game]: the dry run and the full replay *)

Section ReplayMore.
Context {E : Engine}.

Lemma parse_game_loop_dry (fuel : nat) (learn_ : Z) (len : nat) :
  forall (pos : Position) (cur : list ascii) (kTable kTable' : Keys) (fixed : Z),
    match parse_game_loop fuel true learn_ len pos cur kTable fixed,
          parse_game_loop fuel false learn_ len pos cur kTable' fixed with
    | Some d, Some g =>
        g_ret d = g_ret g /\ g_fixed d = g_fixed g
        /\ g_table d = kTable /\ g_diag d = []
    | None, None => True
    | _, _ => False
    end.
Proof.
  induction fuel as [|fuel IH]; intros pos cur kTable kTable' fixed; [exact I|].
  cbn [parse_game_loop].
  destruct cur as [|c rest]; [repeat split|].
  destruct (san_to_move pos (c :: rest) fixed) as [mv fixed'].
  destruct (mv =? MOVE_NONE); [repeat split|].
  destruct (mv =? MOVE_NULL); apply IH.
Qed.

(** X9: the dry run of [parse_game] (the flavour [play_game] uses) walks
    the tokens exactly as the full run does: it returns the same cursor
    and leaves the same [fixed], while the table is untouched and nothing
    is printed, even when the engine refuses a token. *)
Theorem parse_game_dry_run (moves : list ascii) (kTable : Keys) (fen : list ascii)
        (fixed gameOfs result : Z) :
  let d := parse_game true moves kTable fen fixed gameOfs result in
  let g := parse_game false moves kTable fen fixed gameOfs result in
  g_ret d = g_ret g /\ g_fixed d = g_fixed g
  /\ g_table d = kTable /\ g_diag d = [].
Proof.
  cbv zeta.
  pose proof (parse_game_loop_dry (S (length moves)) (learn_of gameOfs result)
                (length moves) (start_position fen) moves kTable kTable fixed) as H.
  rewrite !parse_game_run in H. exact H.
Qed.

Lemma parse_game_loop_accepts_all (learn_ : Z) (len : nat) (pos : Position)
      (cur : list ascii) (fx : Z) (recs : Keys) (pos' : Position) (fx' : Z) :
  accepts learn_ pos cur fx recs pos' [] fx' ->
  forall (fuel : nat) (kTable : Keys),
    (length cur < fuel)%nat ->
    parse_game_loop fuel false learn_ len pos cur kTable fx
    = Some (mkGameResult len (kTable ++ recs) fx' []).
Proof.
  intros Hacc. remember [] as cur' eqn:Hcur'.
  induction Hacc as [pos cur fx
                    | pos cur fx fx1 recs pos' cur' fx' Hcur Hsan Hnn _ IH
                    | pos cur fx fx1 mv recs pos' cur' fx' Hcur Hsan Hnone Hnull _ IH];
    intros fuel kTable Hfuel.
  - subst cur. destruct fuel as [|fuel]; [lia|]. cbn [parse_game_loop].
    now rewrite app_nil_r.
  - destruct fuel as [|fuel]; [lia|]. cbn [parse_game_loop].
    destruct cur as [|c rest]; [contradiction|].
    rewrite Hsan.
    replace (MOVE_NULL =? MOVE_NONE) with false by (symmetry; now apply Z.eqb_neq).
    rewrite Z.eqb_refl.
    apply IH; [exact Hcur'|].
    pose proof (next_token_length c rest). cbn [length] in Hfuel. lia.
  - destruct fuel as [|fuel]; [lia|]. cbn [parse_game_loop].
    destruct cur as [|c rest]; [contradiction|].
    rewrite Hsan.
    replace (mv =? MOVE_NONE) with false by (symmetry; now apply Z.eqb_neq).
    replace (mv =? MOVE_NULL) with false by (symmetry; now apply Z.eqb_neq).
    rewrite IH; [| exact Hcur' |].
    + rewrite <- app_assoc. reflexivity.
    + pose proof (next_token_length c rest). cbn [length] in Hfuel. lia.
Qed.

(** X10: when the engine accepts every token of the buffer, [parse_game]
    returns [end], prints nothing, and has appended one record for each
    move that is not a null move, in the order of the game. *)
Theorem parse_game_accepts_all (moves : list ascii) (kTable : Keys)
        (fen : list ascii) (fixed gameOfs result : Z) (recs : Keys)
        (pos' : Position) (fx' : Z) :
  accepts (learn_of gameOfs result) (start_position fen) moves fixed
          recs pos' [] fx' ->
  parse_game false moves kTable fen fixed gameOfs result
  = mkGameResult (length moves) (kTable ++ recs) fx' [].
Proof.
  intros Hacc.
  pose proof (parse_game_run false moves kTable fen fixed gameOfs result) as Hrun.
  rewrite (parse_game_loop_accepts_all _ _ _ _ _ _ _ _ Hacc) in Hrun
    by apply Nat.lt_succ_diag_r.
  now injection Hrun.
Qed.
End ReplayMore.

(** A game of the scripted engine with a null move in the middle: two
    records, none for the null move. *)
Lemma parse_game_accepts_all_witness :
  let moves := lit "e4" ++ [NUL] ++ lit "--" ++ [NUL] ++ lit "d4" ++ [NUL] in
  let recs := [record_of (E := script_engine) 0 ([], 6516);
               record_of (E := script_engine) 0 ([65; 6516], 6452)] in
  accepts (E := script_engine) 0 [] moves 0 recs [6452; 65; 6516] [] 0
  /\ parse_game (E := script_engine) false moves [] [] 0 0 0
     = mkGameResult 9 recs 0 [].
Proof.
  cbv zeta.
  assert (Hacc : accepts (E := script_engine) 0 []
            (lit "e4" ++ [NUL] ++ lit "--" ++ [NUL] ++ lit "d4" ++ [NUL]) 0
            [record_of (E := script_engine) 0 ([], 6516);
             record_of (E := script_engine) 0 ([65; 6516], 6452)]
            [6452; 65; 6516] [] 0).
  { eapply (accepts_move (E := script_engine) 0 [] _ 0 0 6516);
      [discriminate | reflexivity | discriminate | discriminate |].
    eapply (accepts_null (E := script_engine) 0 [6516] _ 0 0);
      [discriminate | reflexivity | discriminate |].
    eapply (accepts_move (E := script_engine) 0 [65; 6516] _ 0 0 6452);
      [discriminate | reflexivity | discriminate | discriminate |].
    apply accepts_none. }
  split; [exact Hacc|].
  exact (parse_game_accepts_all (E := script_engine) _ [] [] 0 0 0 _ _ 0 Hacc).
Defined.

(** ** [to_polyglot] *)

(** X11: [to_polyglot] fits 16 bits.  A move that is not a promotion
    keeps its low 14 bits and loses the two flag bits above them; a
    promotion to a piece numbered knight to queen keeps its 12 bits of
    squares and carries the piece, counted from 1, above them, so that a
    queen (4) reaches bit 14. *)
Theorem to_polyglot_encoding {E : Engine} (m : Z) :
  0 <= to_polyglot m < 2 ^ 16
  /\ (type_of m <> PROMOTION -> to_polyglot m = m mod 2 ^ 14)
  /\ (type_of m = PROMOTION -> 1 <= promotion_type m - 1 <= 4 ->
      to_polyglot m = (promotion_type m - 1) * 4096 + m mod 4096
      /\ to_polyglot m / 4096 = promotion_type m - 1
      /\ to_polyglot m mod 4096 = m mod 4096).
Proof.
  split; [|split].
  - unfold to_polyglot. destruct (type_of m =? PROMOTION); apply wrap_range; lia.
  - intros Hn. unfold to_polyglot.
    replace (type_of m =? PROMOTION) with false by (symmetry; now apply Z.eqb_neq).
    change 0x3FFF with (Z.ones 14). rewrite Z.land_ones by lia.
    apply wrap_small. pose proof (Z.mod_pos_bound m (2 ^ 14) ltac:(lia)). lia.
  - intros Hp Hpt. unfold to_polyglot. rewrite Hp, Z.eqb_refl.
    change 0xFFF with (Z.ones 12). rewrite Z.land_ones by lia.
    pose proof (Z.mod_pos_bound m (2 ^ 12) ltac:(lia)) as Hm.
    rewrite Z.lor_comm, lor_disjoint by lia.
    change (2 ^ 12) with 4096 in *.
    unfold uint16. rewrite wrap_small by lia.
    split; [reflexivity|]. split.
    + rewrite Z.div_add_l by lia. rewrite Z.div_small by lia. lia.
    + rewrite Z.add_comm, Z.mod_add by lia. apply Z.mod_mod. lia.
Qed.

(** In the scripted engine, whose promotions follow the layout of the
    move enum: a queen promotion from square 52 to square 60. *)
Lemma to_polyglot_encoding_witness :
  let m := 0x4000 + 3 * 4096 + 52 * 64 + 60 in
  type_of (Engine := script_engine) m = PROMOTION (Engine := script_engine)
  /\ 1 <= promotion_type (Engine := script_engine) m - 1 <= 4
  /\ to_polyglot (E := script_engine) m = 4 * 4096 + 52 * 64 + 60.
Proof.
  cbv zeta.
  assert (Hp : type_of (Engine := script_engine) (0x4000 + 3 * 4096 + 52 * 64 + 60)
               = PROMOTION (Engine := script_engine)) by reflexivity.
  assert (Hr : 1 <= promotion_type (Engine := script_engine)
                      (0x4000 + 3 * 4096 + 52 * 64 + 60) - 1 <= 4) by (cbn; lia).
  split; [exact Hp|]. split; [exact Hr|].
  exact (proj1 (proj2 (proj2 (to_polyglot_encoding (E := script_engine) _)) Hp Hr)).
Defined.

(** ** The loop of [parse_pgn] *)

Section LoopFacts.
Context {E : Engine}.
Variable pgn : list ascii.

Ltac step_cases s Hst :=
  unfold step, action;
  destruct (state s) eqn:Hst; destruct (ToToken (byte_at pgn (data s)));
  cbn [ToStep];
  repeat match goal with
         | |- context [if ?b then _ else _] => destruct b eqn:?
         | |- context [match stm s with _ => _ end] => destruct (stm s)
         end;
  unfold do_MISSING_RESULT, do_START_READ_SAN, push_state, pop_state;
  try match goal with
      | |- context [match stateStack s with _ => _ end] =>
          destruct (stateStack s) as [|top rest] eqn:?
      end;
  cbn [state stateStack fen moves curMove moveCnt gameCnt fixed gameOfs
       result data stm kTable cerr
       set_state set_stateStack set_data set_fen set_moves
       set_result set_stm set_cerr finish_game].

Lemma after_turns_inv (P : PState -> Prop) :
  (forall s, data s < eof pgn -> P s -> P (step pgn s)) ->
  forall (n : nat) (s r : PState),
    after_turns pgn n s = Some r -> P s -> P r.
Proof.
  intros Hstep. induction n as [|n IH]; intros s r Hr Hs; cbn [after_turns] in Hr.
  - now injection Hr as <-.
  - destruct (Z.ltb_spec (data s) (eof pgn)) as [Hlt|]; [|discriminate].
    apply (IH _ _ Hr). now apply Hstep.
Qed.

Lemma parse_loop_after_turns (fuel : nat) (s r : PState) :
  parse_loop pgn fuel s = Some r ->
  eof pgn <= data r /\ exists n, after_turns pgn n s = Some r.
Proof.
  revert s. induction fuel as [|fuel IH]; intros s Hr; [discriminate|].
  cbn [parse_loop] in Hr.
  destruct (Z.ltb_spec (data s) (eof pgn)) as [Hlt|Hge].
  - destruct (IH _ Hr) as (Hd & n & Hn). split; [exact Hd|].
    exists (S n). cbn [after_turns].
    destruct (Z.ltb_spec (data s) (eof pgn)); [exact Hn | lia].
  - injection Hr as <-. split; [exact Hge|]. now exists O.
Qed.


Lemma after_turns_stack (table : Keys) (n : nat) (s : PState) :
  after_turns pgn n (initial_state table) = Some s ->
  stack_ok (state s) (stateStack s) /\ result_unknown s.
Proof.
  intros Hs.
  apply (after_turns_inv
           (fun s => stack_ok (state s) (stateStack s) /\ result_unknown s)
           (fun s _ H => conj (stack_ok_step pgn s (proj1 H))
                              (result_unknown_step pgn s (proj2 H)))
           n _ _ Hs).
  apply initial_state_ok.
Qed.

(** X13: whenever the loop of [parse_pgn], started as the source starts
    it, is about to run [POP_STATE], the stack holds a state:
    [*(--stateSp)] never reads below the array. *)
Theorem pop_never_underflows (table : Keys) (n : nat) (s : PState) :
  after_turns pgn n (initial_state table) = Some s ->
  ToStep (state s) (ToToken (byte_at pgn (data s))) = POP_STATE ->
  stateStack s <> [].
Proof.
  intros Hs Hpop.
  apply (pop_state_defined pgn s); [|exact Hpop].
  now destruct (after_turns_stack _ _ _ Hs).
Qed.

(** X14: whenever the loop of [parse_pgn] is about to run [START_RESULT]
    or the result branch of [CASTLE_OR_RESULT], [result] is 3: the
    [assert (result == 3)] of the source never fails. *)
Theorem result_assert_never_fails (table : Keys) (n : nat) (s : PState) :
  after_turns pgn n (initial_state table) = Some s ->
  ToStep (state s) (ToToken (byte_at pgn (data s))) = START_RESULT
  \/ ToStep (state s) (ToToken (byte_at pgn (data s))) = CASTLE_OR_RESULT ->
  result s = 3.
Proof.
  intros Hs Hact.
  apply (result_assertion_holds pgn s); [|exact Hact].
  now destruct (after_turns_stack _ _ _ Hs).
Qed.

(** *** What a turn does to the table, the counters and the output *)

Lemma step_effect (s : PState) :
  let g := parse_game false (moves s) (kTable s) (fen s) (fixed s)
                      (gameOfs s) (result s) in
  (kTable (step pgn s) = kTable s
   /\ gameOfs (step pgn s) = gameOfs s
   /\ gameCnt (step pgn s) = gameCnt s
   /\ (cerr (step pgn s) = cerr s
       \/ cerr (step pgn s) = cerr s ++ [WrongState (state s) (data s)]
          /\ ToStep (state s) (ToToken (byte_at pgn (data s))) = FAIL))
  \/ (kTable (step pgn s) = g_table g
      /\ (gameOfs (step pgn s) = data s \/ gameOfs (step pgn s) = data s + 1)
      /\ gameCnt (step pgn s) = gameCnt s + 1
      /\ cerr (step pgn s) = cerr s ++ g_diag g
      /\ moves (step pgn s) = []
      /\ moveCnt (step pgn s) = moveCnt s).
Proof.
  intros g. subst g.
  step_cases s Hst;
    first [ left; repeat split; left; reflexivity
          | left; repeat split; right; split; reflexivity
          | right; repeat split; first [left; reflexivity | right; reflexivity] ].
Qed.

Lemma step_data_nonneg (s : PState) :
  0 <= data s -> 0 <= data (step pgn s).
Proof.
  intros H. destruct (step_data pgn s) as [(_ & _ & Hd & Hm)|Hd]; [|lia].
  rewrite Hd. apply (match_at_head pgn) in Hm.
  assert (Hne : byte_at pgn (data s - 1) <> NUL) by (rewrite Hm; discriminate).
  apply byte_at_range in Hne. lia.
Qed.






Lemma at_eof_effect (s : PState) :
  let g := parse_game false (moves s) (kTable s) (fen s) (fixed s)
                      (gameOfs s) (result s) in
  (at_eof s = s)
  \/ (kTable (at_eof s) = g_table g
      /\ gameCnt (at_eof s) = gameCnt s + 1
      /\ cerr (at_eof s) = cerr s ++ g_diag g
      /\ moveCnt (at_eof s) = moveCnt s).
Proof.
  intros g. unfold at_eof.
  destruct (negb (State_eqb (state s) HEADER)
            && negb (State_eqb (state s) SKIP_GAME)
            && negb (length (moves s) =? 0)%nat);
    [right; repeat split | left; reflexivity].
Qed.

End LoopFacts.

Lemma pop_never_underflows_witness :
  exists s,
    after_turns (E := script_engine) (lit "{}") 1 (initial_state []) = Some s
    /\ stateStack s <> [].
Proof.
  eexists. split; [reflexivity|].
  apply (pop_never_underflows (E := script_engine) (lit "{}") [] 1);
    reflexivity.
Defined.

Lemma result_assert_never_fails_witness :
  exists s,
    after_turns (E := script_engine) (lit "1-0") 1 (initial_state []) = Some s
    /\ result s = 3.
Proof.
  eexists. split; [reflexivity|].
  apply (result_assert_never_fails (E := script_engine) (lit "1-0") [] 1);
    [reflexivity | left; reflexivity].
Defined.

(** ** The table [parse_pgn] builds *)

Lemma decode_ofs_learn_of (g r : Z) :
  decode_ofs (learn_of g r) = 8 * ((g / 8) mod 2 ^ 29).
Proof.
  unfold decode_ofs, uint32, wrap. rewrite learn_of_sum.
  change 0x3FFFFFFF with (Z.ones 30). rewrite Z.land_ones by lia.
  rewrite Z.add_comm, Z.mod_add by lia. rewrite Z.mod_mod by lia.
  rewrite Z.shiftl_mul_pow2 by lia.
  change (2 ^ 32) with (2 ^ 3 * 2 ^ 29). change (2 ^ 30) with (2 * 2 ^ 29).
  rewrite (Z.mul_comm _ (2 ^ 3)).
  rewrite Z.mul_mod_distr_l by lia.
  rewrite Z.mod_mod_divide by (exists 2; reflexivity).
  reflexivity.
Qed.

Lemma decode_ofs_bounds (g r : Z) :
  0 <= g ->
  0 <= decode_ofs (learn_of g r) <= g /\ decode_ofs (learn_of g r) mod 8 = 0.
Proof.
  intros Hg. rewrite decode_ofs_learn_of.
  assert (H0 : 0 <= g / 8) by (apply Z.div_pos; lia).
  pose proof (Z.mod_pos_bound (g / 8) (2 ^ 29) ltac:(lia)) as Hm.
  assert (Hle : (g / 8) mod 2 ^ 29 <= g / 8) by (apply Z.mod_le; lia).
  pose proof (Z.mul_div_le g 8 ltac:(lia)) as Hd.
  split; [lia|].
  rewrite Z.mul_comm. apply Z.mod_mul. lia.
Qed.

Section TableFacts.
Context {E : Engine}.
Variable pgn : list ascii.

Lemma parse_game_from_game (mv : list ascii) (t : Keys) (f : list ascii)
      (fx ofs res : Z) :
  0 <= ofs <= eof pgn ->
  exists new,
    g_table (parse_game false mv t f fx ofs res) = t ++ new
    /\ Forall (from_game pgn) new.
Proof.
  intros Hofs.
  destruct (parse_game_loop_records _ _ _ _ _ _ _ _ _
              (parse_game_run false mv t f fx ofs res)) as (steps & _ & Ht).
  exists (List.map (record_of (learn_of ofs res)) steps). split; [exact Ht|].
  apply Forall_forall. intros e He. apply in_map_iff in He.
  destruct He as (pm & <- & _).
  exists ofs, res, pm. split; [exact Hofs | reflexivity].
Qed.

Lemma table_inv_grow (table : Keys) (s : PState) (t' : Keys) (ofs' d' : Z) :
  table_inv pgn table s ->
  t' = g_table (parse_game false (moves s) (kTable s) (fen s) (fixed s)
                           (gameOfs s) (result s)) ->
  0 <= ofs' <= eof pgn -> 0 <= d' ->
  0 <= d' /\ 0 <= ofs' <= eof pgn
  /\ exists new, t' = table ++ new /\ Forall (from_game pgn) new.
Proof.
  intros (_ & Hofs & new & Hk & Hnew) -> Hofs' Hd'.
  split; [exact Hd'|]. split; [exact Hofs'|].
  destruct (parse_game_from_game (moves s) (kTable s) (fen s) (fixed s)
              (gameOfs s) (result s) Hofs) as (new' & -> & Hnew').
  exists (new ++ new'). rewrite Hk, app_assoc. split; [reflexivity|].
  apply Forall_app. now split.
Qed.

Lemma table_inv_step (table : Keys) (s : PState) :
  data s < eof pgn -> table_inv pgn table s -> table_inv pgn table (step pgn s).
Proof.
  intros Hlt Hinv. pose proof Hinv as (Hd & Hofs & new & Hk & Hnew).
  pose proof (step_data_nonneg pgn s Hd) as Hd'.
  destruct (step_effect pgn s) as [(Ht & Hg & _)|(Ht & Hg & _)].
  - unfold table_inv. rewrite Ht, Hg. split; [exact Hd'|]. split; [exact Hofs|].
    now exists new.
  - apply (table_inv_grow table s); [exact Hinv | exact Ht | | exact Hd'].
    destruct Hg as [-> | ->]; lia.
Qed.

Lemma table_inv_at_eof (table : Keys) (s : PState) :
  table_inv pgn table s ->
  exists new, kTable (at_eof s) = table ++ new /\ Forall (from_game pgn) new.
Proof.
  intros Hinv. pose proof Hinv as (Hd & Hofs & new & Hk & Hnew).
  destruct (at_eof_effect s) as [-> | (Ht & _)]; [now exists new|].
  now destruct (table_inv_grow table s _ (gameOfs s) (data s) Hinv Ht Hofs Hd)
    as (_ & _ & H).
Qed.

Lemma parse_pgn_table (table : Keys) :
  exists stats new diag,
    parse_pgn pgn table = Some (stats, table ++ new, diag)
    /\ Forall (from_game pgn) new.
Proof.
  unfold parse_pgn.
  destruct (parse_loop_total pgn table) as [s Hs]. rewrite Hs.
  destruct (parse_loop_after_turns _ _ _ _ Hs) as (_ & n & Hn).
  assert (Hinv : table_inv pgn table s).
  { refine (after_turns_inv pgn (table_inv pgn table)
              (table_inv_step table) n _ _ Hn _).
    unfold table_inv, eof. cbn. split; [lia|]. split; [lia|].
    exists []. now rewrite app_nil_r. }
  destruct (table_inv_at_eof table s Hinv) as (new & Hk & Hnew).
  exists (stats_of (at_eof s)), new, (cerr (at_eof s)).
  now rewrite Hk.
Qed.


(** X17: the offset that [probe_key] decodes from the [learn] of a record
    made by [parse_pgn] is an offset of the PGN file, from 0 to its size,
    and a multiple of 8. *)
Theorem parse_pgn_offsets_in_file (table : Keys) :
  exists stats new diag,
    parse_pgn pgn table = Some (stats, table ++ new, diag)
    /\ Forall (fun e => 0 <= decode_ofs (learn e) <= eof pgn
                        /\ decode_ofs (learn e) mod 8 = 0) new.
Proof.
  destruct (parse_pgn_table table) as (stats & new & diag & Hp & Hnew).
  exists stats, new, diag. split; [exact Hp|].
  revert Hnew. apply Forall_impl.
  intros e (g & r & pm & Hg & ->). cbn [record_of learn].
  destruct (decode_ofs_bounds g r (proj1 Hg)). split; [lia | assumption].
Qed.
End TableFacts.

(** ** The move buffer *)

Lemma chain_head (st : State) (stk : list State) (mv : list ascii) :
  chain_clean st stk mv -> st = HEADER \/ st = SKIP_GAME -> mv = [].
Proof. destruct stk; cbn; intros H; now apply H. Qed.

Lemma chain_nil (st : State) (stk : list State) : chain_clean st stk [].
Proof.
  revert st. induction stk as [|top rest IH]; intros st; cbn; [reflexivity|].
  split; [reflexivity | intros _; apply IH].
Qed.

Lemma chain_flat (st : State) (stk : list State) (mv : list ascii) :
  st <> HEADER -> st <> SKIP_GAME -> nested st = false ->
  chain_clean st stk mv.
Proof.
  intros H1 H2 Hn. destruct stk; cbn.
  - intros [H|H]; contradiction.
  - split; [intros [H|H]; contradiction | congruence].
Qed.

Lemma chain_push (st st' : State) (stk : list State) (mv : list ascii) :
  nested st' = true -> chain_clean st stk mv -> chain_clean st' (st :: stk) mv.
Proof.
  intros Hn H. cbn. split; [|now intros _].
  intros [-> | ->]; discriminate.
Qed.

Lemma chain_pop (st top : State) (rest : list State) (mv : list ascii) :
  nested st = true -> chain_clean st (top :: rest) mv -> chain_clean top rest mv.
Proof. intros Hn [_ H]. now apply H. Qed.

Lemma chain_same (st st' : State) (stk : list State) (mv : list ascii) :
  nested st = true -> nested st' = true ->
  chain_clean st stk mv -> chain_clean st' stk mv.
Proof.
  intros Hn Hn' H. destruct stk as [|top rest]; cbn in *.
  - intros [-> | ->]; discriminate.
  - split; [intros [-> | ->]; discriminate|]. intros _. now apply (proj2 H).
Qed.

Section BufferFacts.
Context {E : Engine}.
Variable pgn : list ascii.

Ltac step_cases s Hst :=
  unfold step, action;
  destruct (state s) eqn:Hst; destruct (ToToken (byte_at pgn (data s)));
  cbn [ToStep];
  repeat match goal with
         | |- context [if ?b then _ else _] => destruct b eqn:?
         | |- context [match stm s with _ => _ end] => destruct (stm s)
         end;
  unfold do_MISSING_RESULT, do_START_READ_SAN, push_state, pop_state;
  try match goal with
      | |- context [match stateStack s with _ => _ end] =>
          destruct (stateStack s) as [|top rest] eqn:Hstack
      end;
  cbn [state stateStack fen moves curMove moveCnt gameCnt fixed gameOfs
       result data stm kTable cerr
       set_state set_stateStack set_data set_fen set_moves
       set_result set_stm set_cerr finish_game].

Lemma chain_clean_step (s : PState) :
  chain_clean (state s) (stateStack s) (moves s) ->
  chain_clean (state (step pgn s)) (stateStack (step pgn s)) (moves (step pgn s)).
Proof.
  intros Hinv.
  assert (Hhead : state s = HEADER \/ state s = SKIP_GAME -> moves s = [])
    by exact (chain_head _ _ _ Hinv).
  step_cases s Hst;
    rewrite ?Hst in Hinv, Hhead; rewrite ?Hst; try rewrite Hstack in Hinv; try rewrite Hstack;
    try (rewrite (Hhead (or_introl eq_refl)) in * );
    try (rewrite (Hhead (or_intror eq_refl)) in * );
    first
      [ apply chain_nil
      | exact Hinv
      | apply chain_flat; [discriminate | discriminate | reflexivity]
      | apply chain_push; [reflexivity | exact Hinv]
      | eapply chain_pop; [|exact Hinv]; reflexivity
      | eapply chain_same; [| |exact Hinv]; reflexivity ].
Qed.

(** X18: at every turn of the loop of [parse_pgn], the move buffer is
    empty while the parser is in [HEADER] or [SKIP_GAME]; hence the code
    after the loop accounts for one more game exactly when the buffer is
    not empty, whatever the state. *)
Theorem header_has_no_moves (table : Keys) (n : nat) (s : PState) :
  after_turns pgn n (initial_state table) = Some s ->
  (state s = HEADER \/ state s = SKIP_GAME -> moves s = [])
  /\ gameCnt (at_eof s)
     = gameCnt s + (if (length (moves s) =? 0)%nat then 0 else 1).
Proof.
  intros Hn.
  assert (Hinv : chain_clean (state s) (stateStack s) (moves s)).
  { refine (after_turns_inv pgn
              (fun s => chain_clean (state s) (stateStack s) (moves s))
              (fun s _ => chain_clean_step s) n _ _ Hn _).
    apply chain_nil. }
  pose proof (chain_head _ _ _ Hinv) as Hhead.
  split; [exact Hhead|].
  unfold at_eof.
  destruct (State_eqb (state s) HEADER) eqn:Hh.
  { apply State_eqb_eq in Hh. rewrite (Hhead (or_introl Hh)). cbn. lia. }
  destruct (State_eqb (state s) SKIP_GAME) eqn:Hk.
  { apply State_eqb_eq in Hk. rewrite (Hhead (or_intror Hk)). cbn. lia. }
  cbn [negb andb].
  destruct (length (moves s) =? 0)%nat; cbn [negb gameCnt]; lia.
Qed.
End BufferFacts.

Lemma header_has_no_moves_witness :
  exists s,
    after_turns (E := script_engine) (lit "1.e4") 4 (initial_state []) = Some s
    /\ gameCnt (at_eof (E := script_engine) s) = gameCnt s + 1.
Proof.
  eexists. split; [vm_compute; reflexivity|].
  apply (header_has_no_moves (E := script_engine) (lit "1.e4") [] 4).
  vm_compute. reflexivity.
Defined.

(** ** Records and counters *)

Lemma nul_count_app (a b : list ascii) :
  nul_count (a ++ b) = (nul_count a + nul_count b)%nat.
Proof. apply count_occ_app. Qed.

Lemma nul_count_byte (c : ascii) : c <> NUL -> nul_count [c] = O.
Proof.
  intros H. unfold nul_count. cbn [count_occ].
  destruct (ascii_dec c NUL); [contradiction | reflexivity].
Qed.

Lemma next_token_count (cur : list ascii) :
  (match next_token cur with [] => O | _ :: _ => S (nul_count (next_token cur)) end
   <= nul_count cur)%nat.
Proof.
  induction cur as [|c rest IH]; [cbn; lia|].
  cbn [next_token]. unfold nul_count in *. cbn [count_occ].
  destruct (Ascii.eqb_spec c NUL) as [->|Hne].
  - destruct (ascii_dec NUL NUL); [|contradiction]. destruct rest; lia.
  - destruct (ascii_dec c NUL); [contradiction | exact IH].
Qed.

Section CountFacts.
Context {E : Engine}.
Variable pgn : list ascii.

Lemma parse_game_loop_count (fuel : nat) (learn_ : Z) (len : nat)
      (pos : Position) (cur : list ascii) (t : Keys) (fx : Z) (g : GameResult) :
  parse_game_loop fuel false learn_ len pos cur t fx = Some g ->
  (length (g_table g)
   <= length t + match cur with [] => O | _ :: _ => S (nul_count cur) end)%nat.
Proof.
  revert pos cur t fx.
  induction fuel as [|fuel IH]; intros pos cur t fx Hg; [discriminate|].
  cbn [parse_game_loop] in Hg.
  destruct cur as [|c rest]; [injection Hg as <-; cbn; lia|].
  pose proof (next_token_count (c :: rest)) as Hn.
  destruct (san_to_move pos (c :: rest) fx) as [mv fx'].
  destruct (mv =? MOVE_NONE); [injection Hg as <-; cbn [g_table]; lia|].
  destruct (mv =? MOVE_NULL); apply IH in Hg;
    rewrite ?length_app in Hg; cbn [length] in Hg; lia.
Qed.

Lemma parse_game_count (mv : list ascii) (t : Keys) (f : list ascii)
      (fx ofs res : Z) :
  (length (g_table (parse_game false mv t f fx ofs res))
   <= length t + S (nul_count mv))%nat.
Proof.
  pose proof (parse_game_loop_count _ _ _ _ _ _ _ _
                (parse_game_run false mv t f fx ofs res)) as H.
  destruct mv; lia.
Qed.

Lemma no_nul_byte (d : Z) :
  no_nul pgn = true -> 0 <= d < eof pgn -> byte_at pgn d <> NUL.
Proof.
  unfold no_nul, byte_at, eof. intros Hn Hd.
  rewrite forallb_forall in Hn.
  destruct (Z.ltb_spec d 0); [lia|].
  assert (Hin : In (nth (Z.to_nat d) pgn NUL) pgn) by (apply nth_In; lia).
  apply Hn in Hin. intros Heq. rewrite Heq in Hin. discriminate.
Qed.

Ltac step_cases s Hst :=
  unfold step, action;
  destruct (state s) eqn:Hst; destruct (ToToken (byte_at pgn (data s)));
  cbn [ToStep];
  repeat match goal with
         | |- context [if ?b then _ else _] => destruct b eqn:?
         | |- context [match stm s with _ => _ end] => destruct (stm s)
         end;
  unfold do_MISSING_RESULT, do_START_READ_SAN, push_state, pop_state;
  try match goal with
      | |- context [match stateStack s with _ => _ end] =>
          destruct (stateStack s) as [|top rest] eqn:Hstack
      end;
  cbn [state stateStack fen moves curMove moveCnt gameCnt fixed gameOfs
       result data stm kTable cerr
       set_state set_stateStack set_data set_fen set_moves
       set_result set_stm set_cerr finish_game].

Lemma count_slack_step (s : PState) :
  byte_at pgn (data s) <> NUL -> count_slack s <= count_slack (step pgn s).
Proof.
  intros Hb.
  pose proof (parse_game_count (moves s) (kTable s) (fen s) (fixed s)
                (gameOfs s) (result s)) as Hg.
  pose proof (nul_count_byte _ Hb) as Hc.
  assert (Hz : nul_count [NUL] = 1%nat) by reflexivity.
  assert (Hn : nul_count [] = O) by reflexivity.
  unfold count_slack.
  step_cases s Hst;
    rewrite ?nul_count_app, ?Hc, ?Hz, ?Hn; lia.
Qed.

Lemma count_slack_at_eof (s : PState) :
  count_slack s
  <= moveCnt (at_eof s) + gameCnt (at_eof s)
     - Z.of_nat (length (kTable (at_eof s))).
Proof.
  pose proof (parse_game_count (moves s) (kTable s) (fen s) (fixed s)
                (gameOfs s) (result s)) as Hg.
  unfold count_slack.
  destruct (at_eof_effect s) as [-> | (-> & -> & _ & ->)]; lia.
Qed.

(** X19: for a file with no zero byte, the records [parse_pgn] adds are
    at most the moves plus the games it counts: every record comes from a
    token closed by [END_MOVE], or from the one token a game may leave
    open. *)
Theorem records_within_counters (table : Keys) :
  no_nul pgn = true ->
  exists stats new diag,
    parse_pgn pgn table = Some (stats, table ++ new, diag)
    /\ Z.of_nat (length new) <= moves_ stats + games stats.
Proof.
  intros Hnn.
  destruct (parse_pgn_table pgn table) as (stats & new & diag & Hp & _).
  exists stats, new, diag. split; [exact Hp|].
  unfold parse_pgn in Hp.
  destruct (parse_loop_total pgn table) as [s Hs]. rewrite Hs in Hp.
  injection Hp as <- Ht _.
  destruct (parse_loop_after_turns _ _ _ _ Hs) as (_ & n & Hn).
  assert (Hinv : 0 <= data s /\ - Z.of_nat (length table) <= count_slack s).
  { refine (after_turns_inv pgn
              (fun s => 0 <= data s
                        /\ - Z.of_nat (length table) <= count_slack s)
              _ n _ _ Hn _).
    - intros s0 Hlt [Hd Hc]. split; [now apply step_data_nonneg|].
      pose proof (count_slack_step s0 (no_nul_byte _ Hnn (conj Hd Hlt))). lia.
    - unfold count_slack. cbn. lia. }
  destruct Hinv as [_ Hc].
  pose proof (count_slack_at_eof s) as He.
  apply (f_equal (@length PolyEntry)) in Ht. rewrite length_app in Ht.
  cbn [stats_of moves_ games]. lia.
Qed.
End CountFacts.

Lemma records_within_counters_witness :
  no_nul pgn_one_game = true
  /\ exists stats new diag,
       parse_pgn (E := script_engine) pgn_one_game [] = Some (stats, [] ++ new, diag)
       /\ Z.of_nat (length new) <= moves_ stats + games stats.
Proof.
  split; [reflexivity|].
  apply (records_within_counters (E := script_engine) pgn_one_game []).
  reflexivity.
Defined.

(** ** [probe_key] on a run that ends where the probe can see it *)

Lemma serialise_app (a b : Keys) : serialise (a ++ b) = serialise a ++ serialise b.
Proof. unfold serialise. now rewrite map_app, concat_app. Qed.

Lemma bucket_lt (e : PolyEntry) : (bucket e < 4)%nat.
Proof.
  unfold bucket. change 3 with (Z.ones 2). rewrite Z.land_ones by lia.
  pose proof (Z.mod_pos_bound (Z.shiftr (learn e) 30) (2 ^ 2) ltac:(lia)). lia.
Qed.

Lemma tally_counts (g : Keys) (a b c d : Z) :
  fold_left (fun r x => incr_at (bucket x) r) g [a; b; c; d]
  = [a + bucket_count 0 g; b + bucket_count 1 g;
     c + bucket_count 2 g; d + bucket_count 3 g].
Proof.
  revert a b c d. induction g as [|x g IH]; intros a b c d.
  - unfold bucket_count. cbn. now rewrite !Z.add_0_r.
  - cbn [fold_left]. pose proof (bucket_lt x) as Hx.
    unfold bucket_count in *. cbn [filter].
    destruct (bucket x) as [|[|[|[|n]]]]; [| | | |lia];
      cbn [incr_at Nat.eqb length]; rewrite IH;
      repeat (f_equal; try lia).
Qed.

(** The offsets the inner loop has collected after one more record. *)
Lemma collect_step (limit sk : nat) (ofs : list Z) (e : PolyEntry) (l : Keys) :
  (length ofs <= limit)%nat ->
  let ofs' := if (sk =? 0)%nat && (length ofs <? limit)%nat
              then ofs ++ [decode_ofs (learn e)] else ofs in
  (length ofs' <= limit)%nat
  /\ ofs' ++ List.map (fun x => decode_ofs (learn x))
                      (firstn (limit - length ofs') (skipn (Nat.pred sk) l))
     = ofs ++ List.map (fun x => decode_ofs (learn x))
                       (firstn (limit - length ofs) (skipn sk (e :: l))).
Proof.
  intros Hlen. destruct sk as [|j]; cbn [Nat.eqb andb Nat.pred skipn].
  - destruct (Nat.ltb_spec (length ofs) limit) as [Hlt|Hge].
    + rewrite length_app. cbn [length]. split; [lia|].
      replace (limit - length ofs)%nat with (S (limit - (length ofs + 1)))
        by lia.
      cbn [firstn List.map]. now rewrite <- app_assoc.
    + split; [exact Hlen|].
      replace (limit - length ofs)%nat with O by lia. reflexivity.
  - split; [exact Hlen | reflexivity].
Qed.

Lemma probe_group_run (limit : nat) (mv : Z) (tail : ifstream) (es : Keys) :
  Forall wf_entry es -> Forall (fun x => move x = mv) es ->
  move (fst (read_entry tail)) <> mv ->
  forall (fuel : nat) (e : PolyEntry) (sk : nat) (ofs res : list Z),
    (length es < fuel)%nat -> (length ofs <= limit)%nat ->
    probe_group fuel limit mv e (serialise es ++ tail) sk ofs res
    = Some (fst (read_entry tail), snd (read_entry tail),
            ofs ++ List.map (fun x => decode_ofs (learn x))
                            (firstn (limit - length ofs) (skipn sk (e :: es))),
            fold_left (fun r x => incr_at (bucket x) r) (e :: es) res).
Proof.
  intros Hwf Hmv Hstop.
  induction es as [|x es IH]; intros fuel e sk ofs res Hfuel Hlen;
    (destruct fuel as [|fuel]; [cbn in Hfuel; lia|]);
    cbn [probe_group].
  - destruct (collect_step limit sk ofs e [] Hlen) as [_ Hofs].
    cbn [serialise concat List.map app].
    destruct (read_entry tail) as [e' ifs'] eqn:Hr. cbn [fst snd] in *.
    apply Z.eqb_neq in Hstop. rewrite Hstop.
    cbv zeta in Hofs.
    rewrite skipn_nil, firstn_nil in Hofs. cbn [List.map] in Hofs.
    rewrite app_nil_r in Hofs. rewrite <- Hofs. reflexivity.
  - destruct (collect_step limit sk ofs e (x :: es) Hlen) as [Hlen' Hofs].
    rewrite serialise_cons, <- app_assoc.
    inversion Hwf as [|? ? Hx Hwf']; subst.
    inversion Hmv as [|? ? Hmx Hmv']; subst.
    rewrite (read_write_entry x _ Hx). rewrite Z.eqb_refl.
    rewrite (IH Hwf' Hmv') by (cbn [length] in Hfuel; lia || exact Hlen').
    cbv zeta in Hofs. rewrite Hofs. reflexivity.
Qed.

Lemma groups_of_run (l : Keys) (sm : Z) :
  (l <> [] -> move (last l PolyEntry_zero) <> sm) ->
  groups_ok (group_by_move l) sm /\ concat (group_by_move l) = l.
Proof.
  induction l as [|e l IH]; intros Hlast; [now split|].
  cbn [group_by_move].
  destruct l as [|e' l'].
  - cbn. repeat split; try discriminate.
    + now repeat constructor.
    + intros H. apply Hlast; [discriminate | now symmetry].
  - destruct IH as [Hok Hcat].
    { intros _. apply Hlast. discriminate. }
    destruct (group_by_move (e' :: l')) as [|[|h g] gs] eqn:Hg;
      [discriminate Hcat | cbn in Hok; now destruct Hok |].
    cbn [groups_ok hd] in Hok. destruct Hok as (_ & Hall & Hnext & Hok).
    destruct (Z.eqb_spec (move h) (move e)) as [Heq|Hne].
    + split.
      * cbn [groups_ok hd]. split; [discriminate|]. split.
        { constructor; [reflexivity|]. rewrite <- Heq. exact Hall. }
        split; [now rewrite <- Heq | exact Hok].
      * cbn [concat app] in *. now rewrite Hcat.
    + split.
      * cbn [groups_ok hd head_move]. split; [discriminate|]. split.
        { now repeat constructor. }
        split; [exact Hne|]. split; [discriminate|]. now split.
      * cbn [concat app] in *. now rewrite Hcat.
Qed.

Lemma probe_moves_groups (limit skip : nat) (k : Z) (tail : ifstream) (gs : list Keys) :
  key (fst (read_entry tail)) <> k ->
  forall (e : PolyEntry) (es : Keys) (json : list MoveInfo) (fuel : nat),
    groups_ok ((e :: es) :: gs) (move (fst (read_entry tail))) ->
    Forall wf_entry (es ++ concat gs) ->
    Forall (fun x => key x = k) (concat gs) ->
    (S (length (es ++ concat gs)) < fuel)%nat ->
    probe_moves fuel limit skip k e (serialise (es ++ concat gs) ++ tail) json
    = Some (json ++ List.map (group_info limit skip) ((e :: es) :: gs)).
Proof.
  intros Hkey.
  induction gs as [|g gs IH]; intros e es json fuel Hok Hwf Hk Hfuel;
    (destruct fuel as [|fuel]; [lia|]);
    cbn [groups_ok hd] in Hok; destruct Hok as (_ & Hall & Hnext & Hok);
    inversion Hall as [|? ? _ Hes]; subst;
    apply Forall_app in Hwf; destruct Hwf as [Hwes Hwgs];
    rewrite length_app in Hfuel;
    cbn [probe_moves]; rewrite serialise_app, <- app_assoc.
  - cbn [concat serialise List.map app] in *.
    rewrite (probe_group_run limit (move e) tail es Hwes Hes Hnext)
      by (cbn [length]; lia).
    apply Z.eqb_neq in Hkey. rewrite Z.eqb_sym in Hkey. rewrite Hkey.
    cbn [List.map]. unfold group_info. cbn [hd].
    rewrite tally_counts, Nat.sub_0_r. reflexivity.
  - cbn [groups_ok] in Hok. destruct Hok as (Hne & Hall' & Hnext' & Hok').
    destruct g as [|h g]; [contradiction|].
    cbn [concat] in *. cbn [head_move] in Hnext.
    cbn [app] in Hwgs, Hk.
    inversion Hwgs as [|? ? Hh Hwgs']; subst.
    inversion Hk as [|? ? Hkh Hk']; subst.
    assert (Hread : read_entry (serialise ((h :: g) ++ concat gs) ++ tail)
                    = (h, serialise (g ++ concat gs) ++ tail)).
    { cbn [app]. rewrite serialise_cons, <- app_assoc.
      now apply read_write_entry. }
    assert (Hstop : move (fst (read_entry
                      (serialise ((h :: g) ++ concat gs) ++ tail))) <> move e)
      by (rewrite Hread; exact Hnext).
    rewrite (probe_group_run limit (move e) _ es Hwes Hes Hstop)
      by (cbn [length]; lia).
    rewrite Hread. cbn [fst snd]. rewrite Z.eqb_refl.
    rewrite (IH h g).
    + cbn [List.map]. rewrite <- app_assoc. cbn [app].
      unfold group_info at 2. cbn [hd].
      rewrite tally_counts, Nat.sub_0_r. reflexivity.
    + cbn [groups_ok hd]. split; [discriminate|]. now repeat split.
    + exact Hwgs'.
    + apply Forall_app in Hk'. now destruct Hk'.
    + cbn [length app] in Hfuel. rewrite !length_app in Hfuel.
      rewrite length_app. cbn [length] in Hfuel. lia.
Qed.

(** X21: in a book where the run of the probed key is followed by a
    record of another key and of another move than the last of the run
    (or by the end of the file, whose record is [eof_entry]), [probe_key],
    called with a [limit] that [pgn_ofs.reserve] accepts, returns and
    reports the groups of the run, one entry for each: the move and the
    weight of the first record of the group, the number of records for
    each result, and the offsets of at most [limit] records after the
    first [skip]. *)
Theorem probe_key_reports_run (pre : list Z) (run : Keys) (tail : ifstream)
        (k : Z) (limit skip : nat) (json : list MoveInfo) :
  reserve_ok 8 (Z.of_nat limit) = true ->
  run <> [] ->
  Forall wf_entry run ->
  Forall (fun e => key e = k) run ->
  key (fst (read_entry tail)) <> k ->
  move (fst (read_entry tail)) <> move (last run PolyEntry_zero) ->
  probe_key json (Some (pre ++ serialise run ++ tail)) (length pre) limit skip
  = Some (json ++ List.map (group_info limit skip) (group_by_move run)).
Proof.
  intros Hres Hne Hwf Hk Hkey Hmove.
  destruct (groups_of_run run (move (fst (read_entry tail)))) as [Hok Hcat].
  { intros _ H. apply Hmove. now symmetry. }
  destruct (group_by_move run) as [|[|e es] gs] eqn:Hg.
  - cbn in Hcat. now subst run.
  - cbn in Hok. now destruct Hok.
  - cbn [concat app] in Hcat.
    subst run.
    inversion Hwf as [|? ? He Hwf']; subst.
    inversion Hk as [|? ? Hke Hk']; subst.
    unfold probe_key.
    rewrite skipn_app, Nat.sub_diag, skipn_all. cbn [skipn app].
    rewrite serialise_cons, <- app_assoc.
    rewrite (read_write_entry e _ He), Hres.
    apply probe_moves_groups; try assumption.
    + apply Forall_app in Hk'. now destruct Hk'.
    + rewrite !length_app, serialise_length. cbn [length].
      rewrite length_app. unfold SizeOfPolyEntry. lia.
Qed.

Lemma probe_key_reports_run_witness :
  let pre := serialise [mkPolyEntry 1 9 1 0] in
  let run := [mkPolyEntry 2 7 43690 0x40000001; mkPolyEntry 2 7 43690 0x80000003;
              mkPolyEntry 2 4 21845 2] in
  let tail := serialise [mkPolyEntry 3 9 1 0] in
  probe_key [] (Some (pre ++ serialise run ++ tail)) 16 10 0
  = Some [mkMoveInfo 7 43690 [0; 1; 1; 0] [8; 24];
          mkMoveInfo 4 21845 [1; 0; 0; 0] [16]].
Proof.
  intros pre run tail.
  assert (Hwf : Forall wf_entry run) by (repeat constructor; cbn; lia).
  assert (Hk : Forall (fun e => key e = 2) run) by (repeat constructor).
  assert (Hne : run <> []) by discriminate.
  assert (Hkey : key (fst (read_entry tail)) <> 2) by (vm_compute; discriminate).
  assert (Hmv : move (fst (read_entry tail)) <> move (last run PolyEntry_zero))
    by (vm_compute; discriminate).
  exact (probe_key_reports_run pre run tail 2 10 0 [] eq_refl Hne Hwf Hk Hkey Hmv).
Defined.

(** ** [probe_key] at the end of the file *)

Lemma read_entry_eof : read_entry [] = (eof_entry, []).
Proof. reflexivity. Qed.

Lemma probe_group_eof (fuel limit : nat) (e : PolyEntry) (sk : nat)
      (ofs res : list Z) :
  probe_group fuel limit (move eof_entry) e [] sk ofs res = None.
Proof.
  revert e sk ofs res. induction fuel as [|fuel IH]; intros e sk ofs res;
    [reflexivity|].
  cbn [probe_group]. rewrite read_entry_eof, Z.eqb_refl. apply IH.
Qed.

(** X22: probed at an offset at or past the end of the book (an empty
    book included), [probe_key] never returns: the record it reads is the
    one [get] makes of [EOF], every further read gives the same record,
    and the inner loop waits for another move. *)
Theorem probe_past_end_never_returns (bytes : list Z) (ofs limit skip : nat)
        (json : list MoveInfo) :
  (length bytes <= ofs)%nat ->
  read_entry (skipn ofs bytes) = (eof_entry, [])
  /\ (forall fuel,
        probe_moves fuel limit skip (key eof_entry) eof_entry [] json = None)
  /\ probe_key json (Some bytes) ofs limit skip = None.
Proof.
  intros Hofs.
  assert (Hloop : forall fuel,
             probe_moves fuel limit skip (key eof_entry) eof_entry [] json = None).
  { intros [|fuel]; [reflexivity|]. cbn [probe_moves].
    now rewrite probe_group_eof. }
  rewrite (skipn_all2 bytes Hofs).
  split; [apply read_entry_eof|]. split; [exact Hloop|].
  unfold probe_key. rewrite (skipn_all2 bytes Hofs), read_entry_eof.
  destruct (reserve_ok 8 (Z.of_nat limit)); [apply Hloop | reflexivity].
Qed.

Lemma probe_past_end_never_returns_witness :
  probe_key [] (Some (serialise [mkPolyEntry 1 9 1 0])) 16 10 0 = None.
Proof.
  apply (probe_past_end_never_returns (serialise [mkPolyEntry 1 9 1 0]) 16 10 0 []).
  cbn. lia.
Defined.

(** ** [make_book], from the file to the book *)





Section BookFacts.
Context {E : Engine}.
Variable pgn : list ascii.
Hypothesis key_range : forall p : Position, 0 <= pos_key p < 2 ^ 64.


End BookFacts.


(** ** The name of the book file *)

Lemma find_last_of_none (c : ascii) (s : list ascii) :
  existsb (fun x => Ascii.eqb x c) s = false -> find_last_of c s = None.
Proof.
  induction s as [|x s IH]; [reflexivity|].
  cbn [existsb find_last_of]. intros H. apply orb_false_iff in H.
  destruct H as [Hx Hs]. now rewrite (IH Hs), Hx.
Qed.

Lemma find_last_of_app (c : ascii) (a b : list ascii) :
  existsb (fun x => Ascii.eqb x c) b = false ->
  find_last_of c (a ++ c :: b) = Some (length a).
Proof.
  intros H. induction a as [|x a IH]; cbn [app find_last_of length].
  - now rewrite (find_last_of_none c b H), Ascii.eqb_refl.
  - now rewrite IH.
Qed.

(** X24: the book is written beside the PGN file under the name cut at
    its last dot, with [.bin] added: [stem.ext] gives [stem.bin] whatever
    dots and slashes [stem] holds, and a name without a dot gets [.bin]
    appended.  The dot need not belong to the file part of the path. *)
Theorem book_file_name_spec (stem ext : list ascii) :
  no_dot ext = true ->
  book_file_name (stem ++ "."%char :: ext) = stem ++ lit ".bin"
  /\ book_file_name ext = ext ++ lit ".bin".
Proof.
  unfold no_dot, book_file_name. intros H. apply negb_true_iff in H.
  rewrite (find_last_of_app "." stem ext H), (find_last_of_none "." ext H).
  split; [|reflexivity].
  now rewrite firstn_app, Nat.sub_diag, firstn_all, app_nil_r.
Qed.

Lemma book_file_name_spec_witness :
  book_file_name (lit "db.v2/games.pgn") = lit "db.v2/games.bin"
  /\ book_file_name (lit "db.v2/games") = lit "db.bin".
Proof.
  split.
  - apply (book_file_name_spec (lit "db.v2/games") (lit "pgn")). reflexivity.
  - apply (book_file_name_spec (lit "db") (lit "v2/games")). reflexivity.
Defined.
